(** * python_snappy: the pure Python Snappy block decoder

    A shallow embedding of [src/python_snappy/snappy.py] (the functions
    [_decode_varint] and [decompress]) and the properties of the decoder
    stated in the specification.

    Conventions of the embedding:
    - a Python [int] is a [Z]; a [bytes] or [bytearray] object is a
      [list byte], and reading one of its items yields the item's value
      as an [int] ([byte_val]);
    - a Python call either returns or raises: [outcome] is the error monad
      of the embedding.  Loops of the source that are not [for] loops over
      a [range] are run with fuel, and [OutOfFuel] is the third outcome;
      it is shown never to occur;
    - subscripts follow Python: a negative subscript counts from the end,
      a subscript out of range raises [IndexError]; slice bounds are
      clamped to the sequence;
    - memory is not bounded: [bytearray(n)] returns for every [n] that is
      not negative. *)

From Stdlib Require Import ZArith Lia Bool List.
From Stdlib Require Import Strings.Byte.
From stdpp Require Import base list.
Import ListNotations.

Local Open Scope Z_scope.

(** ** Exceptions *)

(** Modelled from the spec: the module [python_snappy/exceptions.py], which
    declares [CompressionError], is not part of the sources.  The decoder
    only ever calls [CompressionError(message, algorithm="snappy")]; the
    exception is modelled by its message, one constructor per [raise] of
    [snappy.py], and the two formatted messages carry the numbers they
    print. *)
Inductive message : Type :=
  | Truncated_varint                      (* "Truncated varint in snappy data" *)
  | Varint_too_large                      (* "Varint too large in snappy data" *)
  | Truncated_literal_length              (* "Truncated literal length" *)
  | Truncated_literal_data                (* "Truncated literal data" *)
  | Output_overflow_in_literal            (* "Output overflow in literal" *)
  | Truncated_copy1_offset                (* "Truncated copy1 offset" *)
  | Truncated_copy2_offset                (* "Truncated copy2 offset" *)
  | Truncated_copy4_offset                (* "Truncated copy4 offset" *)
  | Invalid_zero_offset                   (* "Invalid zero offset in copy" *)
  | Copy_offset_exceeds (offset out_pos : Z)
      (* f"Copy offset {offset} exceeds output position {out_pos}" *)
  | Output_overflow_in_copy1              (* "Output overflow in copy1" *)
  | Output_overflow_in_copy2              (* "Output overflow in copy2" *)
  | Output_overflow_in_copy4              (* "Output overflow in copy4" *)
  | Output_size_mismatch (expected got : Z).
      (* f"Output size mismatch: expected {expected}, got {got}" *)

Inductive exn : Type :=
  | CompressionError (m : message)
  | IndexError
  | ValueError.

(** Modelled from the spec: the four error kinds of the specification's
    error taxonomy (section 7).  The source has a single exception class;
    a raise belongs to the kind that the taxonomy describes its check
    under. *)
Inductive error_kind : Type := Truncated | Overflow | InvalidOffset | SizeMismatch.

Definition kind_of (m : message) : error_kind :=
  match m with
  | Truncated_varint | Truncated_literal_length | Truncated_literal_data
  | Truncated_copy1_offset | Truncated_copy2_offset | Truncated_copy4_offset => Truncated
  | Varint_too_large | Output_overflow_in_literal
  | Output_overflow_in_copy1 | Output_overflow_in_copy2 | Output_overflow_in_copy4 => Overflow
  | Invalid_zero_offset | Copy_offset_exceeds _ _ => InvalidOffset
  | Output_size_mismatch _ _ => SizeMismatch
  end.

(** ** The error monad *)

Inductive outcome (A : Type) : Type :=
  | Ok (a : A)
  | Raise (e : exn)
  | OutOfFuel.
Arguments Ok {A} a.
Arguments Raise {A} e.
Arguments OutOfFuel {A}.

#[global] Instance outcome_ret : MRet outcome := fun A a => Ok a.
#[global] Instance outcome_bind : MBind outcome := fun A B f c =>
  match c with
  | Ok a => f a
  | Raise e => Raise e
  | OutOfFuel => OutOfFuel
  end.

(** [fails_with c k]: the call raised a [CompressionError] of kind [k]. *)
Definition fails_with {A} (c : outcome A) (k : error_kind) : Prop :=
  ∃ m, c = Raise (CompressionError m) ∧ kind_of m = k.

(** ** Bytes objects *)

Definition byte_val (b : byte) : Z := Z.of_N (Byte.to_N b).

Definition len (l : list byte) : Z := Z.of_nat (length l).

(** [l[i]] *)
Definition getitem (l : list byte) (i : Z) : outcome Z :=
  let j := if i <? 0 then i + len l else i in
  if (0 <=? j) && (j <? len l) then
    match l !! Z.to_nat j with
    | Some b => Ok (byte_val b)
    | None => Raise IndexError
    end
  else Raise IndexError.

(** [l[i] = v] on a bytearray: [v] must be in [range(256)]. *)
Definition setitem (l : list byte) (i : Z) (v : Z) : outcome (list byte) :=
  let j := if i <? 0 then i + len l else i in
  if (0 <=? j) && (j <? len l) then
    if (0 <=? v) && (v <? 256) then
      match Byte.of_N (Z.to_N v) with
      | Some b => Ok (<[Z.to_nat j := b]> l)
      | None => Raise ValueError
      end
    else Raise ValueError
  else Raise IndexError.

(** A slice bound [i] of a sequence of length [n], as Python clamps it. *)
Definition slice_bound (n i : Z) : Z :=
  if i <? 0 then Z.max 0 (i + n) else Z.min i n.

(** [l[a:b]] *)
Definition slice (l : list byte) (a b : Z) : list byte :=
  let a' := slice_bound (len l) a in
  let b' := slice_bound (len l) b in
  take (Z.to_nat (b' - a')) (drop (Z.to_nat a') l).

(** [l[a:b] = xs] on a bytearray *)
Definition set_slice (l : list byte) (a b : Z) (xs : list byte) : list byte :=
  let a' := slice_bound (len l) a in
  let b' := Z.max a' (slice_bound (len l) b) in
  take (Z.to_nat a') l ++ xs ++ drop (Z.to_nat b') l.

(** [bytearray(n)]: a negative count raises [ValueError].  Memory is not
    bounded in the embedding: the [MemoryError] that the call raises when
    a buffer of [n] bytes cannot be allocated is not modelled. *)
Definition bytearray (n : Z) : outcome (list byte) :=
  if n <? 0 then Raise ValueError else Ok (replicate (Z.to_nat n) x00).

(** ** Loops *)

(** [for i in range(n): s = body(i, s)], started at [i]. *)
Fixpoint for_range_from {St : Type} (i : Z) (n : nat)
    (body : Z → St → outcome St) (s : St) : outcome St :=
  match n with
  | O => Ok s
  | S n' => s' ← body i s; for_range_from (i + 1) n' body s'
  end.

Definition for_range {St : Type} (n : Z) (body : Z → St → outcome St) (s : St) : outcome St :=
  for_range_from 0 (Z.to_nat n) body s.

(** What one pass through the body of a [while] loop does. *)
Inductive flow (St R : Type) : Type :=
  | Continue (s : St)
  | Break (r : R).
Arguments Continue {St R} s.
Arguments Break {St R} r.

(** ** [_decode_varint] *)

(** The state of the loop: [pos], [result], [shift]. *)
Definition varint_state : Type := Z * Z * Z.

(** The body of [while True] (lines 21-30). *)
Definition varint_body (data : list byte) (s : varint_state)
    : outcome (flow varint_state (Z * Z)) :=
  let '(pos, result, shift) := s in
  if len data <=? pos then Raise (CompressionError Truncated_varint) else
  byte ← getitem data pos;
  let pos := pos + 1 in
  let result := Z.lor result (Z.shiftl (Z.land byte 0x7F) shift) in
  if Z.land byte 0x80 =? 0 then Ok (Break (result, pos)) else
  let shift := shift + 7 in
  if 32 <? shift then Raise (CompressionError Varint_too_large) else
  Ok (Continue (pos, result, shift)).

Fixpoint varint_loop (fuel : nat) (data : list byte) (s : varint_state)
    : outcome (Z * Z) :=
  match fuel with
  | O => OutOfFuel
  | S fuel' =>
      f ← varint_body data s;
      match f with
      | Continue s' => varint_loop fuel' data s'
      | Break r => Ok r
      end
  end.

(** The loop leaves after at most five passes: [shift] grows by 7 in each
    pass that continues and the fifth would bring it to 35. *)
Definition varint_fuel : nat := 5.

Definition _decode_varint (data : list byte) (pos : Z) : outcome (Z * Z) :=
  varint_loop varint_fuel data (pos, 0, 0).

(** ** [decompress] *)

(** The state of the decode loop: [pos], [output], [out_pos]. *)
Record decoder_state : Type := State {
  st_pos : Z;
  st_output : list byte;
  st_out_pos : Z
}.

(** The literal's length and the cursor behind its length bytes
    (lines 76-88). *)
Definition literal_length (data : list byte) (pos tag : Z) : outcome (Z * Z) :=
  let length := Z.shiftr tag 2 + 1 in
  if length <=? 60 then Ok (length, pos) else
  let extra_bytes := length - 60 in
  if len data <? pos + extra_bytes
  then Raise (CompressionError Truncated_literal_length) else
  length ← for_range extra_bytes
             (fun i length => d ← getitem data (pos + i);
                              Ok (length + Z.shiftl d (i * 8))) 1;
  Ok (length, pos + extra_bytes).

(** The element with tag kind 0 (lines 74-98); [pos] is behind the tag. *)
Definition decode_literal (data : list byte) (uncompressed_len : Z)
    (tag pos : Z) (output : list byte) (out_pos : Z) : outcome decoder_state :=
  '(length, pos) ← literal_length data pos tag;
  if len data <? pos + length
  then Raise (CompressionError Truncated_literal_data) else
  if uncompressed_len <? out_pos + length
  then Raise (CompressionError Output_overflow_in_literal) else
  let output := set_slice output out_pos (out_pos + length)
                          (slice data pos (pos + length)) in
  Ok (State (pos + length) output (out_pos + length)).

(** The length, the offset and the cursor behind the offset bytes of a copy
    element of kind 1 (lines 103-107), 2 (lines 125-129) or, for any other
    kind, 3 (lines 147-153). *)
Definition copy_header (data : list byte) (element_type tag pos : Z)
    : outcome (Z * Z * Z) :=
  if element_type =? 1 then
    let length := Z.land (Z.shiftr tag 2) 0x07 + 4 in
    if len data <=? pos
    then Raise (CompressionError Truncated_copy1_offset) else
    d0 ← getitem data pos;
    let offset := Z.lor (Z.shiftl (Z.shiftr tag 5) 8) d0 in
    Ok (length, offset, pos + 1)
  else if element_type =? 2 then
    let length := Z.shiftr tag 2 + 1 in
    if len data <? pos + 2
    then Raise (CompressionError Truncated_copy2_offset) else
    d0 ← getitem data pos;
    d1 ← getitem data (pos + 1);
    let offset := Z.lor d0 (Z.shiftl d1 8) in
    Ok (length, offset, pos + 2)
  else
    let length := Z.shiftr tag 2 + 1 in
    if len data <? pos + 4
    then Raise (CompressionError Truncated_copy4_offset) else
    d0 ← getitem data pos;
    d1 ← getitem data (pos + 1);
    d2 ← getitem data (pos + 2);
    d3 ← getitem data (pos + 3);
    let offset := Z.lor (Z.lor (Z.lor d0 (Z.shiftl d1 8)) (Z.shiftl d2 16))
                        (Z.shiftl d3 24) in
    Ok (length, offset, pos + 4).

(** The message of the output overflow check of each copy kind. *)
Definition copy_overflow (element_type : Z) : message :=
  if element_type =? 1 then Output_overflow_in_copy1
  else if element_type =? 2 then Output_overflow_in_copy2
  else Output_overflow_in_copy4.

(** [for i in range(length): output[out_pos + i] = output[out_pos - offset + i]] *)
Definition copy_bytes (output : list byte) (out_pos offset length : Z)
    : outcome (list byte) :=
  for_range length
    (fun i output => v ← getitem output (out_pos - offset + i);
                     setitem output (out_pos + i) v)
    output.

(** The three checks and the copy loop that the source repeats, up to the
    message of the third check, in each copy branch (lines 109-121, 131-143
    and 155-167). *)
Definition decode_copy (data : list byte) (uncompressed_len : Z)
    (element_type tag pos : Z) (output : list byte) (out_pos : Z)
    : outcome decoder_state :=
  '(length, offset, pos) ← copy_header data element_type tag pos;
  if offset =? 0 then Raise (CompressionError Invalid_zero_offset) else
  if out_pos <? offset
  then Raise (CompressionError (Copy_offset_exceeds offset out_pos)) else
  if uncompressed_len <? out_pos + length
  then Raise (CompressionError (copy_overflow element_type)) else
  output ← copy_bytes output out_pos offset length;
  Ok (State pos output (out_pos + length)).

(** The body of the decode loop (lines 70-167). *)
Definition decode_element (data : list byte) (uncompressed_len : Z)
    (s : decoder_state) : outcome decoder_state :=
  let '(State pos output out_pos) := s in
  tag ← getitem data pos;
  let pos := pos + 1 in
  let element_type := Z.land tag 0x03 in
  if element_type =? 0
  then decode_literal data uncompressed_len tag pos output out_pos
  else decode_copy data uncompressed_len element_type tag pos output out_pos.

(** The condition of the [while] loop (line 69). *)
Definition loop_condition (data : list byte) (uncompressed_len : Z)
    (s : decoder_state) : bool :=
  (st_pos s <? len data) && (st_out_pos s <? uncompressed_len).

Fixpoint decode_loop (fuel : nat) (data : list byte) (uncompressed_len : Z)
    (s : decoder_state) : outcome decoder_state :=
  if loop_condition data uncompressed_len s then
    match fuel with
    | O => OutOfFuel
    | S fuel' =>
        s' ← decode_element data uncompressed_len s;
        decode_loop fuel' data uncompressed_len s'
    end
  else Ok s.

(** The start of [decompress] on a non-empty input (lines 60-67): the
    declared length and the state in which the loop is entered. *)
Definition decode_header (data : list byte) : outcome (Z * decoder_state) :=
  '(uncompressed_len, pos) ← _decode_varint data 0;
  output ← bytearray uncompressed_len;
  Ok (uncompressed_len, State pos output 0).

(** [decompress] up to the exit of the loop: the declared length and the
    state the loop is left in (lines 60-167).  Every pass of the loop
    consumes at least the tag byte, so [length data] passes are enough. *)
Definition decompress_loop (data : list byte) : outcome (Z * decoder_state) :=
  '(uncompressed_len, s0) ← decode_header data;
  s ← decode_loop (length data) data uncompressed_len s0;
  Ok (uncompressed_len, s).

Definition decompress (data : list byte) : outcome (list byte) :=
  match data with
  | [] => Ok []
  | _ =>
      '(uncompressed_len, s) ← decompress_loop data;
      if negb (st_out_pos s =? uncompressed_len)
      then Raise (CompressionError
                    (Output_size_mismatch uncompressed_len (st_out_pos s)))
      else Ok (st_output s)
  end.

(** ** Notions of the specification *)

(** The high bit of a byte, as line 26 tests it. *)
Definition continuation (b : byte) : bool := negb (Z.land (byte_val b) 0x80 =? 0).

(** The number of bytes with the high bit set that a byte sequence starts
    with. *)
Fixpoint continuation_run (bs : list byte) : nat :=
  match bs with
  | b :: bs' => if continuation b then S (continuation_run bs') else O
  | [] => O
  end.

(** The value the specification gives a varint: every byte contributes its
    low 7 bits, the first byte the least significant ones. *)
Fixpoint base128 (bs : list byte) : Z :=
  match bs with
  | b :: bs' => Z.land (byte_val b) 0x7F + 128 * base128 bs'
  | [] => 0
  end.

(** The value of a byte sequence read as a little-endian unsigned
    integer. *)
Fixpoint little_endian (bs : list byte) : Z :=
  match bs with
  | b :: bs' => byte_val b + 256 * little_endian bs'
  | [] => 0
  end.

(** The item of a sequence at an index that is not negative. *)
Definition item (l : list byte) (i : Z) : option byte := l !! Z.to_nat i.

(** The overflow condition of the varint reader as the specification words
    it: Overflow exactly when more than 5 continuation bytes precede the
    terminating byte. *)
Definition overflow_iff_more_than_5 (data : list byte) (pos : Z) : Prop :=
  fails_with (_decode_varint data pos) Overflow ↔
  (5 < continuation_run (drop (Z.to_nat pos) data))%nat.

(** The truncation condition of the varint reader as the specification
    words it: Truncated whenever the input ends before a byte with the high
    bit clear is seen. *)
Definition truncated_when_input_ends (data : list byte) (pos : Z) : Prop :=
  Forall (λ b, continuation b = true) (drop (Z.to_nat pos) data) →
  fails_with (_decode_varint data pos) Truncated.

(** ** States that an execution passes through *)

(** The state in which [_decode_varint] is at the head of its loop after
    [n] passes, when each of them reached the end of the body. *)
Fixpoint varint_head (n : nat) (data : list byte) (s : varint_state)
    : option varint_state :=
  match n with
  | O => Some s
  | S n' =>
      match varint_body data s with
      | Ok (Continue s') => varint_head n' data s'
      | _ => None
      end
  end.

(** The state in which the decode loop is at its head after [n] passes. *)
Fixpoint decode_head (n : nat) (data : list byte) (uncompressed_len : Z)
    (s : decoder_state) : option decoder_state :=
  match n with
  | O => Some s
  | S n' =>
      if loop_condition data uncompressed_len s then
        match decode_element data uncompressed_len s with
        | Ok s' => decode_head n' data uncompressed_len s'
        | _ => None
        end
      else None
  end.

(** [decompress data] comes to the head of its loop in state [s], the
    declared length being [uncompressed_len]. *)
Definition reaches (data : list byte) (uncompressed_len : Z) (s : decoder_state)
    : Prop :=
  ∃ s0 n, decode_header data = Ok (uncompressed_len, s0) ∧
          decode_head n data uncompressed_len s0 = Some s.

(** What holds of the state at the head of the decode loop. *)
Definition invariant (data : list byte) (uncompressed_len : Z)
    (s : decoder_state) : Prop :=
  0 ≤ st_pos s ≤ len data ∧
  0 ≤ st_out_pos s ≤ uncompressed_len ∧
  len (st_output s) = uncompressed_len.

(** What the copy loop has done to [output] after [m] passes: [output']
    is the buffer then. *)
Definition copied (output : list byte) (out_pos offset m : Z)
    (output' : list byte) : Prop :=
  len output' = len output ∧
  (∀ j, 0 ≤ j < out_pos → item output' j = item output j) ∧
  (∀ j, out_pos + m ≤ j → item output' j = item output j) ∧
  (∀ i, 0 ≤ i < m → item output' (out_pos + i) = item output' (out_pos - offset + i)).

(** The exit of the loop as the specification's lifecycle words it: a
    successful decode has consumed the whole input. *)
Definition consumes_all_input (data : list byte) : Prop :=
  data ≠ [] →
  ∀ out, decompress data = Ok out →
         ∃ uncompressed_len s,
           decompress_loop data = Ok (uncompressed_len, s) ∧
           st_pos s = len data ∧ st_out_pos s = uncompressed_len.

(** The payload of the specification's literal-only scenario,
    "Hello, World!". *)
Definition hello : list byte :=
  [x48; x65; x6c; x6c; x6f; x2c; x20; x57; x6f; x72; x6c; x64; x21].

(** ** Further notions *)

(** The call returns or raises a [CompressionError]: none of the other
    exceptions of the embedding, [IndexError] and [ValueError], leaves
    it. *)
Definition returns_or_compression_error {A : Type} (c : outcome A) : Prop :=
  (∃ a, c = Ok a) ∨ (∃ m, c = Raise (CompressionError m)).

(** The number of offset bytes behind the tag of a copy element: kind 1
    (line 104), kind 2 (line 126), any other kind (line 148). *)
Definition offset_bytes (element_type : Z) : Z :=
  if element_type =? 1 then 1 else if element_type =? 2 then 2 else 4.

(** ** Reference streams

    The source has no encoder: its tests decode the output of an external
    one.  The definitions below build two kinds of Snappy streams, data
    kept as one literal and a run of one byte, against which the decoder
    is checked. *)

(** The byte of value [z]. *)
Definition byte_of (z : Z) : byte :=
  match Byte.of_N (Z.to_N z) with
  | Some b => b
  | None => x00
  end.

(** The varint of [n], at most [fuel] bytes long. *)
Fixpoint encode_varint (fuel : nat) (n : Z) : list byte :=
  match fuel with
  | O => []
  | S fuel' =>
      if n <? 128 then [byte_of n]
      else byte_of (128 + n mod 128) :: encode_varint fuel' (n / 128)
  end.

(** The [k] low bytes of [m], least significant first. *)
Fixpoint le_bytes (k : nat) (m : Z) : list byte :=
  match k with
  | O => []
  | S k' => byte_of (m mod 256) :: le_bytes k' (m / 256)
  end.

(** The tag and the length bytes of a literal of [n] bytes. *)
Definition literal_header (n : Z) : list byte :=
  if n <=? 60 then [byte_of ((n - 1) * 4)]
  else
    let k := if n - 1 <? 2 ^ 8 then 1%nat
             else if n - 1 <? 2 ^ 16 then 2%nat
             else if n - 1 <? 2 ^ 24 then 3%nat
             else 4%nat in
    byte_of ((59 + Z.of_nat k) * 4) :: le_bytes k (n - 1).

(** A stream for [payload] kept uncompressed: the varint of its length
    and, when it is not empty, one literal element with the shortest
    header. *)
Definition stored (payload : list byte) : list byte :=
  encode_varint 5 (len payload) ++
  match payload with
  | [] => []
  | _ => literal_header (len payload) ++ payload
  end.

(** A stream for a run of [1 + 64 * k] bytes [b]: the varint of the
    length, the literal [b] and [k] copies of length 64 with the 2-byte
    offset 1. *)
Definition run_stream (b : byte) (k : nat) : list byte :=
  encode_varint 5 (1 + 64 * Z.of_nat k) ++
  [x00; b] ++ concat (replicate k [xfe; x01; x00]).

(** ** Moving a stream

    The decode loop reads [data] from its cursor on only: the state and the
    outcome of a pass on [pre ++ suf] at a cursor behind [pre] are those
    of the pass on [suf], with the cursor moved by the length of [pre]. *)

Definition shift_state (delta : Z) (s : decoder_state) : decoder_state :=
  State (st_pos s + delta) (st_output s) (st_out_pos s).

Definition shift_outcome (delta : Z) (c : outcome decoder_state)
    : outcome decoder_state :=
  match c with
  | Ok s => Ok (shift_state delta s)
  | Raise e => Raise e
  | OutOfFuel => OutOfFuel
  end.

(** The end of [decompress] (lines 169-174), on the outcome of the loop. *)
Definition finish (uncompressed_len : Z) (c : outcome decoder_state)
    : outcome (list byte) :=
  s ← c;
  if negb (st_out_pos s =? uncompressed_len)
  then Raise (CompressionError
                (Output_size_mismatch uncompressed_len (st_out_pos s)))
  else Ok (st_output s).

(** * Properties of the embedding *)

(** ** Test vectors *)

Example scenario_literal_only : decompress ([x0d; x30] ++ hello) = Ok hello.
Proof. vm_compute. reflexivity. Qed.

Example test_truncated_literal :
  decompress [x0a; x04] = Raise (CompressionError Truncated_literal_data).
Proof. vm_compute. reflexivity. Qed.

Example overlap_offset_1 :
  decompress [x06; x00; x58; x05; x01] = Ok [x58; x58; x58; x58; x58; x58].
Proof. vm_compute. reflexivity. Qed.

Example overlap_offset_2 :
  decompress [x08; x04; x41; x42; x09; x02] = Ok [x41; x42; x41; x42; x41; x42; x41; x42].
Proof. vm_compute. reflexivity. Qed.

Example copy_2_byte_offset :
  decompress [x08; x0c; x61; x62; x63; x64; x0e; x04; x00] =
    Ok [x61; x62; x63; x64; x61; x62; x63; x64].
Proof. vm_compute. reflexivity. Qed.

Example copy_4_byte_offset :
  decompress [x08; x0c; x61; x62; x63; x64; x0f; x04; x00; x00; x00] =
    Ok [x61; x62; x63; x64; x61; x62; x63; x64].
Proof. vm_compute. reflexivity. Qed.

Example literal_of_61_bytes :
  decompress ([x3d; xf0; x3c] ++ replicate 61 x41) = Ok (replicate 61 x41).
Proof. vm_compute. reflexivity. Qed.

Example literal_of_60_bytes :
  decompress ([x3c; xec] ++ replicate 60 x41) = Ok (replicate 60 x41).
Proof. vm_compute. reflexivity. Qed.

Example empty_input : decompress [] = Ok [].
Proof. reflexivity. Qed.

(** ** Bytes objects and the monad *)

Lemma byte_val_range (b : byte) : 0 ≤ byte_val b < 256.
Proof. unfold byte_val. pose proof (Byte.to_N_bounded b). lia. Qed.

Lemma len_nonneg (l : list byte) : 0 ≤ len l.
Proof. unfold len. lia. Qed.

Lemma len_app (l k : list byte) : len (l ++ k) = len l + len k.
Proof. unfold len. rewrite length_app. lia. Qed.

Lemma len_cons (b : byte) (l : list byte) : len (b :: l) = len l + 1.
Proof. unfold len. simpl. lia. Qed.

Lemma getitem_lookup (l : list byte) (i : Z) (b : byte) :
  0 ≤ i → l !! Z.to_nat i = Some b → getitem l i = Ok (byte_val b).
Proof.
  intros Hi Hb. unfold getitem.
  pose proof (lookup_lt_Some _ _ _ Hb) as Hlt.
  replace (i <? 0) with false by (symmetry; apply Z.ltb_ge; lia).
  replace (0 <=? i) with true by (symmetry; apply Z.leb_le; lia).
  replace (i <? len l) with true by (symmetry; apply Z.ltb_lt; unfold len; lia).
  simpl. rewrite Hb. reflexivity.
Qed.

Lemma getitem_in_range (l : list byte) (i : Z) :
  0 ≤ i < len l → ∃ b, l !! Z.to_nat i = Some b ∧ getitem l i = Ok (byte_val b).
Proof.
  intros Hi. destruct (lookup_lt_is_Some_2 l (Z.to_nat i)) as [b Hb].
  { unfold len in Hi. lia. }
  exists b. split; [exact Hb | apply getitem_lookup; [lia | exact Hb]].
Qed.

Lemma getitem_middle (pre post : list byte) (b : byte) :
  getitem (pre ++ b :: post) (len pre) = Ok (byte_val b).
Proof.
  apply getitem_lookup; [apply len_nonneg |].
  apply list_lookup_middle. unfold len. lia.
Qed.

Lemma setitem_in_range (l : list byte) (i : Z) (b : byte) :
  0 ≤ i < len l → setitem l i (byte_val b) = Ok (<[Z.to_nat i := b]> l).
Proof.
  intros Hi. unfold setitem. pose proof (byte_val_range b) as Hb.
  replace (i <? 0) with false by (symmetry; apply Z.ltb_ge; lia).
  replace (0 <=? i) with true by (symmetry; apply Z.leb_le; lia).
  replace (i <? len l) with true by (symmetry; apply Z.ltb_lt; lia).
  replace (0 <=? byte_val b) with true by (symmetry; apply Z.leb_le; lia).
  replace (byte_val b <? 256) with true by (symmetry; apply Z.ltb_lt; lia).
  simpl. unfold byte_val. rewrite N2Z.id, Byte.of_to_N. reflexivity.
Qed.

(** ** Bit operations on non-negative integers *)

Lemma lor_shiftl_add (r x s : Z) :
  0 ≤ s → 0 ≤ r < 2 ^ s → Z.lor r (Z.shiftl x s) = r + x * 2 ^ s.
Proof.
  intros Hs Hr. rewrite <- Z.shiftl_mul_pow2 by lia.
  symmetry. apply Z.add_nocarry_lor.
  apply Z.bits_inj'. intros n Hn.
  rewrite Z.land_spec, Z.bits_0.
  destruct (Z.lt_ge_cases n s) as [Hlt | Hge].
  - rewrite (Z.shiftl_spec_low x s n Hlt). apply andb_false_r.
  - assert (Z.testbit r n = false) as ->; [| reflexivity].
    destruct (Z.eq_dec r 0) as [-> | Hr0]; [apply Z.bits_0 |].
    apply Z.bits_above_log2; [lia |].
    assert (Z.log2 r < s) by (apply Z.log2_lt_pow2; lia). lia.
Qed.

Lemma land_127_range (x : Z) : 0 ≤ Z.land x 0x7F < 128.
Proof.
  change 0x7F with (Z.ones 7). rewrite Z.land_ones by lia.
  change (2 ^ 7) with 128. apply Z.mod_pos_bound. lia.
Qed.

(** ** The varint reader *)

Lemma varint_body_end (data : list byte) (pos result shift : Z) :
  len data ≤ pos →
  varint_body data (pos, result, shift) = Raise (CompressionError Truncated_varint).
Proof.
  intros H. unfold varint_body.
  replace (len data <=? pos) with true by (symmetry; apply Z.leb_le; lia).
  reflexivity.
Qed.

Lemma varint_body_byte (pre post : list byte) (b : byte) (result shift : Z) :
  varint_body (pre ++ b :: post) (len pre, result, shift) =
  let result' := Z.lor result (Z.shiftl (Z.land (byte_val b) 0x7F) shift) in
  if continuation b then
    if 32 <? shift + 7 then Raise (CompressionError Varint_too_large)
    else Ok (Continue (len pre + 1, result', shift + 7))
  else Ok (Break (result', len pre + 1)).
Proof.
  unfold varint_body, continuation.
  replace (len (pre ++ b :: post) <=? len pre) with false.
  2:{ symmetry. apply Z.leb_gt. rewrite len_app, len_cons.
      pose proof (len_nonneg post). lia. }
  rewrite getitem_middle. simpl.
  destruct (Z.land (byte_val b) 128 =? 0); reflexivity.
Qed.

(** What the loop does on the bytes [bs] that follow the cursor, after [j]
    continuation bytes have been read into [result]. *)
Lemma varint_loop_run (bs pre : list byte) :
  ∀ (fuel j : nat) (result : Z),
    (j ≤ 4)%nat → (5 ≤ fuel + j)%nat →
    let r := varint_loop fuel (pre ++ bs) (len pre, result, 7 * Z.of_nat j) in
    let k := continuation_run bs in
    ((5 ≤ j + k)%nat → r = Raise (CompressionError Varint_too_large)) ∧
    ((j + k ≤ 4)%nat → k = length bs →
       r = Raise (CompressionError Truncated_varint)) ∧
    ((j + k ≤ 4)%nat → (k < length bs)%nat → 0 ≤ result < 2 ^ (7 * Z.of_nat j) →
       r = Ok (result + 2 ^ (7 * Z.of_nat j) * base128 (take (S k) bs),
               len pre + Z.of_nat k + 1)).
Proof.
  revert pre. induction bs as [| b bs IH]; intros pre fuel j result Hj Hfuel.
  - destruct fuel as [| fuel]; [lia |]. cbn [varint_loop continuation_run].
    rewrite varint_body_end by (rewrite app_nil_r; lia).
    cbn [mbind outcome_bind length].
    split; [| split]; intros; [lia | reflexivity | lia].
  - destruct fuel as [| fuel]; [lia |].
    cbn [varint_loop continuation_run]. rewrite varint_body_byte. cbv zeta.
    destruct (continuation b).
    + destruct (Z.ltb_spec 32 (7 * Z.of_nat j + 7)) as [Hover | Hfit].
      * cbn [mbind outcome_bind].
        split; [| split]; intros; [reflexivity | lia | lia].
      * cbn [mbind outcome_bind].
        replace (pre ++ b :: bs) with ((pre ++ [b]) ++ bs)
          by (rewrite <- app_assoc; reflexivity).
        replace (len pre + 1) with (len (pre ++ [b]))
          by (rewrite len_app; reflexivity).
        replace (7 * Z.of_nat j + 7) with (7 * Z.of_nat (S j)) by lia.
        destruct (IH (pre ++ [b]) fuel (S j)
                    (Z.lor result (Z.shiftl (Z.land (byte_val b) 0x7F)
                                            (7 * Z.of_nat j))))
          as (Hbig & Hend & Hval); [lia | lia |].
        split; [| split].
        -- intros H. apply Hbig. lia.
        -- intros H1 H2. apply Hend; [lia | simpl in H2; lia].
        -- intros H1 H2 Hres.
           pose proof (land_127_range (byte_val b)) as Hlow.
           assert (2 ^ (7 * Z.of_nat (S j)) = 128 * 2 ^ (7 * Z.of_nat j))
             as Hpow.
           { replace (7 * Z.of_nat (S j)) with (7 + 7 * Z.of_nat j) by lia.
             rewrite Z.pow_add_r by lia. reflexivity. }
           rewrite Hval;
             [| lia | simpl in H2; lia
              | rewrite lor_shiftl_add by lia; rewrite Hpow; nia].
           rewrite lor_shiftl_add by lia. rewrite Hpow, len_app.
           apply f_equal, pair_equal_spec. split.
           ++ change (take (S (S (continuation_run bs))) (b :: bs))
                with (b :: take (S (continuation_run bs)) bs).
              cbn [base128]. generalize (2 ^ (7 * Z.of_nat j)). intros p. ring.
           ++ change (len [b]) with 1. lia.
    + cbn [mbind outcome_bind]. split; [| split].
      * intros H. lia.
      * intros _ H. discriminate H.
      * intros _ _ Hres. rewrite lor_shiftl_add by lia.
        cbn [firstn]. rewrite take_0. cbn [base128]. apply f_equal, pair_equal_spec.
        split; [generalize (2 ^ (7 * Z.of_nat j)); intros p; ring | lia].
Qed.

(** The three ways [_decode_varint] ends, by the bytes that follow the
    cursor. *)
Lemma decode_varint_cases (data : list byte) (pos : Z) :
  0 ≤ pos →
  let bs := drop (Z.to_nat pos) data in
  let k := continuation_run bs in
  ((5 ≤ k)%nat →
     _decode_varint data pos = Raise (CompressionError Varint_too_large)) ∧
  ((k ≤ 4)%nat → k = length bs →
     _decode_varint data pos = Raise (CompressionError Truncated_varint)) ∧
  ((k ≤ 4)%nat → (k < length bs)%nat →
     _decode_varint data pos =
       Ok (base128 (take (S k) bs), pos + Z.of_nat k + 1)).
Proof.
  intros Hpos bs k.
  destruct (Z.le_gt_cases pos (len data)) as [Hin | Hout].
  - pose proof (varint_loop_run bs (take (Z.to_nat pos) data) varint_fuel 0 0) as H.
    unfold bs in H at 1. rewrite take_drop in H.
    assert (len (take (Z.to_nat pos) data) = pos) as Hlen.
    { unfold len in *. rewrite length_take. lia. }
    rewrite Hlen in H. change (7 * Z.of_nat 0) with 0 in H.
    unfold _decode_varint. fold k in H.
    destruct H as (Hbig & Hend & Hval); [lia | unfold varint_fuel; lia |].
    split; [| split].
    + intros H. apply Hbig. lia.
    + intros H1 H2. apply Hend; [lia | exact H2].
    + intros H1 H2. rewrite Hval; [| lia | lia | simpl; lia].
      apply f_equal, pair_equal_spec. split; [simpl; lia | lia].
  - assert (bs = []) as Hbs.
    { unfold bs. apply drop_ge. unfold len in Hout. lia. }
    unfold k. rewrite Hbs. simpl. split; [lia | split].
    + intros _ _. unfold _decode_varint, varint_fuel. cbn [varint_loop].
      rewrite varint_body_end by lia. reflexivity.
    + intros _ H. lia.
Qed.

Lemma continuation_run_app (conts : list byte) (t : byte) (rest : list byte) :
  Forall (λ b, continuation b = true) conts → continuation t = false →
  continuation_run (conts ++ t :: rest) = length conts.
Proof.
  intros Hc Ht. induction Hc as [| b conts Hb _ IH]; simpl.
  - rewrite Ht. reflexivity.
  - rewrite Hb, IH. reflexivity.
Qed.

Lemma drop_len_app (pre bs : list byte) : drop (Z.to_nat (len pre)) (pre ++ bs) = bs.
Proof. unfold len. rewrite Nat2Z.id. apply drop_app_length. Qed.

(** C3: when the input holds, from the cursor on, [k] bytes with the high
    bit set and then a byte with the high bit clear, and the shift stays
    within its bound ([7 * k ≤ 32]), the reader returns the value in which
    each of the [k + 1] bytes contributes its low 7 bits, least significant
    byte first, and the cursor behind these [k + 1] bytes. *)
Theorem C3_varint_value (pre conts : list byte) (t : byte) (rest : list byte) :
  Forall (λ b, continuation b = true) conts →
  continuation t = false →
  7 * len conts ≤ 32 →
  _decode_varint (pre ++ conts ++ t :: rest) (len pre) =
    Ok (base128 (conts ++ [t]), len pre + (len conts + 1)).
Proof.
  intros Hc Ht Hshift.
  destruct (decode_varint_cases (pre ++ conts ++ t :: rest) (len pre)
              (len_nonneg pre)) as (_ & _ & Hval).
  rewrite drop_len_app, continuation_run_app in Hval by assumption.
  rewrite Hval.
  - replace (take (S (length conts)) (conts ++ t :: rest))
      with (conts ++ [t]).
    + apply f_equal, pair_equal_spec. split; [reflexivity | unfold len; lia].
    + change (t :: rest) with ([t] ++ rest). rewrite app_assoc.
      rewrite take_app_length'; [reflexivity |].
      rewrite length_app. simpl. lia.
  - unfold len in Hshift. lia.
  - rewrite length_app. simpl. lia.
Qed.

Lemma C3_varint_value_witness :
  _decode_varint [x0d; xac; x02; x30] 1 = Ok (300, 3).
Proof.
  apply (C3_varint_value [x0d] [xac] x02 [x30]).
  - repeat constructor.
  - reflexivity.
  - vm_compute. discriminate.
Defined.

Lemma fails_with_Raise {A : Type} (m : message) (k : error_kind) :
  fails_with (@Raise A (CompressionError m)) k ↔ kind_of m = k.
Proof.
  unfold fails_with. split.
  - intros (m' & Heq & Hk). congruence.
  - intros Hk. exists m. split; [reflexivity | exact Hk].
Qed.

Lemma fails_with_Ok {A : Type} (a : A) (k : error_kind) : ¬ fails_with (Ok a) k.
Proof. intros (m & Heq & _). discriminate Heq. Qed.

(** C4, counterexample: a varint of five continuation bytes and a
    terminating byte raises "Varint too large". *)
Lemma C4_overflow_counterexample :
  ¬ overflow_iff_more_than_5 [x80; x80; x80; x80; x80; x00] 0.
Proof.
  unfold overflow_iff_more_than_5. intros [Hfail _].
  assert (5 < 5)%nat as Habs; [| lia].
  apply Hfail. apply fails_with_Raise. reflexivity.
Qed.

(** C4, amended: the reader fails with Overflow exactly when at least 5
    bytes with the high bit set follow the cursor: the fifth brings the
    shift to 35, which exceeds 32.  A varint that terminates after at most
    4 continuation bytes does not raise Overflow. *)
Theorem C4_overflow_iff (data : list byte) (pos : Z) :
  0 ≤ pos →
  fails_with (_decode_varint data pos) Overflow ↔
  (5 ≤ continuation_run (drop (Z.to_nat pos) data))%nat.
Proof.
  intros Hpos.
  destruct (decode_varint_cases data pos Hpos) as (Hbig & Hend & Hval).
  set (bs := drop (Z.to_nat pos) data) in *.
  destruct (Nat.le_gt_cases 5 (continuation_run bs)) as [H5 | H4].
  - rewrite Hbig by exact H5. rewrite fails_with_Raise. tauto.
  - assert (continuation_run bs ≤ 4)%nat as Hle by lia.
    assert (continuation_run bs ≤ length bs)%nat as Hrun.
    { clear. induction bs as [| b bs IH]; simpl; [lia |].
      destruct (continuation b); lia. }
    destruct (Nat.eq_dec (continuation_run bs) (length bs)) as [Heq | Hne].
    + rewrite Hend by assumption. rewrite fails_with_Raise. simpl.
      split; [discriminate | lia].
    + rewrite Hval by lia. split; [intros H; destruct (fails_with_Ok _ _ H) | lia].
Qed.

Lemma C4_overflow_iff_witness :
  fails_with (_decode_varint [x80; x80; x80; x80; x80; x00] 0) Overflow ↔
  (5 ≤ continuation_run (drop (Z.to_nat 0) [x80; x80; x80; x80; x80; x00]))%nat.
Proof. apply (C4_overflow_iff [x80; x80; x80; x80; x80; x00] 0). lia. Defined.

Lemma varint_body_Continue (data : list byte) (pos result shift : Z)
    (s' : varint_state) :
  varint_body data (pos, result, shift) = Ok (Continue s') →
  ∃ pos' result', s' = (pos', result', shift + 7) ∧ shift + 7 ≤ 32.
Proof.
  unfold varint_body. destruct (len data <=? pos); [discriminate |].
  destruct (getitem data pos) as [d | e |]; cbn [mbind outcome_bind];
    [| discriminate | discriminate].
  destruct (Z.land d 128 =? 0); [discriminate |].
  destruct (Z.ltb_spec 32 (shift + 7)); [discriminate |].
  intros [= <-]. eauto.
Qed.

Lemma varint_head_shift (n : nat) (data : list byte) :
  ∀ pos result shift pos' result' shift',
    varint_head n data (pos, result, shift) = Some (pos', result', shift') →
    shift' = shift + 7 * Z.of_nat n ∧ ((0 < n)%nat → shift' ≤ 32).
Proof.
  induction n as [| n IH]; intros pos result shift pos' result' shift'.
  - simpl. intros [= -> -> ->]. split; [lia | lia].
  - cbn [varint_head].
    destruct (varint_body data (pos, result, shift)) as [[s1 | r] | e |] eqn:Hbody;
      try discriminate.
    destruct (varint_body_Continue _ _ _ _ _ Hbody) as (p1 & r1 & -> & Hle).
    intros H. destruct (IH _ _ _ _ _ _ H) as [-> Hn].
    split; [lia |]. intros _. destruct n as [| n]; [simpl; lia |].
    specialize (Hn ltac:(lia)). lia.
Qed.

Lemma varint_loop_head (n m : nat) (data : list byte) :
  ∀ s s', varint_head n data s = Some s' →
          varint_loop (n + m) data s = varint_loop m data s'.
Proof.
  induction n as [| n IH]; intros s s'.
  - simpl. intros [= ->]. reflexivity.
  - cbn [varint_head Nat.add varint_loop].
    destruct (varint_body data s) as [[s1 | r] | e |]; try discriminate.
    cbn [mbind outcome_bind]. apply IH.
Qed.

Lemma continuation_run_all (bs : list byte) :
  continuation_run bs = length bs ↔ Forall (λ b, continuation b = true) bs.
Proof.
  split.
  - induction bs as [| b bs IH]; simpl; [constructor |].
    destruct (continuation b) eqn:Hb; [| discriminate].
    intros [= H]. constructor; [exact Hb | apply IH, H].
  - intros Hall. induction Hall as [| b bs Hb _ IH]; simpl; [reflexivity |].
    rewrite Hb, IH. reflexivity.
Qed.

Lemma continuation_run_le (bs : list byte) : (continuation_run bs ≤ length bs)%nat.
Proof.
  induction bs as [| b bs IH]; simpl; [lia |]. destruct (continuation b); lia.
Qed.

(** C5, counterexample: on five bytes 0x80 the reader reads all of them,
    the cursor is at the end of the input, no byte with the high bit clear
    was seen, and the error is "Varint too large". *)
Lemma C5_truncated_counterexample :
  ¬ truncated_when_input_ends [x80; x80; x80; x80; x80] 0.
Proof.
  unfold truncated_when_input_ends. intros H.
  assert (fails_with (_decode_varint [x80; x80; x80; x80; x80] 0) Truncated) as Hfail.
  { apply H. repeat constructor. }
  apply fails_with_Raise in Hfail. discriminate Hfail.
Qed.

(** C5, amended: the reader fails with Truncated whenever it comes to the
    head of its loop with the cursor at the end of the input, that is,
    exactly when no byte with the high bit clear follows the cursor and
    fewer than 5 bytes follow it; [decompress] on the single byte 0x80
    fails with Truncated. *)
Theorem C5_truncated_varint :
  (∀ (data : list byte) (pos : Z) (n : nat) (pos' result shift : Z),
     varint_head n data (pos, 0, 0) = Some (pos', result, shift) →
     len data ≤ pos' →
     fails_with (_decode_varint data pos) Truncated) ∧
  (∀ (data : list byte) (pos : Z),
     0 ≤ pos →
     fails_with (_decode_varint data pos) Truncated ↔
     Forall (λ b, continuation b = true) (drop (Z.to_nat pos) data) ∧
     len data - pos < 5) ∧
  fails_with (decompress [x80]) Truncated.
Proof.
  split; [| split].
  - intros data pos n pos' result shift Hhead Hend.
    destruct (varint_head_shift _ _ _ _ _ _ _ _ Hhead) as [-> Hn].
    assert (n ≤ 4)%nat as Hn4.
    { destruct n as [| n]; [lia |]. specialize (Hn ltac:(lia)). lia. }
    unfold _decode_varint, varint_fuel.
    replace 5%nat with (n + S (4 - n))%nat by lia.
    rewrite (varint_loop_head _ _ _ _ _ Hhead). cbn [varint_loop].
    rewrite varint_body_end by exact Hend.
    apply fails_with_Raise. reflexivity.
  - intros data pos Hpos.
    destruct (decode_varint_cases data pos Hpos) as (Hbig & Hend & Hval).
    set (bs := drop (Z.to_nat pos) data) in *.
    pose proof (continuation_run_le bs) as Hrun.
    assert (length bs = length data - Z.to_nat pos)%nat as Hlen
      by (unfold bs; apply length_drop).
    rewrite <- continuation_run_all.
    destruct (Nat.le_gt_cases 5 (continuation_run bs)) as [H5 | H4].
    { rewrite Hbig by exact H5. rewrite fails_with_Raise. cbn [kind_of].
      split; [discriminate | unfold len; lia]. }
    destruct (Nat.eq_dec (continuation_run bs) (length bs)) as [Heq | Hne].
    + rewrite Hend by lia. rewrite fails_with_Raise. cbn [kind_of].
      split; [intros _; unfold len; lia | reflexivity].
    + rewrite Hval by lia. split; [intros H; destruct (fails_with_Ok _ _ H) | tauto].
  - apply fails_with_Raise. reflexivity.
Qed.

Lemma C5_truncated_varint_witness :
  fails_with (_decode_varint [x80; xff] 0) Truncated.
Proof.
  apply (proj1 C5_truncated_varint [x80; xff] 0 2%nat 2 16256 14).
  - reflexivity.
  - vm_compute. discriminate.
Defined.

(** ** [for] loops *)

(** The rule of the loop invariant for [for i in range(...)]. *)
Lemma for_range_from_rule {St : Type} (P : Z → St → Prop)
    (body : Z → St → outcome St) (n : nat) :
  ∀ (i : Z) (s : St),
    P i s →
    (∀ j t, i ≤ j < i + Z.of_nat n → P j t → ∃ t', body j t = Ok t' ∧ P (j + 1) t') →
    ∃ t, for_range_from i n body s = Ok t ∧ P (i + Z.of_nat n) t.
Proof.
  induction n as [| n IH]; intros i s Hs Hbody.
  - exists s. split; [reflexivity |]. replace (i + Z.of_nat 0) with i by lia. exact Hs.
  - destruct (Hbody i s ltac:(lia) Hs) as (s1 & Hrun & Hs1).
    destruct (IH (i + 1) s1 Hs1) as (t & Hrest & Ht).
    { intros j u Hj. apply Hbody. lia. }
    exists t. split.
    + cbn [for_range_from]. rewrite Hrun. exact Hrest.
    + replace (i + Z.of_nat (S n)) with (i + 1 + Z.of_nat n) by lia. exact Ht.
Qed.

Lemma for_range_rule {St : Type} (P : Z → St → Prop)
    (body : Z → St → outcome St) (n : Z) (s : St) :
  0 ≤ n → P 0 s →
  (∀ j t, 0 ≤ j < n → P j t → ∃ t', body j t = Ok t' ∧ P (j + 1) t') →
  ∃ t, for_range n body s = Ok t ∧ P n t.
Proof.
  intros Hn Hs Hbody.
  destruct (for_range_from_rule P body (Z.to_nat n) 0 s Hs) as (t & Hrun & Ht).
  { intros j u Hj. apply Hbody. lia. }
  exists t. split; [exact Hrun |].
  replace (0 + Z.of_nat (Z.to_nat n)) with n in Ht by lia. exact Ht.
Qed.

(** ** Slices *)

Lemma slice_take_drop (l : list byte) (a b : Z) :
  0 ≤ a → a ≤ b → b ≤ len l →
  slice l a b = take (Z.to_nat (b - a)) (drop (Z.to_nat a) l).
Proof.
  intros Ha Hab Hb. unfold slice, slice_bound.
  replace (a <? 0) with false by (symmetry; apply Z.ltb_ge; lia).
  replace (b <? 0) with false by (symmetry; apply Z.ltb_ge; lia).
  rewrite !Z.min_l by lia. reflexivity.
Qed.

Lemma length_slice (l : list byte) (a b : Z) :
  0 ≤ a → a ≤ b → b ≤ len l → len (slice l a b) = b - a.
Proof.
  intros Ha Hab Hb. rewrite slice_take_drop by assumption.
  unfold len in *. rewrite length_take, length_drop. lia.
Qed.

Lemma set_slice_take_drop (l xs : list byte) (a b : Z) :
  0 ≤ a → a ≤ b → b ≤ len l →
  set_slice l a b xs = take (Z.to_nat a) l ++ xs ++ drop (Z.to_nat b) l.
Proof.
  intros Ha Hab Hb. unfold set_slice, slice_bound.
  replace (a <? 0) with false by (symmetry; apply Z.ltb_ge; lia).
  replace (b <? 0) with false by (symmetry; apply Z.ltb_ge; lia).
  rewrite !Z.min_l by lia. rewrite Z.max_r by lia. reflexivity.
Qed.

Lemma length_set_slice (l xs : list byte) (a b : Z) :
  0 ≤ a → a ≤ b → b ≤ len l → len xs = b - a →
  len (set_slice l a b xs) = len l.
Proof.
  intros Ha Hab Hb Hxs. rewrite set_slice_take_drop by assumption.
  unfold len in *. rewrite !length_app, length_take, length_drop. lia.
Qed.

(** ** The length of a literal *)

Lemma little_endian_snoc (bs : list byte) (b : byte) :
  little_endian (bs ++ [b]) = little_endian bs + byte_val b * 256 ^ len bs.
Proof.
  induction bs as [| c bs IH]; cbn [app little_endian].
  - change (len []) with 0. lia.
  - rewrite IH, len_cons, Z.pow_add_r by (pose proof (len_nonneg bs); lia). lia.
Qed.

Lemma shiftr_2_byte (tag : Z) : 0 ≤ tag < 256 → 0 ≤ Z.shiftr tag 2 < 64.
Proof.
  intros H. rewrite Z.shiftr_div_pow2 by lia. change (2 ^ 2) with 4.
  split; [apply Z.div_pos; lia | apply Z.div_lt_upper_bound; lia].
Qed.

Lemma literal_length_direct (data : list byte) (pos tag : Z) :
  Z.shiftr tag 2 + 1 ≤ 60 →
  literal_length data pos tag = Ok (Z.shiftr tag 2 + 1, pos).
Proof.
  intros H. unfold literal_length.
  replace (Z.shiftr tag 2 + 1 <=? 60) with true by (symmetry; apply Z.leb_le; lia).
  reflexivity.
Qed.

Lemma literal_length_extended (data : list byte) (pos tag : Z) :
  60 < Z.shiftr tag 2 + 1 →
  0 ≤ pos → pos + (Z.shiftr tag 2 + 1 - 60) ≤ len data →
  literal_length data pos tag =
    Ok (1 + little_endian (slice data pos (pos + (Z.shiftr tag 2 + 1 - 60))),
        pos + (Z.shiftr tag 2 + 1 - 60)).
Proof.
  intros Hext Hpos Hin. unfold literal_length.
  set (n := Z.shiftr tag 2 + 1 - 60) in *.
  replace (Z.shiftr tag 2 + 1 <=? 60) with false by (symmetry; apply Z.leb_gt; lia).
  replace (len data <? pos + n) with false by (symmetry; apply Z.ltb_ge; lia).
  destruct (for_range_rule
              (λ i length, length = 1 + little_endian (slice data pos (pos + i)))
              (λ i length, d ← getitem data (pos + i); Ok (length + Z.shiftl d (i * 8)))
              n 1) as (t & Hrun & Ht).
  - lia.
  - rewrite slice_take_drop by lia.
    replace (pos + 0 - pos) with 0 by lia. reflexivity.
  - intros j t Hj ->.
    destruct (getitem_in_range data (pos + j) ltac:(lia)) as (b & Hb & Hget).
    rewrite Hget. cbn [mbind outcome_bind]. eexists. split; [reflexivity |].
    rewrite !slice_take_drop by lia.
    replace (Z.to_nat (pos + (j + 1) - pos)) with (S (Z.to_nat j)) by lia.
    replace (Z.to_nat (pos + j - pos)) with (Z.to_nat j) by lia.
    erewrite take_S_r.
    2:{ rewrite lookup_drop. replace (Z.to_nat pos + Z.to_nat j)%nat
          with (Z.to_nat (pos + j)) by lia. exact Hb. }
    rewrite little_endian_snoc. rewrite Z.shiftl_mul_pow2 by lia.
    assert (len (take (Z.to_nat j) (drop (Z.to_nat pos) data)) = j) as ->.
    { unfold len in *. rewrite length_take, length_drop. lia. }
    replace (j * 8) with (8 * j) by lia. rewrite Z.pow_mul_r by lia.
    change (2 ^ 8) with 256. lia.
  - rewrite Hrun. cbn [mbind outcome_bind]. rewrite Ht. reflexivity.
Qed.

(** C6: for a tag byte, when [(tag >> 2) + 1] is at most 60 it is the
    length of the literal and the cursor stays behind the tag; when it is
    [60 + N], [N] is one of 1, 2, 3, 4, and if the [N] bytes behind the tag
    are in the input the length is 1 plus their little-endian value and the
    cursor is moved behind them.  The tag of a literal of 60 bytes (0xEC)
    reads no length byte; the tag 0xF0 followed by the byte 60 gives a
    literal of 61 bytes and reads that byte only. *)
Theorem C6_literal_length (data : list byte) (pos : Z) (tag : byte) :
  let length := Z.shiftr (byte_val tag) 2 + 1 in
  (length ≤ 60 → literal_length data pos (byte_val tag) = Ok (length, pos)) ∧
  (60 < length →
     let N := length - 60 in
     1 ≤ N ≤ 4 ∧
     (0 ≤ pos → pos + N ≤ len data →
      literal_length data pos (byte_val tag) =
        Ok (1 + little_endian (slice data pos (pos + N)), pos + N))) ∧
  literal_length data pos (byte_val xec) = Ok (60, pos) ∧
  (∀ pre rest : list byte,
     literal_length (pre ++ x3c :: rest) (len pre) (byte_val xf0) =
       Ok (61, len pre + 1)).
Proof.
  pose proof (shiftr_2_byte _ (byte_val_range tag)) as Htag.
  cbv zeta. split; [| split; [| split]].
  - apply literal_length_direct.
  - intros Hext. split; [lia |]. intros Hpos Hin.
    apply literal_length_extended; assumption.
  - apply literal_length_direct. vm_compute. discriminate.
  - intros pre rest.
    rewrite literal_length_extended.
    + change (Z.shiftr (byte_val xf0) 2 + 1 - 60) with 1.
      rewrite slice_take_drop.
      * rewrite drop_len_app. replace (Z.to_nat (len pre + 1 - len pre)) with 1%nat by lia.
        reflexivity.
      * apply len_nonneg.
      * lia.
      * rewrite len_app, len_cons. pose proof (len_nonneg rest). lia.
    + vm_compute. reflexivity.
    + apply len_nonneg.
    + change (Z.shiftr (byte_val xf0) 2 + 1 - 60) with 1.
      rewrite len_app, len_cons. pose proof (len_nonneg rest). lia.
Qed.

Lemma C6_literal_length_witness :
  literal_length [x46; xf4; x2b; x01] 2 (byte_val xf4) = Ok (300, 4).
Proof.
  refine (proj2 (proj1 (proj2 (C6_literal_length [x46; xf4; x2b; x01] 2 xf4)) _) _ _).
  - vm_compute. reflexivity.
  - lia.
  - vm_compute. discriminate.
Defined.

(** ** The copy loop *)

Lemma copy_bytes_copied (output : list byte) (out_pos offset length : Z) :
  1 ≤ offset ≤ out_pos → 0 ≤ length → out_pos + length ≤ len output →
  ∃ output', copy_bytes output out_pos offset length = Ok output' ∧
             copied output out_pos offset length output'.
Proof.
  intros Hoff Hlen Hfit. unfold copy_bytes.
  apply (for_range_rule (λ i t, copied output out_pos offset i t)).
  - exact Hlen.
  - unfold copied. repeat split; intros; try reflexivity; lia.
  - intros j t Hj (Ht_len & Ht_low & Ht_high & Ht_copy).
    destruct (getitem_in_range t (out_pos - offset + j) ltac:(lia)) as (b & Hb & Hget).
    rewrite Hget. cbn [mbind outcome_bind].
    rewrite setitem_in_range by lia.
    eexists. split; [reflexivity |].
    unfold copied, item in *. repeat split.
    + unfold len in *. rewrite length_insert. exact Ht_len.
    + intros i Hi. rewrite list_lookup_insert_ne by lia. apply Ht_low. exact Hi.
    + intros i Hi. rewrite list_lookup_insert_ne by lia. apply Ht_high. lia.
    + intros i Hi. destruct (Z.eq_dec i j) as [-> | Hne].
      * rewrite list_lookup_insert_eq by (unfold len in *; lia).
        rewrite list_lookup_insert_ne by lia. symmetry. exact Hb.
      * rewrite !list_lookup_insert_ne by lia. apply Ht_copy. lia.
Qed.

(** The bytes a copy appends repeat the [offset] bytes before it. *)
Lemma copied_periodic (output output' : list byte) (out_pos offset m : Z) :
  1 ≤ offset ≤ out_pos →
  copied output out_pos offset m output' →
  ∀ i, 0 ≤ i < m →
       item output' (out_pos + i) = item output (out_pos - offset + i mod offset).
Proof.
  intros Hoff (_ & Hlow & _ & Hcopy) i Hi.
  assert (∀ (n : nat) (i : Z), (Z.to_nat i < n)%nat → 0 ≤ i < m →
            item output' (out_pos + i) = item output (out_pos - offset + i mod offset))
    as Hall.
  { clear i Hi. induction n as [| n IH]; intros i Hn Hi; [lia |].
    rewrite Hcopy by exact Hi.
    destruct (Z.lt_ge_cases i offset) as [Hfirst | Hlater].
    - rewrite Z.mod_small by lia. apply Hlow. lia.
    - replace (out_pos - offset + i) with (out_pos + (i - offset)) by lia.
      rewrite IH by lia. f_equal. f_equal.
      replace i with (i - offset + 1 * offset) at 2 by lia.
      rewrite Z.mod_add by lia. reflexivity. }
  apply (Hall (S (Z.to_nat i))); [lia | exact Hi].
Qed.

Lemma getitem_range (l : list byte) (i d : Z) : getitem l i = Ok d → 0 ≤ d < 256.
Proof.
  unfold getitem. destruct (_ && _); [| discriminate].
  destruct (l !! _) as [b |]; [| discriminate].
  intros [= <-]. apply byte_val_range.
Qed.

Lemma copy_header_range (data : list byte) (element_type tag pos : Z)
    (length offset pos' : Z) :
  0 ≤ tag < 256 →
  copy_header data element_type tag pos = Ok (length, offset, pos') →
  1 ≤ length ≤ 64 ∧ 0 ≤ offset ∧ pos < pos' ≤ len data.
Proof.
  intros Htag. pose proof (shiftr_2_byte tag Htag) as Hsh. unfold copy_header.
  destruct (element_type =? 1); [| destruct (element_type =? 2)].
  - destruct (Z.leb_spec (len data) pos); [discriminate |].
    destruct (getitem data pos) as [d0 | |] eqn:H0; [| discriminate | discriminate].
    cbn [mbind outcome_bind]. intros [= <- <- <-].
    pose proof (getitem_range _ _ _ H0).
    split; [| split; [| lia]].
    + change 0x07 with (Z.ones 3). rewrite Z.land_ones by lia.
      pose proof (Z.mod_pos_bound (Z.shiftr tag 2) (2 ^ 3) ltac:(lia)).
      change (2 ^ 3) with 8 in *. lia.
    + apply Z.lor_nonneg. split; [| lia].
      apply Z.shiftl_nonneg, Z.shiftr_nonneg. lia.
  - destruct (Z.ltb_spec (len data) (pos + 2)); [discriminate |].
    destruct (getitem data pos) as [d0 | |] eqn:H0; [| discriminate | discriminate].
    destruct (getitem data (pos + 1)) as [d1 | |] eqn:H1; [| discriminate | discriminate].
    cbn [mbind outcome_bind]. intros [= <- <- <-].
    pose proof (getitem_range _ _ _ H0). pose proof (getitem_range _ _ _ H1).
    split; [lia | split; [| lia]].
    rewrite Z.lor_nonneg, Z.shiftl_nonneg. lia.
  - destruct (Z.ltb_spec (len data) (pos + 4)); [discriminate |].
    destruct (getitem data pos) as [d0 | |] eqn:H0; [| discriminate | discriminate].
    destruct (getitem data (pos + 1)) as [d1 | |] eqn:H1; [| discriminate | discriminate].
    destruct (getitem data (pos + 2)) as [d2 | |] eqn:H2; [| discriminate | discriminate].
    destruct (getitem data (pos + 3)) as [d3 | |] eqn:H3; [| discriminate | discriminate].
    cbn [mbind outcome_bind]. intros [= <- <- <-].
    pose proof (getitem_range _ _ _ H0). pose proof (getitem_range _ _ _ H1).
    pose proof (getitem_range _ _ _ H2). pose proof (getitem_range _ _ _ H3).
    split; [lia | split; [| lia]].
    rewrite !Z.lor_nonneg, !Z.shiftl_nonneg. lia.
Qed.

(** A copy element whose three checks pass. *)
Lemma decode_copy_checked (data : list byte) (uncompressed_len : Z)
    (element_type tag pos : Z) (output : list byte) (out_pos : Z)
    (length offset pos' : Z) :
  0 ≤ tag < 256 →
  copy_header data element_type tag pos = Ok (length, offset, pos') →
  len output = uncompressed_len →
  offset ≠ 0 → offset ≤ out_pos → out_pos + length ≤ uncompressed_len →
  ∃ output',
    decode_copy data uncompressed_len element_type tag pos output out_pos =
      Ok (State pos' output' (out_pos + length)) ∧
    copy_bytes output out_pos offset length = Ok output' ∧
    copied output out_pos offset length output'.
Proof.
  intros Htag Hhead Hout Hnz Hoff Hfit.
  destruct (copy_header_range _ _ _ _ _ _ _ Htag Hhead) as (Hlen & Hoff0 & Hpos).
  destruct (copy_bytes_copied output out_pos offset length) as (output' & Hrun & Hcopied);
    [lia | lia | lia |].
  exists output'. split; [| split; assumption].
  unfold decode_copy. rewrite Hhead. cbn [mbind outcome_bind].
  replace (offset =? 0) with false by (symmetry; apply Z.eqb_neq; lia).
  replace (out_pos <? offset) with false by (symmetry; apply Z.ltb_ge; lia).
  replace (uncompressed_len <? out_pos + length) with false
    by (symmetry; apply Z.ltb_ge; lia).
  rewrite Hrun. reflexivity.
Qed.

Lemma for_range_from_snoc {St : Type} (body : Z → St → outcome St) (n : nat) :
  ∀ (i : Z) (s : St),
    for_range_from i (S n) body s =
    (t ← for_range_from i n body s; body (i + Z.of_nat n) t).
Proof.
  induction n as [| n IH]; intros i s.
  - cbn [for_range_from mbind outcome_bind]. replace (i + Z.of_nat 0) with i by lia.
    destruct (body i s); reflexivity.
  - change (for_range_from i (S (S n)) body s)
      with (s' ← body i s; for_range_from (i + 1) (S n) body s').
    change (for_range_from i (S n) body s)
      with (s' ← body i s; for_range_from (i + 1) n body s').
    destruct (body i s) as [s' | e |]; cbn [mbind outcome_bind];
      [| reflexivity | reflexivity].
    rewrite IH. replace (i + 1 + Z.of_nat n) with (i + Z.of_nat (S n)) by lia.
    reflexivity.
Qed.

(** The copy loop writes index [m] into the buffer that the writes of the
    indices below [m] have produced. *)
Lemma copy_bytes_next (output : list byte) (out_pos offset m : Z) :
  0 ≤ m →
  copy_bytes output out_pos offset (m + 1) =
  (t ← copy_bytes output out_pos offset m;
   v ← getitem t (out_pos - offset + m);
   setitem t (out_pos + m) v).
Proof.
  intros Hm. unfold copy_bytes, for_range.
  replace (Z.to_nat (m + 1)) with (S (Z.to_nat m)) by lia.
  rewrite for_range_from_snoc.
  replace (0 + Z.of_nat (Z.to_nat m)) with m by lia. reflexivity.
Qed.

(** ** One pass of the decode loop *)

Lemma decode_element_tag (data : list byte) (uncompressed_len : Z)
    (pos : Z) (output : list byte) (out_pos tag : Z) :
  getitem data pos = Ok tag →
  decode_element data uncompressed_len (State pos output out_pos) =
    if Z.land tag 0x03 =? 0
    then decode_literal data uncompressed_len tag (pos + 1) output out_pos
    else decode_copy data uncompressed_len (Z.land tag 0x03) tag (pos + 1)
                     output out_pos.
Proof. intros H. unfold decode_element. rewrite H. reflexivity. Qed.

(** C2: a copy element whose offset and overflow checks pass runs the loop
    [for i in range(length): output[out_pos + i] = output[out_pos - offset + i]],
    which writes index [m] after the indices below [m]; in the buffer it
    leaves, the bytes before [out_pos] are unchanged and each byte of the
    copy equals the byte [offset] places before it, so that the copy repeats
    the [offset] bytes that precede [out_pos]; with [offset = 1] every byte
    of the copy is the byte that preceded [out_pos]. *)
Theorem C2_overlapping_copy (data : list byte) (uncompressed_len pos : Z)
    (output : list byte) (out_pos tag length offset pos' : Z) :
  getitem data pos = Ok tag →
  Z.land tag 0x03 ≠ 0 →
  copy_header data (Z.land tag 0x03) tag (pos + 1) = Ok (length, offset, pos') →
  len output = uncompressed_len →
  offset ≠ 0 → offset ≤ out_pos → out_pos + length ≤ uncompressed_len →
  ∃ output',
    decode_element data uncompressed_len (State pos output out_pos) =
      Ok (State pos' output' (out_pos + length)) ∧
    copy_bytes output out_pos offset length = Ok output' ∧
    (∀ m, 0 ≤ m →
          copy_bytes output out_pos offset (m + 1) =
          (t ← copy_bytes output out_pos offset m;
           v ← getitem t (out_pos - offset + m);
           setitem t (out_pos + m) v)) ∧
    len output' = len output ∧
    (∀ j, 0 ≤ j < out_pos → item output' j = item output j) ∧
    (∀ i, 0 ≤ i < length →
          item output' (out_pos + i) = item output' (out_pos - offset + i)) ∧
    (∀ i, 0 ≤ i < length →
          item output' (out_pos + i) = item output (out_pos - offset + i mod offset)) ∧
    (offset = 1 →
     ∀ i, 0 ≤ i < length → item output' (out_pos + i) = item output (out_pos - 1)).
Proof.
  intros Htag Hkind Hhead Hout Hnz Hoff Hfit.
  pose proof (getitem_range _ _ _ Htag) as Hrange.
  destruct (copy_header_range _ _ _ _ _ _ _ Hrange Hhead) as (_ & Hoff0 & _).
  destruct (decode_copy_checked data uncompressed_len _ tag (pos + 1) output out_pos
              length offset pos' Hrange Hhead Hout Hnz Hoff Hfit)
    as (output' & Hrun & Hloop & Hcopied).
  exists output'.
  assert (1 ≤ offset ≤ out_pos) as Hoff1 by lia.
  pose proof (copied_periodic _ _ _ _ _ Hoff1 Hcopied) as Hperiod.
  destruct Hcopied as (Hlen & Hlow & _ & Hcopy).
  repeat split; try assumption.
  - rewrite (decode_element_tag _ _ _ _ _ _ Htag).
    replace (Z.land tag 3 =? 0) with false by (symmetry; apply Z.eqb_neq; exact Hkind).
    exact Hrun.
  - intros m Hm. apply copy_bytes_next. exact Hm.
  - intros -> i Hi. rewrite Hperiod by exact Hi. rewrite Z.mod_1_r. f_equal. lia.
Qed.

Lemma C2_overlapping_copy_witness :
  ∃ output',
    decode_element [x06; x00; x58; x05; x01] 6
      (State 3 [x58; x00; x00; x00; x00; x00] 1) = Ok (State 5 output' (1 + 5)) ∧
    copy_bytes [x58; x00; x00; x00; x00; x00] 1 1 5 = Ok output' ∧
    (∀ m, 0 ≤ m →
          copy_bytes [x58; x00; x00; x00; x00; x00] 1 1 (m + 1) =
          (t ← copy_bytes [x58; x00; x00; x00; x00; x00] 1 1 m;
           v ← getitem t (1 - 1 + m);
           setitem t (1 + m) v)) ∧
    len output' = len [x58; x00; x00; x00; x00; x00] ∧
    (∀ j, 0 ≤ j < 1 → item output' j = item [x58; x00; x00; x00; x00; x00] j) ∧
    (∀ i, 0 ≤ i < 5 → item output' (1 + i) = item output' (1 - 1 + i)) ∧
    (∀ i, 0 ≤ i < 5 →
          item output' (1 + i) = item [x58; x00; x00; x00; x00; x00] (1 - 1 + i mod 1)) ∧
    (1 = 1 →
     ∀ i, 0 ≤ i < 5 → item output' (1 + i) = item [x58; x00; x00; x00; x00; x00] (1 - 1)).
Proof.
  apply (C2_overlapping_copy [x06; x00; x58; x05; x01] 6 3
           [x58; x00; x00; x00; x00; x00] 1 5 5 1 5).
  - reflexivity.
  - vm_compute. discriminate.
  - reflexivity.
  - reflexivity.
  - lia.
  - lia.
  - lia.
Defined.

Lemma little_endian_nonneg (bs : list byte) : 0 ≤ little_endian bs.
Proof.
  induction bs as [| b bs IH]; cbn [little_endian]; [lia |].
  pose proof (byte_val_range b). lia.
Qed.

Lemma base128_nonneg (bs : list byte) : 0 ≤ base128 bs.
Proof.
  induction bs as [| b bs IH]; cbn [base128]; [lia |].
  pose proof (land_127_range (byte_val b)). lia.
Qed.

Lemma literal_length_range (data : list byte) (pos tag length pos' : Z) :
  0 ≤ tag < 256 → 0 ≤ pos ≤ len data →
  literal_length data pos tag = Ok (length, pos') →
  1 ≤ length ∧ pos ≤ pos' ≤ len data.
Proof.
  intros Htag Hpos. pose proof (shiftr_2_byte tag Htag) as Hsh.
  destruct (Z.le_gt_cases (Z.shiftr tag 2 + 1) 60) as [Hdirect | Hext].
  - rewrite literal_length_direct by exact Hdirect. intros [= <- <-]. lia.
  - destruct (Z.le_gt_cases (pos + (Z.shiftr tag 2 + 1 - 60)) (len data)) as [Hin | Hcut].
    + rewrite literal_length_extended by lia. intros [= <- <-].
      pose proof (little_endian_nonneg
                    (slice data pos (pos + (Z.shiftr tag 2 + 1 - 60)))). lia.
    + unfold literal_length.
      replace (Z.shiftr tag 2 + 1 <=? 60) with false by (symmetry; apply Z.leb_gt; lia).
      replace (len data <? pos + (Z.shiftr tag 2 + 1 - 60)) with true
        by (symmetry; apply Z.ltb_lt; lia).
      discriminate.
Qed.

(** A pass that ends keeps the invariant and moves both cursors forward. *)
Lemma decode_element_step (data : list byte) (uncompressed_len : Z)
    (s s' : decoder_state) :
  invariant data uncompressed_len s →
  loop_condition data uncompressed_len s = true →
  decode_element data uncompressed_len s = Ok s' →
  invariant data uncompressed_len s' ∧
  st_pos s < st_pos s' ∧ st_out_pos s < st_out_pos s'.
Proof.
  destruct s as [pos output out_pos]. unfold invariant, loop_condition.
  cbn [st_pos st_output st_out_pos]. intros (Hpos & Hout & Hlen) Hcond.
  apply andb_true_iff in Hcond as [Hp Ho].
  apply Z.ltb_lt in Hp. apply Z.ltb_lt in Ho.
  destruct (getitem_in_range data pos ltac:(lia)) as (b & _ & Htag).
  rewrite (decode_element_tag _ _ _ _ _ _ Htag).
  pose proof (byte_val_range b) as Hb.
  destruct (Z.land (byte_val b) 3 =? 0).
  - unfold decode_literal.
    destruct (literal_length data (pos + 1) (byte_val b)) as [[length pos1] | e |] eqn:Hll;
      [| discriminate | discriminate].
    cbn [mbind outcome_bind].
    assert (0 ≤ pos + 1 ≤ len data) as Hnext by lia.
    destruct (literal_length_range _ _ _ _ _ Hb Hnext Hll) as [Hl Hp1].
    destruct (Z.ltb_spec (len data) (pos1 + length)); [discriminate |].
    destruct (Z.ltb_spec uncompressed_len (out_pos + length)); [discriminate |].
    intros [= <-]. cbn [st_pos st_output st_out_pos].
    repeat split; try lia.
    rewrite length_set_slice; [exact Hlen | lia | lia | lia |].
    rewrite length_slice by lia. lia.
  - destruct (copy_header data (Z.land (byte_val b) 3) (byte_val b) (pos + 1))
      as [[[length offset] pos1] | e |] eqn:Hhead.
    2,3: unfold decode_copy; rewrite Hhead; discriminate.
    destruct (copy_header_range _ _ _ _ _ _ _ Hb Hhead) as (Hl & Hoff & Hp1).
    destruct (Z.eq_dec offset 0) as [Hz | Hnz].
    { unfold decode_copy. rewrite Hhead. cbn [mbind outcome_bind].
      replace (offset =? 0) with true by (symmetry; apply Z.eqb_eq; exact Hz).
      discriminate. }
    destruct (Z.lt_ge_cases out_pos offset) as [Hfar | Hnear].
    { unfold decode_copy. rewrite Hhead. cbn [mbind outcome_bind].
      replace (offset =? 0) with false by (symmetry; apply Z.eqb_neq; exact Hnz).
      replace (out_pos <? offset) with true by (symmetry; apply Z.ltb_lt; exact Hfar).
      discriminate. }
    destruct (Z.lt_ge_cases uncompressed_len (out_pos + length)) as [Hover | Hfit].
    { unfold decode_copy. rewrite Hhead. cbn [mbind outcome_bind].
      replace (offset =? 0) with false by (symmetry; apply Z.eqb_neq; exact Hnz).
      replace (out_pos <? offset) with false by (symmetry; apply Z.ltb_ge; exact Hnear).
      replace (uncompressed_len <? out_pos + length) with true
        by (symmetry; apply Z.ltb_lt; exact Hover).
      discriminate. }
    destruct (decode_copy_checked data uncompressed_len _ _ _ output out_pos _ _ _
                Hb Hhead Hlen Hnz Hnear Hfit) as (output' & -> & _ & (Hlen' & _)).
    intros [= <-]. cbn [st_pos st_output st_out_pos].
    repeat split; lia.
Qed.

(** ** The decode loop *)

Lemma decode_head_run (data : list byte) (uncompressed_len : Z) (n : nat) :
  ∀ s0 s,
    invariant data uncompressed_len s0 →
    decode_head n data uncompressed_len s0 = Some s →
    invariant data uncompressed_len s ∧ st_pos s0 + Z.of_nat n ≤ st_pos s.
Proof.
  induction n as [| n IH]; intros s0 s Hinv.
  - simpl. intros [= <-]. split; [exact Hinv | lia].
  - cbn [decode_head].
    destruct (loop_condition data uncompressed_len s0) eqn:Hcond; [| discriminate].
    destruct (decode_element data uncompressed_len s0) as [s1 | e |] eqn:Hstep;
      [| discriminate | discriminate].
    destruct (decode_element_step _ _ _ _ Hinv Hcond Hstep) as (Hinv1 & Hlt & _).
    intros H. destruct (IH _ _ Hinv1 H) as [Hinv' Hle]. split; [exact Hinv' | lia].
Qed.

Lemma decode_loop_head (data : list byte) (uncompressed_len : Z) (n m : nat) :
  ∀ s0 s,
    decode_head n data uncompressed_len s0 = Some s →
    decode_loop (n + m) data uncompressed_len s0 =
    decode_loop m data uncompressed_len s.
Proof.
  induction n as [| n IH]; intros s0 s.
  - simpl. intros [= <-]. reflexivity.
  - cbn [decode_head Nat.add decode_loop].
    destruct (loop_condition data uncompressed_len s0); [| discriminate].
    destruct (decode_element data uncompressed_len s0) as [s1 | e |];
      [| discriminate | discriminate].
    cbn [mbind outcome_bind]. apply IH.
Qed.

Lemma decode_loop_exit (data : list byte) (uncompressed_len : Z) (fuel : nat)
    (s : decoder_state) :
  loop_condition data uncompressed_len s = false →
  decode_loop fuel data uncompressed_len s = Ok s.
Proof. intros H. destruct fuel; cbn [decode_loop]; rewrite H; reflexivity. Qed.

(** The loop, when it ends, is left in a state that it reached at its head
    and in which its condition is false. *)
Lemma decode_loop_Ok (data : list byte) (uncompressed_len : Z) (fuel : nat) :
  ∀ s0 s,
    decode_loop fuel data uncompressed_len s0 = Ok s →
    loop_condition data uncompressed_len s = false ∧
    ∃ n, decode_head n data uncompressed_len s0 = Some s.
Proof.
  induction fuel as [| fuel IH]; intros s0 s; cbn [decode_loop];
    destruct (loop_condition data uncompressed_len s0) eqn:Hcond.
  - discriminate.
  - intros [= <-]. split; [exact Hcond | exists 0%nat; reflexivity].
  - destruct (decode_element data uncompressed_len s0) as [s1 | e |] eqn:Hstep;
      [| discriminate | discriminate].
    cbn [mbind outcome_bind]. intros H. destruct (IH _ _ H) as [Hexit [n Hn]].
    split; [exact Hexit |]. exists (S n).
    cbn [decode_head]. rewrite Hcond, Hstep. exact Hn.
  - intros [= <-]. split; [exact Hcond | exists 0%nat; reflexivity].
Qed.

(** ** The header *)

Lemma decode_varint_Ok (data : list byte) (pos value pos' : Z) :
  0 ≤ pos →
  _decode_varint data pos = Ok (value, pos') →
  0 ≤ value ∧ pos < pos' ≤ len data.
Proof.
  intros Hpos. destruct (decode_varint_cases data pos Hpos) as (Hbig & Hend & Hval).
  set (bs := drop (Z.to_nat pos) data) in *.
  assert (continuation_run bs ≤ length bs)%nat as Hrun.
  { clear. induction bs as [| b bs IH]; simpl; [lia |]. destruct (continuation b); lia. }
  destruct (Nat.le_gt_cases 5 (continuation_run bs)) as [H5 | H4].
  { rewrite Hbig by exact H5. discriminate. }
  destruct (Nat.eq_dec (continuation_run bs) (length bs)) as [Heq | Hne].
  { rewrite Hend by lia. discriminate. }
  rewrite Hval by lia. intros [= <- <-].
  split; [apply base128_nonneg |].
  assert (length bs = length data - Z.to_nat pos)%nat by (unfold bs; apply length_drop).
  unfold len. lia.
Qed.

Lemma decode_header_Ok (data : list byte) (uncompressed_len : Z) (s0 : decoder_state) :
  decode_header data = Ok (uncompressed_len, s0) →
  _decode_varint data 0 = Ok (uncompressed_len, st_pos s0) ∧
  st_output s0 = replicate (Z.to_nat uncompressed_len) x00 ∧
  st_out_pos s0 = 0 ∧
  invariant data uncompressed_len s0.
Proof.
  unfold decode_header.
  destruct (_decode_varint data 0) as [[value pos] | e |] eqn:Hvar;
    [| discriminate | discriminate].
  cbn [mbind outcome_bind].
  destruct (decode_varint_Ok _ _ _ _ (Z.le_refl 0) Hvar) as [Hvalue Hpos].
  unfold bytearray. replace (value <? 0) with false by (symmetry; apply Z.ltb_ge; lia).
  cbn [mbind outcome_bind]. intros [= <- <-]. cbn [st_pos st_output st_out_pos].
  split; [reflexivity | split; [reflexivity | split; [reflexivity |]]].
  unfold invariant, len in *. cbn [st_pos st_output st_out_pos].
  rewrite length_replicate. lia.
Qed.

(** A successful [decompress] on a non-empty input, taken apart. *)
Lemma decompress_Ok (data out : list byte) :
  data ≠ [] → decompress data = Ok out →
  ∃ uncompressed_len s0 s,
    decode_header data = Ok (uncompressed_len, s0) ∧
    decode_loop (length data) data uncompressed_len s0 = Ok s ∧
    decompress_loop data = Ok (uncompressed_len, s) ∧
    st_out_pos s = uncompressed_len ∧ out = st_output s.
Proof.
  intros Hne. unfold decompress. destruct data as [| b data]; [congruence |].
  unfold decompress_loop.
  destruct (decode_header (b :: data)) as [[ulen s0] | e |] eqn:Hhead;
    [| discriminate | discriminate].
  cbn [mbind outcome_bind].
  destruct (decode_loop _ _ ulen s0) as [s | e |] eqn:Hloop;
    [| discriminate | discriminate].
  cbn [mbind outcome_bind].
  destruct (Z.eqb_spec (st_out_pos s) ulen) as [Heq | Hneq]; [| discriminate].
  cbn [negb]. intros [= <-]. exists ulen, s0, s. repeat split; assumption.
Qed.

(** ** [decompress] from a state at the head of the loop *)

Lemma reaches_loop (data : list byte) (uncompressed_len : Z) (s : decoder_state) :
  reaches data uncompressed_len s →
  data ≠ [] ∧
  invariant data uncompressed_len s ∧
  ∃ m, decompress_loop data =
         (t ← decode_loop m data uncompressed_len s; Ok (uncompressed_len, t)) ∧
       (st_pos s < len data → (0 < m)%nat).
Proof.
  intros (s0 & n & Hhead & Hn).
  destruct (decode_header_Ok _ _ _ Hhead) as (Hvar & _ & _ & Hinv0).
  destruct (decode_head_run _ _ _ _ _ Hinv0 Hn) as [Hinv Hle].
  split; [| split; [exact Hinv |]].
  - intros ->. vm_compute in Hhead. discriminate.
  - destruct Hinv0 as ((Hp0 & _) & _). destruct Hinv as ((_ & Hp) & _).
    exists (length data - n)%nat. split; [| unfold len in *; lia].
    unfold decompress_loop. rewrite Hhead. cbn [mbind outcome_bind].
    replace (length data) with (n + (length data - n))%nat at 1
      by (unfold len in *; lia).
    rewrite (decode_loop_head _ _ _ _ _ _ Hn). reflexivity.
Qed.

Lemma decompress_raises_at (data : list byte) (uncompressed_len : Z)
    (s : decoder_state) (e : exn) :
  reaches data uncompressed_len s →
  loop_condition data uncompressed_len s = true →
  decode_element data uncompressed_len s = Raise e →
  decompress data = Raise e.
Proof.
  intros Hreach Hcond Hstep.
  destruct (reaches_loop _ _ _ Hreach) as (Hne & _ & m & Hloop & Hm).
  unfold decompress. destruct data as [| b data]; [congruence |].
  rewrite Hloop. destruct m as [| m].
  - unfold loop_condition in Hcond. apply andb_true_iff in Hcond as [H _].
    apply Z.ltb_lt in H. specialize (Hm H). lia.
  - cbn [decode_loop]. rewrite Hcond, Hstep. reflexivity.
Qed.

Lemma decompress_exits_at (data : list byte) (uncompressed_len : Z)
    (s : decoder_state) :
  reaches data uncompressed_len s →
  loop_condition data uncompressed_len s = false →
  decompress_loop data = Ok (uncompressed_len, s).
Proof.
  intros Hreach Hcond.
  destruct (reaches_loop _ _ _ Hreach) as (_ & _ & m & Hloop & _).
  rewrite Hloop, decode_loop_exit by exact Hcond. reflexivity.
Qed.

(** ** Fuel *)

Lemma bind_fuel {A B : Type} (c : outcome A) (f : A → outcome B) :
  c ≠ OutOfFuel → (∀ a, c = Ok a → f a ≠ OutOfFuel) → c ≫= f ≠ OutOfFuel.
Proof.
  intros Hc Hf. destruct c as [a | e |]; cbn [mbind outcome_bind];
    [apply Hf; reflexivity | discriminate | congruence].
Qed.

Lemma getitem_fuel (l : list byte) (i : Z) : getitem l i ≠ OutOfFuel.
Proof.
  unfold getitem. destruct (_ && _); [| discriminate].
  destruct (l !! _); discriminate.
Qed.

Lemma setitem_fuel (l : list byte) (i v : Z) : setitem l i v ≠ OutOfFuel.
Proof.
  unfold setitem. destruct (_ && _); [| discriminate].
  destruct (_ && _); [| discriminate]. destruct (Byte.of_N _); discriminate.
Qed.

Lemma for_range_from_fuel {St : Type} (body : Z → St → outcome St) (n : nat) :
  (∀ j t, body j t ≠ OutOfFuel) →
  ∀ i s, for_range_from i n body s ≠ OutOfFuel.
Proof.
  intros Hbody. induction n as [| n IH]; intros i s; cbn [for_range_from].
  - discriminate.
  - apply bind_fuel; [apply Hbody | intros; apply IH].
Qed.

Lemma literal_length_fuel (data : list byte) (pos tag : Z) :
  literal_length data pos tag ≠ OutOfFuel.
Proof.
  unfold literal_length. destruct (_ <=? 60); [discriminate |].
  destruct (len data <? _); [discriminate |].
  apply bind_fuel; [| discriminate].
  apply for_range_from_fuel. intros j t.
  apply bind_fuel; [apply getitem_fuel | discriminate].
Qed.

Lemma copy_header_fuel (data : list byte) (element_type tag pos : Z) :
  copy_header data element_type tag pos ≠ OutOfFuel.
Proof.
  unfold copy_header.
  destruct (element_type =? 1); [| destruct (element_type =? 2)].
  - destruct (len data <=? pos); [discriminate |].
    apply bind_fuel; [apply getitem_fuel | discriminate].
  - destruct (len data <? pos + 2); [discriminate |].
    repeat (apply bind_fuel; [apply getitem_fuel | intros ? _]). discriminate.
  - destruct (len data <? pos + 4); [discriminate |].
    repeat (apply bind_fuel; [apply getitem_fuel | intros ? _]). discriminate.
Qed.

Lemma copy_bytes_fuel (output : list byte) (out_pos offset length : Z) :
  copy_bytes output out_pos offset length ≠ OutOfFuel.
Proof.
  apply for_range_from_fuel. intros j t.
  apply bind_fuel; [apply getitem_fuel | intros; apply setitem_fuel].
Qed.

Lemma decode_element_fuel (data : list byte) (uncompressed_len : Z)
    (s : decoder_state) :
  decode_element data uncompressed_len s ≠ OutOfFuel.
Proof.
  destruct s as [pos output out_pos]. unfold decode_element.
  apply bind_fuel; [apply getitem_fuel | intros tag _].
  destruct (Z.land tag 3 =? 0).
  - unfold decode_literal.
    apply bind_fuel; [apply literal_length_fuel | intros [length pos1] _].
    destruct (len data <? _); [discriminate |].
    destruct (uncompressed_len <? _); discriminate.
  - unfold decode_copy.
    apply bind_fuel; [apply copy_header_fuel | intros [[length offset] pos1] _].
    destruct (offset =? 0); [discriminate |].
    destruct (out_pos <? offset); [discriminate |].
    destruct (uncompressed_len <? _); [discriminate |].
    apply bind_fuel; [apply copy_bytes_fuel | discriminate].
Qed.

Lemma decode_loop_fuel (data : list byte) (uncompressed_len : Z) (fuel : nat) :
  ∀ s, invariant data uncompressed_len s →
       len data - st_pos s ≤ Z.of_nat fuel →
       decode_loop fuel data uncompressed_len s ≠ OutOfFuel.
Proof.
  induction fuel as [| fuel IH]; intros s Hinv Hfuel; cbn [decode_loop];
    destruct (loop_condition data uncompressed_len s) eqn:Hcond; try discriminate.
  - unfold loop_condition in Hcond. apply andb_true_iff in Hcond as [H _].
    apply Z.ltb_lt in H. lia.
  - apply bind_fuel; [apply decode_element_fuel | intros s' Hstep].
    destruct (decode_element_step _ _ _ _ Hinv Hcond Hstep) as (Hinv' & Hlt & _).
    apply IH; [exact Hinv' | lia].
Qed.

Lemma decode_varint_fuel (data : list byte) (pos : Z) :
  0 ≤ pos → _decode_varint data pos ≠ OutOfFuel.
Proof.
  intros Hpos. destruct (decode_varint_cases data pos Hpos) as (Hbig & Hend & Hval).
  set (bs := drop (Z.to_nat pos) data) in *.
  assert (continuation_run bs ≤ length bs)%nat as Hrun.
  { clear. induction bs as [| b bs IH]; simpl; [lia |]. destruct (continuation b); lia. }
  destruct (Nat.le_gt_cases 5 (continuation_run bs)) as [H5 | H4].
  { rewrite Hbig by exact H5. discriminate. }
  destruct (Nat.eq_dec (continuation_run bs) (length bs)) as [Heq | Hne].
  { rewrite Hend by lia. discriminate. }
  rewrite Hval by lia. discriminate.
Qed.

(** The fuel of the embedding is enough on every input: [decompress]
    returns or raises. *)
Theorem decompress_fuel (data : list byte) : decompress data ≠ OutOfFuel.
Proof.
  unfold decompress. destruct data as [| b data]; [discriminate |].
  apply bind_fuel.
  - unfold decompress_loop.
    destruct (decode_header (b :: data)) as [[ulen s0] | e |] eqn:Hhead;
      cbn [mbind outcome_bind]; [| discriminate |].
    + destruct (decode_header_Ok _ _ _ Hhead) as (_ & _ & _ & Hinv0).
      apply bind_fuel; [| discriminate].
      apply decode_loop_fuel; [exact Hinv0 |].
      destruct Hinv0 as ((Hp & _) & _). unfold len in *. lia.
    + exfalso. revert Hhead. unfold decode_header.
      apply bind_fuel; [apply decode_varint_fuel; lia | intros [ulen pos] _].
      apply bind_fuel; [| discriminate].
      unfold bytearray. destruct (ulen <? 0); discriminate.
  - intros [ulen s] _. destruct (negb _); discriminate.
Qed.

(** ** Bytes behind the end of the stream *)

Lemma getitem_app (l extra : list byte) (i d : Z) :
  0 ≤ i → getitem l i = Ok d → getitem (l ++ extra) i = Ok d.
Proof.
  intros Hi. unfold getitem at 1.
  replace (i <? 0) with false by (symmetry; apply Z.ltb_ge; lia).
  destruct (_ && _); [| discriminate].
  destruct (l !! Z.to_nat i) as [b |] eqn:Hb; [| discriminate].
  intros [= <-]. apply getitem_lookup; [exact Hi |].
  apply lookup_app_l_Some. exact Hb.
Qed.

Lemma slice_app (l extra : list byte) (a b : Z) :
  0 ≤ a → a ≤ b → b ≤ len l → slice (l ++ extra) a b = slice l a b.
Proof.
  intros Ha Hab Hb. pose proof (len_nonneg extra).
  rewrite !slice_take_drop by (rewrite ?len_app; lia).
  rewrite drop_app_le by (unfold len in *; lia).
  apply take_app_le. unfold len in *. rewrite length_drop. lia.
Qed.

Lemma continuation_run_extend (bs extra : list byte) :
  (continuation_run bs < length bs)%nat →
  continuation_run (bs ++ extra) = continuation_run bs.
Proof.
  induction bs as [| b bs IH]; simpl; [lia |].
  destruct (continuation b); [| reflexivity].
  intros H. rewrite IH by lia. reflexivity.
Qed.

Lemma decode_varint_app (data extra : list byte) (r : Z * Z) :
  _decode_varint data 0 = Ok r → _decode_varint (data ++ extra) 0 = Ok r.
Proof.
  destruct (decode_varint_cases data 0 (Z.le_refl 0)) as (Hbig & Hend & Hval).
  destruct (decode_varint_cases (data ++ extra) 0 (Z.le_refl 0)) as (_ & _ & Hval').
  change (drop (Z.to_nat 0) ?l) with l in *.
  pose proof (continuation_run_le data) as Hrun.
  destruct (Nat.le_gt_cases 5 (continuation_run data)) as [H5 | H4].
  { rewrite Hbig by exact H5. discriminate. }
  destruct (Nat.eq_dec (continuation_run data) (length data)) as [Heq | Hne].
  { rewrite Hend by lia. discriminate. }
  rewrite Hval by lia. intros [= <-].
  rewrite Hval'; rewrite continuation_run_extend by lia;
    [| lia | rewrite length_app; lia].
  rewrite take_app_le by lia. reflexivity.
Qed.

Lemma literal_length_app (data extra : list byte) (pos tag : Z) (r : Z * Z) :
  0 ≤ pos →
  literal_length data pos tag = Ok r → literal_length (data ++ extra) pos tag = Ok r.
Proof.
  intros Hpos. pose proof (len_nonneg extra) as Hextra.
  destruct (Z.le_gt_cases (Z.shiftr tag 2 + 1) 60) as [Hdirect | Hext].
  - rewrite !literal_length_direct by exact Hdirect. trivial.
  - destruct (Z.le_gt_cases (pos + (Z.shiftr tag 2 + 1 - 60)) (len data)) as [Hin | Hcut].
    + rewrite !literal_length_extended by (rewrite ?len_app; lia).
      rewrite slice_app by lia. trivial.
    + unfold literal_length at 1.
      replace (Z.shiftr tag 2 + 1 <=? 60) with false by (symmetry; apply Z.leb_gt; lia).
      replace (len data <? pos + (Z.shiftr tag 2 + 1 - 60)) with true
        by (symmetry; apply Z.ltb_lt; lia).
      discriminate.
Qed.

Lemma copy_header_app (data extra : list byte) (element_type tag pos : Z)
    (r : Z * Z * Z) :
  0 ≤ pos →
  copy_header data element_type tag pos = Ok r →
  copy_header (data ++ extra) element_type tag pos = Ok r.
Proof.
  intros Hpos. pose proof (len_nonneg extra) as Hextra. unfold copy_header.
  rewrite len_app.
  destruct (element_type =? 1); [| destruct (element_type =? 2)].
  - destruct (Z.leb_spec (len data) pos); [discriminate |].
    replace (len data + len extra <=? pos) with false by (symmetry; apply Z.leb_gt; lia).
    destruct (getitem data pos) as [d0 | |] eqn:H0; [| discriminate | discriminate].
    rewrite (getitem_app _ extra _ _ Hpos H0). trivial.
  - destruct (Z.ltb_spec (len data) (pos + 2)); [discriminate |].
    replace (len data + len extra <? pos + 2) with false
      by (symmetry; apply Z.ltb_ge; lia).
    destruct (getitem data pos) as [d0 | |] eqn:H0; [| discriminate | discriminate].
    destruct (getitem data (pos + 1)) as [d1 | |] eqn:H1;
      [| discriminate | discriminate].
    rewrite (getitem_app _ extra _ _ Hpos H0).
    rewrite (getitem_app _ extra (pos + 1) _ ltac:(lia) H1). trivial.
  - destruct (Z.ltb_spec (len data) (pos + 4)); [discriminate |].
    replace (len data + len extra <? pos + 4) with false
      by (symmetry; apply Z.ltb_ge; lia).
    destruct (getitem data pos) as [d0 | |] eqn:H0; [| discriminate | discriminate].
    destruct (getitem data (pos + 1)) as [d1 | |] eqn:H1;
      [| discriminate | discriminate].
    destruct (getitem data (pos + 2)) as [d2 | |] eqn:H2;
      [| discriminate | discriminate].
    destruct (getitem data (pos + 3)) as [d3 | |] eqn:H3;
      [| discriminate | discriminate].
    rewrite (getitem_app _ extra _ _ Hpos H0).
    rewrite (getitem_app _ extra (pos + 1) _ ltac:(lia) H1).
    rewrite (getitem_app _ extra (pos + 2) _ ltac:(lia) H2).
    rewrite (getitem_app _ extra (pos + 3) _ ltac:(lia) H3). trivial.
Qed.

Lemma decode_element_app (data extra : list byte) (uncompressed_len : Z)
    (s s' : decoder_state) :
  invariant data uncompressed_len s →
  loop_condition data uncompressed_len s = true →
  decode_element data uncompressed_len s = Ok s' →
  decode_element (data ++ extra) uncompressed_len s = Ok s'.
Proof.
  destruct s as [pos output out_pos]. unfold invariant, loop_condition.
  cbn [st_pos st_output st_out_pos]. intros (Hpos & Hout & Hlen) Hcond.
  apply andb_true_iff in Hcond as [Hp Ho].
  apply Z.ltb_lt in Hp. apply Z.ltb_lt in Ho.
  pose proof (len_nonneg extra) as Hextra.
  destruct (getitem_in_range data pos ltac:(lia)) as (b & _ & Htag).
  rewrite (decode_element_tag _ _ _ _ _ _ Htag).
  rewrite (decode_element_tag _ _ _ _ _ _ (getitem_app _ extra _ _ (proj1 Hpos) Htag)).
  pose proof (byte_val_range b) as Hb.
  assert (0 ≤ pos + 1) as Hnext by lia.
  destruct (Z.land (byte_val b) 3 =? 0).
  - unfold decode_literal.
    destruct (literal_length data (pos + 1) (byte_val b)) as [[length pos1] | e |] eqn:Hll;
      [| discriminate | discriminate].
    rewrite (literal_length_app _ extra _ _ _ Hnext Hll).
    cbn [mbind outcome_bind].
    assert (0 ≤ pos + 1 ≤ len data) as Hin by lia.
    destruct (literal_length_range _ _ _ _ _ Hb Hin Hll) as [Hl Hp1].
    destruct (Z.ltb_spec (len data) (pos1 + length)); [discriminate |].
    replace (len (data ++ extra) <? pos1 + length) with false
      by (symmetry; apply Z.ltb_ge; rewrite len_app; lia).
    destruct (Z.ltb_spec uncompressed_len (out_pos + length)); [discriminate |].
    rewrite slice_app by lia. trivial.
  - unfold decode_copy.
    destruct (copy_header data (Z.land (byte_val b) 3) (byte_val b) (pos + 1))
      as [r | e |] eqn:Hhead; [| discriminate | discriminate].
    rewrite (copy_header_app _ extra _ _ _ _ Hnext Hhead). trivial.
Qed.

Lemma decode_head_app (data extra : list byte) (uncompressed_len : Z) (n : nat) :
  ∀ s0 s,
    invariant data uncompressed_len s0 →
    decode_head n data uncompressed_len s0 = Some s →
    decode_head n (data ++ extra) uncompressed_len s0 = Some s.
Proof.
  induction n as [| n IH]; intros s0 s Hinv; [trivial |].
  cbn [decode_head].
  destruct (loop_condition data uncompressed_len s0) eqn:Hcond; [| discriminate].
  destruct (decode_element data uncompressed_len s0) as [s1 | e |] eqn:Hstep;
    [| discriminate | discriminate].
  assert (loop_condition (data ++ extra) uncompressed_len s0 = true) as ->.
  { unfold loop_condition in *. apply andb_true_iff in Hcond as [Hp Ho].
    rewrite Ho, andb_true_r. apply Z.ltb_lt in Hp. apply Z.ltb_lt.
    rewrite len_app. pose proof (len_nonneg extra). lia. }
  rewrite (decode_element_app _ extra _ _ _ Hinv Hcond Hstep).
  apply IH. apply (decode_element_step _ _ _ _ Hinv Hcond Hstep).
Qed.

(** A stream that decodes still decodes, to the same output, when bytes
    are appended to it. *)
Lemma decompress_app (data extra out : list byte) :
  data ≠ [] → decompress data = Ok out → decompress (data ++ extra) = Ok out.
Proof.
  intros Hne Hok.
  destruct (decompress_Ok data out Hne Hok)
    as (ulen & s0 & s & Hhead & Hloop & _ & Hout & ->).
  destruct (decode_header_Ok _ _ _ Hhead) as (Hvar & Hbuf & Hout0 & Hinv0).
  destruct (decode_loop_Ok _ _ _ _ _ Hloop) as (Hexit & n & Hn).
  assert (reaches (data ++ extra) ulen s) as Hreach.
  { exists s0, n. split; [| apply decode_head_app; assumption].
    revert Hhead. unfold decode_header. rewrite Hvar.
    rewrite (decode_varint_app _ extra _ Hvar). trivial. }
  assert (loop_condition (data ++ extra) ulen s = false) as Hexit'.
  { unfold loop_condition. rewrite Hout, Z.ltb_irrefl. apply andb_false_r. }
  pose proof (decompress_exits_at _ _ _ Hreach Hexit') as Hrun.
  unfold decompress. destruct data as [| b data]; [congruence |].
  cbn [app]. cbn [app] in Hrun. rewrite Hrun. cbn [mbind outcome_bind].
  rewrite Hout, Z.eqb_refl. reflexivity.
Qed.

(** ** The claims about [decompress] *)

(** C1: when [decompress] succeeds, the length of what it returns is the
    length that the varint at the start of the input declares; on an input
    that is not empty this varint is decoded. *)
Theorem C1_length_invariant (data out : list byte) :
  decompress data = Ok out →
  (data ≠ [] → ∃ n p, _decode_varint data 0 = Ok (n, p) ∧ len out = n) ∧
  (∀ n p, _decode_varint data 0 = Ok (n, p) → len out = n).
Proof.
  intros Hok. destruct data as [| b data].
  - split; [congruence |]. intros n p H. vm_compute in H. discriminate.
  - destruct (decompress_Ok (b :: data) out ltac:(discriminate) Hok)
      as (ulen & s0 & s & Hhead & Hloop & _ & _ & ->).
    destruct (decode_header_Ok _ _ _ Hhead) as (Hvar & _ & _ & Hinv0).
    destruct (decode_loop_Ok _ _ _ _ _ Hloop) as (_ & n & Hn).
    destruct (decode_head_run _ _ _ _ _ Hinv0 Hn) as [(_ & _ & Hlen) _].
    split.
    + intros _. exists ulen, (st_pos s0). split; [exact Hvar | exact Hlen].
    + intros n' p' H. rewrite Hvar in H. injection H as <- _. exact Hlen.
Qed.

Lemma C1_length_invariant_witness :
  ([x0d; x30] ++ hello ≠ [] →
   ∃ n p, _decode_varint ([x0d; x30] ++ hello) 0 = Ok (n, p) ∧ len hello = n) ∧
  (∀ n p, _decode_varint ([x0d; x30] ++ hello) 0 = Ok (n, p) → len hello = n).
Proof. apply (C1_length_invariant ([x0d; x30] ++ hello) hello). reflexivity. Defined.

(** C7: when [decompress] comes to a copy element, of any of the three
    kinds, whose offset is 0 or exceeds [out_pos], the pass raises an
    InvalidOffset error, whatever the length of the copy, and so does
    [decompress]: nothing is returned. *)
Theorem C7_invalid_offset (data : list byte) (uncompressed_len : Z)
    (s : decoder_state) (tag length offset pos' : Z) :
  reaches data uncompressed_len s →
  loop_condition data uncompressed_len s = true →
  getitem data (st_pos s) = Ok tag →
  Z.land tag 0x03 ≠ 0 →
  copy_header data (Z.land tag 0x03) tag (st_pos s + 1) = Ok (length, offset, pos') →
  offset = 0 ∨ st_out_pos s < offset →
  fails_with (decode_element data uncompressed_len s) InvalidOffset ∧
  fails_with (decompress data) InvalidOffset ∧
  ∀ out, decompress data ≠ Ok out.
Proof.
  intros Hreach Hcond Htag Hkind Hhead Hbad.
  assert (∃ m, decode_element data uncompressed_len s = Raise (CompressionError m) ∧
               kind_of m = InvalidOffset) as (m & Hstep & Hm).
  { destruct s as [pos output out_pos]. cbn [st_pos st_out_pos] in *.
    rewrite (decode_element_tag _ _ _ _ _ _ Htag).
    replace (Z.land tag 3 =? 0) with false by (symmetry; apply Z.eqb_neq; exact Hkind).
    unfold decode_copy. rewrite Hhead. cbn [mbind outcome_bind].
    destruct (Z.eqb_spec offset 0) as [Hz | Hnz].
    - eexists. split; reflexivity.
    - destruct Hbad as [Hz | Hfar]; [contradiction |].
      replace (out_pos <? offset) with true by (symmetry; apply Z.ltb_lt; exact Hfar).
      eexists. split; reflexivity. }
  pose proof (decompress_raises_at _ _ _ _ Hreach Hcond Hstep) as Hraise.
  split; [| split].
  - exists m. split; assumption.
  - exists m. split; assumption.
  - intros out. rewrite Hraise. discriminate.
Qed.

Lemma C7_invalid_offset_witness :
  fails_with (decode_element [x08; x00; x61; x01; x02] 8 (State 3 (x61 :: replicate 7 x00) 1))
             InvalidOffset ∧
  fails_with (decompress [x08; x00; x61; x01; x02]) InvalidOffset ∧
  ∀ out, decompress [x08; x00; x61; x01; x02] ≠ Ok out.
Proof.
  apply (C7_invalid_offset [x08; x00; x61; x01; x02] 8
           (State 3 (x61 :: replicate 7 x00) 1) 1 4 2 5).
  - exists (State 1 (replicate 8 x00) 0), 1%nat. split; reflexivity.
  - reflexivity.
  - reflexivity.
  - vm_compute. discriminate.
  - reflexivity.
  - right. simpl. lia.
Defined.

(** C8: whenever the loop is left with [out_pos] different from the
    declared length, [decompress] fails with a SizeMismatch error; a stream
    that declares 10 bytes and whose only element is a literal of 2 bytes
    does so. *)
Theorem C8_size_mismatch :
  (∀ (data : list byte) (uncompressed_len : Z) (s : decoder_state),
     reaches data uncompressed_len s →
     loop_condition data uncompressed_len s = false →
     st_out_pos s ≠ uncompressed_len →
     decompress data =
       Raise (CompressionError (Output_size_mismatch uncompressed_len (st_out_pos s))) ∧
     fails_with (decompress data) SizeMismatch) ∧
  decompress [x0a; x04; x61; x62] = Raise (CompressionError (Output_size_mismatch 10 2)).
Proof.
  split; [| reflexivity].
  intros data uncompressed_len s Hreach Hcond Hneq.
  assert (decompress data =
            Raise (CompressionError (Output_size_mismatch uncompressed_len (st_out_pos s))))
    as Hraise.
  { destruct (reaches_loop _ _ _ Hreach) as (Hne & _).
    pose proof (decompress_exits_at _ _ _ Hreach Hcond) as Hloop.
    unfold decompress. destruct data as [| b data]; [congruence |].
    rewrite Hloop. cbn [mbind outcome_bind].
    replace (st_out_pos s =? uncompressed_len) with false
      by (symmetry; apply Z.eqb_neq; exact Hneq).
    reflexivity. }
  split; [exact Hraise |]. rewrite Hraise. apply fails_with_Raise. reflexivity.
Qed.

Lemma C8_size_mismatch_witness :
  fails_with (decompress [x0a; x04; x61; x62]) SizeMismatch.
Proof.
  apply (proj1 C8_size_mismatch [x0a; x04; x61; x62] 10
           (State 4 (x61 :: x62 :: replicate 8 x00) 2)).
  - exists (State 1 (replicate 10 x00) 0), 1%nat. split; reflexivity.
  - reflexivity.
  - simpl. lia.
Defined.

(** C9, counterexample: the stream 01 00 61 ff declares 1 byte; the loop is
    left behind the literal, at cursor 3 of 4, and [decompress] returns the
    byte. *)
Lemma C9_trailing_bytes_counterexample :
  ¬ consumes_all_input [x01; x00; x61; xff].
Proof.
  intros H.
  destruct (H ltac:(discriminate) [x61] eq_refl) as (ulen & s & Hloop & Hpos & _).
  vm_compute in Hloop. injection Hloop as _ <-. vm_compute in Hpos. discriminate.
Qed.

(** C9, amended: when [decompress] succeeds on an input that is not empty,
    the loop is left in a state where [out_pos] equals the declared length
    and the input cursor is at most the length of the input, and the output
    of that state is returned; bytes behind the element that completes the
    output are not read: the input with any bytes appended decodes to the
    same output. *)
Theorem C9_loop_exit (data out : list byte) :
  data ≠ [] →
  decompress data = Ok out →
  (∃ uncompressed_len s,
     decompress_loop data = Ok (uncompressed_len, s) ∧
     reaches data uncompressed_len s ∧
     loop_condition data uncompressed_len s = false ∧
     st_out_pos s = uncompressed_len ∧
     0 ≤ st_pos s ≤ len data ∧
     st_output s = out) ∧
  (∀ extra, decompress (data ++ extra) = Ok out).
Proof.
  intros Hne Hok. split; [| intros extra; apply decompress_app; assumption].
  destruct (decompress_Ok data out Hne Hok)
    as (ulen & s0 & s & Hhead & Hloop & Hrun & Hout & ->).
  destruct (decode_header_Ok _ _ _ Hhead) as (_ & _ & _ & Hinv0).
  destruct (decode_loop_Ok _ _ _ _ _ Hloop) as (Hexit & n & Hn).
  destruct (decode_head_run _ _ _ _ _ Hinv0 Hn) as [(Hpos & _) _].
  exists ulen, s. repeat split; try assumption; try lia.
  exists s0, n. split; assumption.
Qed.

Lemma C9_loop_exit_witness :
  (∃ uncompressed_len s,
     decompress_loop [x01; x00; x61] = Ok (uncompressed_len, s) ∧
     reaches [x01; x00; x61] uncompressed_len s ∧
     loop_condition [x01; x00; x61] uncompressed_len s = false ∧
     st_out_pos s = uncompressed_len ∧
     0 ≤ st_pos s ≤ len [x01; x00; x61] ∧
     st_output s = [x61]) ∧
  (∀ extra, decompress ([x01; x00; x61] ++ extra) = Ok [x61]).
Proof.
  apply (C9_loop_exit [x01; x00; x61] [x61]).
  - discriminate.
  - reflexivity.
Defined.

(** ** Streams of a single literal *)

Lemma slice_middle (pre mid post : list byte) :
  slice (pre ++ mid ++ post) (len pre) (len pre + len mid) = mid.
Proof.
  pose proof (len_nonneg pre). pose proof (len_nonneg mid). pose proof (len_nonneg post).
  rewrite slice_take_drop by (rewrite ?len_app; lia).
  rewrite drop_len_app. replace (len pre + len mid - len pre) with (len mid) by lia.
  unfold len. rewrite Nat2Z.id. apply take_app_length.
Qed.

Lemma slice_suffix (pre post : list byte) :
  slice (pre ++ post) (len pre) (len pre + len post) = post.
Proof.
  pose proof (slice_middle pre post []) as H. rewrite app_nil_r in H. exact H.
Qed.

Lemma set_slice_all (l xs : list byte) : set_slice l 0 (0 + len l) xs = xs.
Proof.
  pose proof (len_nonneg l).
  rewrite set_slice_take_drop by lia. replace (0 + len l) with (len l) by lia.
  unfold len. rewrite Nat2Z.id, drop_all. change (Z.to_nat 0) with 0%nat.
  rewrite take_0. apply app_nil_r.
Qed.

(** * Further properties of the decoder *)

(** ** No exception but [CompressionError] *)

Lemma safe_bind {A B : Type} (c : outcome A) (f : A → outcome B) :
  returns_or_compression_error c →
  (∀ a, c = Ok a → returns_or_compression_error (f a)) →
  returns_or_compression_error (c ≫= f).
Proof.
  intros [[a ->] | [m ->]] Hf; cbn [mbind outcome_bind].
  - apply Hf. reflexivity.
  - right. exists m. reflexivity.
Qed.

Lemma safe_Ok {A : Type} (a : A) : returns_or_compression_error (Ok a).
Proof. left. exists a. reflexivity. Qed.

Lemma safe_Raise {A : Type} (m : message) :
  returns_or_compression_error (@Raise A (CompressionError m)).
Proof. right. exists m. reflexivity. Qed.

Lemma decode_varint_safe (data : list byte) (pos : Z) :
  0 ≤ pos → returns_or_compression_error (_decode_varint data pos).
Proof.
  intros Hpos. destruct (decode_varint_cases data pos Hpos) as (Hbig & Hend & Hval).
  set (bs := drop (Z.to_nat pos) data) in *.
  pose proof (continuation_run_le bs) as Hrun.
  destruct (Nat.le_gt_cases 5 (continuation_run bs)) as [H5 | H4].
  { rewrite Hbig by exact H5. apply safe_Raise. }
  destruct (Nat.eq_dec (continuation_run bs) (length bs)) as [Heq | Hne].
  { rewrite Hend by lia. apply safe_Raise. }
  rewrite Hval by lia. apply safe_Ok.
Qed.

Lemma literal_length_safe (data : list byte) (pos tag : Z) :
  0 ≤ pos → returns_or_compression_error (literal_length data pos tag).
Proof.
  intros Hpos.
  destruct (Z.le_gt_cases (Z.shiftr tag 2 + 1) 60) as [Hdirect | Hext].
  - rewrite literal_length_direct by exact Hdirect. apply safe_Ok.
  - destruct (Z.le_gt_cases (pos + (Z.shiftr tag 2 + 1 - 60)) (len data)) as [Hin | Hcut].
    + rewrite literal_length_extended by lia. apply safe_Ok.
    + unfold literal_length.
      replace (Z.shiftr tag 2 + 1 <=? 60) with false by (symmetry; apply Z.leb_gt; lia).
      replace (len data <? pos + (Z.shiftr tag 2 + 1 - 60)) with true
        by (symmetry; apply Z.ltb_lt; lia).
      apply safe_Raise.
Qed.

Lemma getitem_safe (l : list byte) (i : Z) :
  0 ≤ i < len l → returns_or_compression_error (getitem l i).
Proof.
  intros Hi. destruct (getitem_in_range l i Hi) as (b & _ & ->). apply safe_Ok.
Qed.

Lemma copy_header_safe (data : list byte) (element_type tag pos : Z) :
  0 ≤ pos → returns_or_compression_error (copy_header data element_type tag pos).
Proof.
  intros Hpos. unfold copy_header.
  destruct (element_type =? 1); [| destruct (element_type =? 2)].
  - destruct (Z.leb_spec (len data) pos); [apply safe_Raise |].
    apply safe_bind; [apply getitem_safe; lia | intros; apply safe_Ok].
  - destruct (Z.ltb_spec (len data) (pos + 2)); [apply safe_Raise |].
    repeat (apply safe_bind; [apply getitem_safe; lia | intros ? _]). apply safe_Ok.
  - destruct (Z.ltb_spec (len data) (pos + 4)); [apply safe_Raise |].
    repeat (apply safe_bind; [apply getitem_safe; lia | intros ? _]). apply safe_Ok.
Qed.

Lemma decode_element_safe (data : list byte) (uncompressed_len : Z)
    (s : decoder_state) :
  invariant data uncompressed_len s →
  loop_condition data uncompressed_len s = true →
  returns_or_compression_error (decode_element data uncompressed_len s).
Proof.
  destruct s as [pos output out_pos]. unfold invariant, loop_condition.
  cbn [st_pos st_output st_out_pos]. intros (Hpos & Hout & Hlen) Hcond.
  apply andb_true_iff in Hcond as [Hp Ho].
  apply Z.ltb_lt in Hp. apply Z.ltb_lt in Ho.
  destruct (getitem_in_range data pos ltac:(lia)) as (b & _ & Htag).
  rewrite (decode_element_tag _ _ _ _ _ _ Htag).
  pose proof (byte_val_range b) as Hb.
  assert (0 ≤ pos + 1) as Hnext by lia.
  destruct (Z.land (byte_val b) 3 =? 0).
  - unfold decode_literal.
    apply safe_bind; [apply literal_length_safe; exact Hnext | intros [length pos1] _].
    destruct (len data <? pos1 + length); [apply safe_Raise |].
    destruct (uncompressed_len <? out_pos + length); [apply safe_Raise | apply safe_Ok].
  - destruct (copy_header data (Z.land (byte_val b) 3) (byte_val b) (pos + 1))
      as [[[length offset] pos1] | e |] eqn:Hhead.
    + destruct (Z.eq_dec offset 0) as [Hz | Hnz].
      { unfold decode_copy. rewrite Hhead. cbn [mbind outcome_bind].
        replace (offset =? 0) with true by (symmetry; apply Z.eqb_eq; exact Hz).
        apply safe_Raise. }
      destruct (Z.lt_ge_cases out_pos offset) as [Hfar | Hnear].
      { unfold decode_copy. rewrite Hhead. cbn [mbind outcome_bind].
        replace (offset =? 0) with false by (symmetry; apply Z.eqb_neq; exact Hnz).
        replace (out_pos <? offset) with true by (symmetry; apply Z.ltb_lt; exact Hfar).
        apply safe_Raise. }
      destruct (Z.lt_ge_cases uncompressed_len (out_pos + length)) as [Hover | Hfit].
      { unfold decode_copy. rewrite Hhead. cbn [mbind outcome_bind].
        replace (offset =? 0) with false by (symmetry; apply Z.eqb_neq; exact Hnz).
        replace (out_pos <? offset) with false by (symmetry; apply Z.ltb_ge; exact Hnear).
        replace (uncompressed_len <? out_pos + length) with true
          by (symmetry; apply Z.ltb_lt; exact Hover).
        apply safe_Raise. }
      destruct (decode_copy_checked data uncompressed_len _ _ _ output out_pos _ _ _
                  Hb Hhead Hlen Hnz Hnear Hfit) as (output' & -> & _).
      apply safe_Ok.
    + pose proof (copy_header_safe data (Z.land (byte_val b) 3) (byte_val b) (pos + 1)
                    Hnext) as Hsafe.
      rewrite Hhead in Hsafe. unfold decode_copy. rewrite Hhead.
      cbn [mbind outcome_bind].
      destruct Hsafe as [[a Ha] | [m [= ->]]]; [discriminate Ha | apply safe_Raise].
    + destruct (copy_header_fuel _ _ _ _ Hhead).
Qed.

Lemma decode_loop_safe (data : list byte) (uncompressed_len : Z) (fuel : nat) :
  ∀ s, invariant data uncompressed_len s →
       len data - st_pos s ≤ Z.of_nat fuel →
       returns_or_compression_error (decode_loop fuel data uncompressed_len s).
Proof.
  induction fuel as [| fuel IH]; intros s Hinv Hfuel; cbn [decode_loop];
    destruct (loop_condition data uncompressed_len s) eqn:Hcond;
    try apply safe_Ok.
  - unfold loop_condition in Hcond. apply andb_true_iff in Hcond as [H _].
    apply Z.ltb_lt in H. lia.
  - apply safe_bind; [apply decode_element_safe; assumption | intros s' Hstep].
    destruct (decode_element_step _ _ _ _ Hinv Hcond Hstep) as (Hinv' & Hlt & _).
    apply IH; [exact Hinv' | lia].
Qed.

Lemma decompress_safe (data : list byte) :
  returns_or_compression_error (decompress data).
Proof.
  unfold decompress. destruct data as [| b data]; [apply safe_Ok |].
  apply safe_bind.
  - unfold decompress_loop.
    destruct (decode_header (b :: data)) as [[ulen s0] | e |] eqn:Hhead;
      cbn [mbind outcome_bind].
    + destruct (decode_header_Ok _ _ _ Hhead) as (_ & _ & _ & Hinv0).
      apply safe_bind; [| intros; apply safe_Ok].
      apply decode_loop_safe; [exact Hinv0 |].
      destruct Hinv0 as ((Hp & _) & _). unfold len in *. lia.
    + revert Hhead. unfold decode_header.
      pose proof (decode_varint_safe (b :: data) 0 (Z.le_refl 0)) as [[[v p] Hv] | [m Hm]].
      * rewrite Hv. cbn [mbind outcome_bind].
        destruct (decode_varint_Ok _ _ _ _ (Z.le_refl 0) Hv) as [Hv0 _].
        unfold bytearray.
        replace (v <? 0) with false by (symmetry; apply Z.ltb_ge; lia).
        discriminate.
      * rewrite Hm. cbn [mbind outcome_bind]. intros [= <-]. apply safe_Raise.
    + revert Hhead. unfold decode_header.
      intros Hhead. exfalso. revert Hhead.
      apply bind_fuel; [apply decode_varint_fuel; lia | intros [ulen pos] _].
      apply bind_fuel; [| discriminate].
      unfold bytearray. destruct (ulen <? 0); discriminate.
  - intros [ulen s] _. destruct (negb _); [apply safe_Raise | apply safe_Ok].
Qed.

(** X1: on no input does [decompress] raise an [IndexError] or a
    [ValueError]: its checks keep every subscript of [data] and of
    [output] in range, the count given to [bytearray] is not negative and
    every value stored in [output] is a byte.  (That the buffer of line 66
    cannot be allocated is outside the embedding, which gives it any
    length.) *)
Theorem X1_subscripts_in_range (data : list byte) :
  decompress data ≠ Raise IndexError ∧ decompress data ≠ Raise ValueError.
Proof.
  destruct (decompress_safe data) as [[out ->] | [m ->]];
    split; discriminate.
Qed.

(** ** The header of a copy element *)

Lemma slice_nil (l : list byte) (a : Z) : 0 ≤ a ≤ len l → slice l a a = [].
Proof.
  intros Ha. rewrite slice_take_drop by lia.
  replace (Z.to_nat (a - a)) with 0%nat by lia. apply take_0.
Qed.

Lemma slice_cons (l : list byte) (a b : Z) :
  0 ≤ a → a < b → b ≤ len l →
  ∃ x, getitem l a = Ok (byte_val x) ∧ slice l a b = x :: slice l (a + 1) b.
Proof.
  intros Ha Hab Hb.
  destruct (getitem_in_range l a ltac:(lia)) as (x & Hx & Hget).
  exists x. split; [exact Hget |].
  rewrite !slice_take_drop by lia.
  replace (Z.to_nat (b - a)) with (S (Z.to_nat (b - (a + 1)))) by lia.
  replace (Z.to_nat (a + 1)) with (S (Z.to_nat a)) by lia.
  rewrite (drop_S _ _ _ Hx). reflexivity.
Qed.

Lemma little_endian_bound (bs : list byte) : 0 ≤ little_endian bs < 256 ^ len bs.
Proof.
  induction bs as [| b bs IH]; cbn [little_endian].
  - change (len []) with 0. simpl. lia.
  - rewrite len_cons. pose proof (len_nonneg bs).
    rewrite Z.pow_add_r by lia. pose proof (byte_val_range b). lia.
Qed.

Lemma shiftr_5_byte (tag : Z) : 0 ≤ tag < 256 → 0 ≤ Z.shiftr tag 5 < 8.
Proof.
  intros H. rewrite Z.shiftr_div_pow2 by lia. change (2 ^ 5) with 32.
  split; [apply Z.div_pos; lia | apply Z.div_lt_upper_bound; lia].
Qed.

Lemma land_7_range (x : Z) : 0 ≤ Z.land x 0x07 < 8.
Proof.
  change 0x07 with (Z.ones 3). rewrite Z.land_ones by lia.
  change (2 ^ 3) with 8. apply Z.mod_pos_bound. lia.
Qed.

(** X2: the header of a copy element, in arithmetic.  Kind 1 has a length
    from 4 to 11 and the offset [(tag >> 5) * 256 + next byte], below 2048;
    kinds 2 and 3 have a length from 1 to 64 and as offset the
    little-endian value of the next 2, respectively 4, bytes.  The cursor
    is moved behind the offset bytes. *)
Theorem X2_copy_header (data : list byte) (tag : byte) (element_type pos : Z) :
  0 ≤ pos →
  pos + offset_bytes element_type ≤ len data →
  ∃ length offset,
    copy_header data element_type (byte_val tag) pos =
      Ok (length, offset, pos + offset_bytes element_type) ∧
    (element_type = 1 →
       length = Z.land (Z.shiftr (byte_val tag) 2) 0x07 + 4 ∧ 4 ≤ length ≤ 11 ∧
       offset = Z.shiftr (byte_val tag) 5 * 256 + little_endian (slice data pos (pos + 1)) ∧
       0 ≤ offset < 2048) ∧
    (element_type = 2 →
       length = Z.shiftr (byte_val tag) 2 + 1 ∧ 1 ≤ length ≤ 64 ∧
       offset = little_endian (slice data pos (pos + 2)) ∧ 0 ≤ offset < 65536) ∧
    (element_type ≠ 1 → element_type ≠ 2 →
       length = Z.shiftr (byte_val tag) 2 + 1 ∧ 1 ≤ length ≤ 64 ∧
       offset = little_endian (slice data pos (pos + 4)) ∧ 0 ≤ offset < 2 ^ 32).
Proof.
  intros Hpos Hin. pose proof (byte_val_range tag) as Htag.
  pose proof (shiftr_2_byte _ Htag) as Hsh2. pose proof (shiftr_5_byte _ Htag) as Hsh5.
  unfold copy_header, offset_bytes in *.
  destruct (Z.eqb_spec element_type 1) as [H1 | H1];
    [| destruct (Z.eqb_spec element_type 2) as [H2 | H2]].
  - replace (len data <=? pos) with false by (symmetry; apply Z.leb_gt; lia).
    destruct (slice_cons data pos (pos + 1)) as (x0 & Hx0 & Hs0); [lia | lia | lia |].
    rewrite slice_nil in Hs0 by lia.
    rewrite Hx0. cbn [mbind outcome_bind]. pose proof (byte_val_range x0).
    eexists _, _. split; [reflexivity |].
    rewrite Z.lor_comm, lor_shiftl_add by (change (2 ^ 8) with 256; lia).
    rewrite Hs0. cbn [little_endian]. change (2 ^ 8) with 256.
    pose proof (land_7_range (Z.shiftr (byte_val tag) 2)).
    repeat split; try lia; intros; lia.
  - replace (len data <? pos + 2) with false by (symmetry; apply Z.ltb_ge; lia).
    destruct (slice_cons data pos (pos + 2)) as (x0 & Hx0 & Hs0); [lia | lia | lia |].
    destruct (slice_cons data (pos + 1) (pos + 2)) as (x1 & Hx1 & Hs1); [lia | lia | lia |].
    replace (pos + 1 + 1) with (pos + 2) in Hs1 by lia.
    rewrite slice_nil in Hs1 by lia.
    rewrite Hx0, Hx1. cbn [mbind outcome_bind].
    pose proof (byte_val_range x0). pose proof (byte_val_range x1).
    eexists _, _. split; [reflexivity |].
    rewrite lor_shiftl_add by (change (2 ^ 8) with 256; lia).
    rewrite Hs0, Hs1. cbn [little_endian]. change (2 ^ 8) with 256.
    repeat split; try lia; intros; lia.
  - replace (len data <? pos + 4) with false by (symmetry; apply Z.ltb_ge; lia).
    destruct (slice_cons data pos (pos + 4)) as (x0 & Hx0 & Hs0); [lia | lia | lia |].
    destruct (slice_cons data (pos + 1) (pos + 4)) as (x1 & Hx1 & Hs1); [lia | lia | lia |].
    destruct (slice_cons data (pos + 2) (pos + 4)) as (x2 & Hx2 & Hs2); [lia | lia | lia |].
    destruct (slice_cons data (pos + 3) (pos + 4)) as (x3 & Hx3 & Hs3); [lia | lia | lia |].
    replace (pos + 1 + 1) with (pos + 2) in Hs1 by lia.
    replace (pos + 2 + 1) with (pos + 3) in Hs2 by lia.
    replace (pos + 3 + 1) with (pos + 4) in Hs3 by lia.
    rewrite slice_nil in Hs3 by lia.
    rewrite Hx0, Hx1, Hx2, Hx3. cbn [mbind outcome_bind].
    pose proof (byte_val_range x0). pose proof (byte_val_range x1).
    pose proof (byte_val_range x2). pose proof (byte_val_range x3).
    eexists _, _. split; [reflexivity |].
    rewrite (lor_shiftl_add (byte_val x0)) by (change (2 ^ 8) with 256; lia).
    rewrite (lor_shiftl_add _ (byte_val x2))
      by (change (2 ^ 8) with 256; change (2 ^ 16) with 65536; lia).
    rewrite lor_shiftl_add
      by (change (2 ^ 8) with 256; change (2 ^ 16) with 65536;
          change (2 ^ 24) with 16777216; lia).
    rewrite Hs0, Hs1, Hs2, Hs3. cbn [little_endian].
    change (2 ^ 8) with 256. change (2 ^ 16) with 65536.
    change (2 ^ 24) with 16777216. change (2 ^ 32) with 4294967296.
    repeat split; try lia; intros; lia.
Qed.

Lemma X2_copy_header_witness :
  ∃ length offset,
    copy_header [x08; x0e; x34; x12] 2 (byte_val x0e) 2 =
      Ok (length, offset, 2 + offset_bytes 2) ∧
    (2 = 1 →
       length = Z.land (Z.shiftr (byte_val x0e) 2) 0x07 + 4 ∧ 4 ≤ length ≤ 11 ∧
       offset = Z.shiftr (byte_val x0e) 5 * 256 +
                little_endian (slice [x08; x0e; x34; x12] 2 (2 + 1)) ∧
       0 ≤ offset < 2048) ∧
    (2 = 2 →
       length = Z.shiftr (byte_val x0e) 2 + 1 ∧ 1 ≤ length ≤ 64 ∧
       offset = little_endian (slice [x08; x0e; x34; x12] 2 (2 + 2)) ∧
       0 ≤ offset < 65536) ∧
    (2 ≠ 1 → 2 ≠ 2 →
       length = Z.shiftr (byte_val x0e) 2 + 1 ∧ 1 ≤ length ≤ 64 ∧
       offset = little_endian (slice [x08; x0e; x34; x12] 2 (2 + 4)) ∧
       0 ≤ offset < 2 ^ 32).
Proof.
  apply (X2_copy_header [x08; x0e; x34; x12] x0e 2 2).
  - lia.
  - vm_compute. discriminate.
Defined.

(** ** The declared length *)

Lemma base128_bound (bs : list byte) : 0 ≤ base128 bs < 128 ^ len bs.
Proof.
  induction bs as [| b bs IH]; cbn [base128].
  - change (len []) with 0. simpl. lia.
  - rewrite len_cons. pose proof (len_nonneg bs).
    rewrite Z.pow_add_r by lia. pose proof (land_127_range (byte_val b)).
    change (128 ^ 1) with 128. lia.
Qed.

Lemma decode_varint_bounds (data : list byte) (pos value pos' : Z) :
  0 ≤ pos →
  _decode_varint data pos = Ok (value, pos') →
  0 ≤ value < 2 ^ 35 ∧ pos + 1 ≤ pos' ≤ pos + 5 ∧ pos' ≤ len data.
Proof.
  intros Hpos Hok.
  destruct (decode_varint_Ok _ _ _ _ Hpos Hok) as [_ Hin].
  destruct (decode_varint_cases data pos Hpos) as (Hbig & Hend & Hval).
  set (bs := drop (Z.to_nat pos) data) in *.
  pose proof (continuation_run_le bs) as Hrun.
  destruct (Nat.le_gt_cases 5 (continuation_run bs)) as [H5 | H4].
  { rewrite Hbig in Hok by exact H5. discriminate. }
  destruct (Nat.eq_dec (continuation_run bs) (length bs)) as [Heq | Hne].
  { rewrite Hend in Hok by lia. discriminate. }
  rewrite Hval in Hok by lia. injection Hok as <- <-.
  pose proof (base128_bound (take (S (continuation_run bs)) bs)) as Hb.
  assert (len (take (S (continuation_run bs)) bs) ≤ 5) as Hlen.
  { unfold len. rewrite length_take. lia. }
  assert (128 ^ len (take (S (continuation_run bs)) bs) ≤ 128 ^ 5) as Hpow.
  { apply Z.pow_le_mono_r; [lia | exact Hlen]. }
  change (128 ^ 5) with (2 ^ 35) in Hpow. lia.
Qed.

(** X3: a varint that is decoded has from 1 to 5 bytes, all of them in the
    input, and a value from 0 to [2 ^ 35 - 1]; the largest value is
    reached, so that the declared length of a stream is not bounded by
    [2 ^ 32]. *)
Theorem X3_varint_bounds (data : list byte) (pos value pos' : Z) :
  0 ≤ pos →
  _decode_varint data pos = Ok (value, pos') →
  0 ≤ value < 2 ^ 35 ∧ pos + 1 ≤ pos' ≤ pos + 5 ∧ pos' ≤ len data ∧
  _decode_varint [xff; xff; xff; xff; x7f] 0 = Ok (2 ^ 35 - 1, 5).
Proof.
  intros Hpos Hok.
  destruct (decode_varint_bounds _ _ _ _ Hpos Hok) as (Hv & Hp & Hin).
  repeat split; try lia.
Qed.

Lemma X3_varint_bounds_witness :
  0 ≤ 300 < 2 ^ 35 ∧ 1 + 1 ≤ 3 ≤ 1 + 5 ∧ 3 ≤ len [x0d; xac; x02; x30] ∧
  _decode_varint [xff; xff; xff; xff; x7f] 0 = Ok (2 ^ 35 - 1, 5).
Proof.
  apply (X3_varint_bounds [x0d; xac; x02; x30] 1 300 3).
  - lia.
  - reflexivity.
Defined.

(** X4: a stream whose varint declares the length 0 decodes to the empty
    byte sequence, whatever follows the varint: the loop is not entered. *)
Theorem X4_zero_length (data : list byte) (pos : Z) :
  _decode_varint data 0 = Ok (0, pos) → decompress data = Ok [].
Proof.
  intros Hvar. unfold decompress. destruct data as [| b data].
  - reflexivity.
  - unfold decompress_loop, decode_header. rewrite Hvar.
    cbn [mbind outcome_bind bytearray Z.ltb Z.compare Z.to_nat replicate].
    rewrite decode_loop_exit.
    + reflexivity.
    + unfold loop_condition. cbn [st_out_pos]. apply andb_false_r.
Qed.

Lemma X4_zero_length_witness : decompress [x80; x00; xff; xff] = Ok [].
Proof. apply (X4_zero_length [x80; x00; xff; xff] 2). reflexivity. Defined.

(** ** The cursors *)

Lemma decode_head_out (data : list byte) (uncompressed_len : Z) (n : nat) :
  ∀ s0 s,
    invariant data uncompressed_len s0 →
    decode_head n data uncompressed_len s0 = Some s →
    st_out_pos s0 + Z.of_nat n ≤ st_out_pos s.
Proof.
  induction n as [| n IH]; intros s0 s Hinv.
  - simpl. intros [= <-]. lia.
  - cbn [decode_head].
    destruct (loop_condition data uncompressed_len s0) eqn:Hcond; [| discriminate].
    destruct (decode_element data uncompressed_len s0) as [s1 | e |] eqn:Hstep;
      [| discriminate | discriminate].
    destruct (decode_element_step _ _ _ _ Hinv Hcond Hstep) as (Hinv1 & _ & Hlt).
    intros H. specialize (IH _ _ Hinv1 H). lia.
Qed.

(** X5: at the head of the loop, after [n] passes, the input cursor is
    within the input and has advanced by at least [n] from the end of the
    varint, the output cursor is at least [n] and at most the declared
    length, and the output buffer has the declared length: every pass
    consumes and produces at least one byte. *)
Theorem X5_cursors (data : list byte) (uncompressed_len : Z)
    (s0 s : decoder_state) (n : nat) :
  decode_header data = Ok (uncompressed_len, s0) →
  decode_head n data uncompressed_len s0 = Some s →
  1 ≤ st_pos s0 ≤ 5 ∧
  st_pos s0 + Z.of_nat n ≤ st_pos s ≤ len data ∧
  Z.of_nat n ≤ st_out_pos s ≤ uncompressed_len ∧
  len (st_output s) = uncompressed_len.
Proof.
  intros Hhead Hn.
  destruct (decode_header_Ok _ _ _ Hhead) as (Hvar & _ & Hout0 & Hinv0).
  destruct (decode_varint_bounds _ _ _ _ (Z.le_refl 0) Hvar) as (_ & Hp0 & _).
  destruct (decode_head_run _ _ _ _ _ Hinv0 Hn) as [(Hpos & Hout & Hlen) Hle].
  pose proof (decode_head_out _ _ _ _ _ Hinv0 Hn) as Hge.
  repeat split; try lia.
Qed.

Lemma X5_cursors_witness :
  1 ≤ 1 ≤ 5 ∧
  1 + Z.of_nat 2 ≤ 6 ≤ len [x08; x04; x41; x42; x09; x02] ∧
  Z.of_nat 2 ≤ 8 ≤ 8 ∧
  len [x41; x42; x41; x42; x41; x42; x41; x42] = 8.
Proof.
  apply (X5_cursors [x08; x04; x41; x42; x09; x02] 8
           (State 1 (replicate 8 x00) 0)
           (State 6 [x41; x42; x41; x42; x41; x42; x41; x42] 8) 2).
  - reflexivity.
  - reflexivity.
Defined.

(** ** The first element *)

(** X6: a stream that decodes to a byte sequence that is not empty has a
    literal as its first element: a copy at output position 0 has no valid
    offset. *)
Theorem X6_first_element_literal (data out : list byte) :
  decompress data = Ok out → out ≠ [] →
  ∃ uncompressed_len pos tag,
    _decode_varint data 0 = Ok (uncompressed_len, pos) ∧
    getitem data pos = Ok tag ∧ Z.land tag 0x03 = 0.
Proof.
  intros Hok Hout.
  assert (data ≠ []) as Hne.
  { intros ->. injection Hok as <-. congruence. }
  destruct (decompress_Ok data out Hne Hok)
    as (ulen & s0 & s & Hhead & Hloop & _ & Hfinal & ->).
  destruct (decode_header_Ok _ _ _ Hhead) as (Hvar & _ & Hout0 & Hinv0).
  destruct (decode_loop_Ok _ _ _ _ _ Hloop) as (_ & n & Hn).
  destruct (decode_head_run _ _ _ _ _ Hinv0 Hn) as [(_ & _ & Hlen) _].
  assert (0 < ulen) as Hpos.
  { destruct (st_output s) as [| x l]; [congruence |].
    rewrite len_cons in Hlen. pose proof (len_nonneg l). lia. }
  destruct n as [| n].
  { simpl in Hn. injection Hn as <-. lia. }
  cbn [decode_head] in Hn.
  destruct (loop_condition data ulen s0) eqn:Hcond; [| discriminate].
  destruct (decode_element data ulen s0) as [s1 | e |] eqn:Hstep;
    [| discriminate | discriminate].
  destruct s0 as [pos output out_pos]. cbn [st_pos st_out_pos] in *. subst out_pos.
  assert (0 ≤ pos < len data) as Hin.
  { unfold loop_condition in Hcond. cbn [st_pos] in Hcond.
    apply andb_true_iff in Hcond as [H _]. apply Z.ltb_lt in H.
    destruct Hinv0 as ((H0 & _) & _). cbn [st_pos] in H0. lia. }
  destruct (getitem_in_range data pos Hin) as (b & _ & Htag).
  exists ulen, pos, (byte_val b). split; [exact Hvar | split; [exact Htag |]].
  rewrite (decode_element_tag _ _ _ _ _ _ Htag) in Hstep.
  destruct (Z.eqb_spec (Z.land (byte_val b) 3) 0) as [Hkind | Hkind]; [exact Hkind |].
  exfalso. revert Hstep. unfold decode_copy.
  destruct (copy_header data (Z.land (byte_val b) 3) (byte_val b) (pos + 1))
    as [[[length offset] pos1] | e |] eqn:Hh; cbn [mbind outcome_bind];
    [| discriminate | discriminate].
  destruct (copy_header_range _ _ _ _ _ _ _ (byte_val_range b) Hh) as (_ & Hoff & _).
  destruct (Z.eqb_spec offset 0); [discriminate |].
  replace (0 <? offset) with true by (symmetry; apply Z.ltb_lt; lia).
  discriminate.
Qed.

Lemma X6_first_element_literal_witness :
  ∃ uncompressed_len pos tag,
    _decode_varint [x06; x00; x58; x05; x01] 0 = Ok (uncompressed_len, pos) ∧
    getitem [x06; x00; x58; x05; x01] pos = Ok tag ∧ Z.land tag 0x03 = 0.
Proof.
  apply (X6_first_element_literal [x06; x00; x58; x05; x01]
           [x58; x58; x58; x58; x58; x58]).
  - reflexivity.
  - discriminate.
Defined.

(** ** A pass that ends *)

(** What a pass that ends has done: it decoded a literal or a copy whose
    checks passed. *)
Lemma decode_element_Ok (data : list byte) (uncompressed_len : Z)
    (pos : Z) (output : list byte) (out_pos : Z) (s' : decoder_state) :
  invariant data uncompressed_len (State pos output out_pos) →
  loop_condition data uncompressed_len (State pos output out_pos) = true →
  decode_element data uncompressed_len (State pos output out_pos) = Ok s' →
  ∃ tag, getitem data pos = Ok tag ∧ 0 ≤ tag < 256 ∧
    ((Z.land tag 0x03 = 0 ∧
      ∃ length pos1,
        literal_length data (pos + 1) tag = Ok (length, pos1) ∧
        1 ≤ length ∧ pos + 1 ≤ pos1 ∧ pos1 + length ≤ len data ∧
        out_pos + length ≤ uncompressed_len ∧
        s' = State (pos1 + length)
                   (set_slice output out_pos (out_pos + length)
                              (slice data pos1 (pos1 + length)))
                   (out_pos + length)) ∨
     (Z.land tag 0x03 ≠ 0 ∧
      ∃ length offset pos1 output',
        copy_header data (Z.land tag 0x03) tag (pos + 1) = Ok (length, offset, pos1) ∧
        1 ≤ offset ≤ out_pos ∧ 1 ≤ length ≤ 64 ∧ pos + 1 < pos1 ≤ len data ∧
        out_pos + length ≤ uncompressed_len ∧
        copy_bytes output out_pos offset length = Ok output' ∧
        copied output out_pos offset length output' ∧
        s' = State pos1 output' (out_pos + length))).
Proof.
  unfold invariant, loop_condition.
  cbn [st_pos st_output st_out_pos]. intros (Hpos & Hout & Hlen) Hcond.
  apply andb_true_iff in Hcond as [Hp Ho].
  apply Z.ltb_lt in Hp. apply Z.ltb_lt in Ho.
  destruct (getitem_in_range data pos ltac:(lia)) as (b & _ & Htag).
  rewrite (decode_element_tag _ _ _ _ _ _ Htag).
  pose proof (byte_val_range b) as Hb.
  destruct (Z.eqb_spec (Z.land (byte_val b) 3) 0) as [Hkind | Hkind]; intros Hstep;
    exists (byte_val b); (split; [exact Htag | split; [exact Hb |]]).
  - left. split; [exact Hkind |]. revert Hstep. unfold decode_literal.
    destruct (literal_length data (pos + 1) (byte_val b)) as [[length pos1] | e |] eqn:Hll;
      [| discriminate | discriminate].
    cbn [mbind outcome_bind].
    assert (0 ≤ pos + 1 ≤ len data) as Hnext by lia.
    destruct (literal_length_range _ _ _ _ _ Hb Hnext Hll) as [Hl Hp1].
    destruct (Z.ltb_spec (len data) (pos1 + length)); [discriminate |].
    destruct (Z.ltb_spec uncompressed_len (out_pos + length)); [discriminate |].
    intros [= <-]. exists length, pos1. repeat split; try lia; reflexivity.
  - right. split; [exact Hkind |]. revert Hstep.
    destruct (copy_header data (Z.land (byte_val b) 3) (byte_val b) (pos + 1))
      as [[[length offset] pos1] | e |] eqn:Hhead.
    2,3: unfold decode_copy; rewrite Hhead; discriminate.
    destruct (copy_header_range _ _ _ _ _ _ _ Hb Hhead) as (Hl & Hoff & Hp1).
    destruct (Z.eq_dec offset 0) as [Hz | Hnz].
    { unfold decode_copy. rewrite Hhead. cbn [mbind outcome_bind].
      replace (offset =? 0) with true by (symmetry; apply Z.eqb_eq; exact Hz).
      discriminate. }
    destruct (Z.lt_ge_cases out_pos offset) as [Hfar | Hnear].
    { unfold decode_copy. rewrite Hhead. cbn [mbind outcome_bind].
      replace (offset =? 0) with false by (symmetry; apply Z.eqb_neq; exact Hnz).
      replace (out_pos <? offset) with true by (symmetry; apply Z.ltb_lt; exact Hfar).
      discriminate. }
    destruct (Z.lt_ge_cases uncompressed_len (out_pos + length)) as [Hover | Hfit].
    { unfold decode_copy. rewrite Hhead. cbn [mbind outcome_bind].
      replace (offset =? 0) with false by (symmetry; apply Z.eqb_neq; exact Hnz).
      replace (out_pos <? offset) with false by (symmetry; apply Z.ltb_ge; exact Hnear).
      replace (uncompressed_len <? out_pos + length) with true
        by (symmetry; apply Z.ltb_lt; exact Hover).
      discriminate. }
    destruct (decode_copy_checked data uncompressed_len _ _ _ output out_pos _ _ _
                Hb Hhead Hlen Hnz Hnear Hfit) as (output' & -> & Hrun & Hcopied).
    intros [= <-]. exists length, offset, pos1, output'.
    assert (1 ≤ offset ≤ out_pos) as Hoff1 by lia.
    split; [reflexivity |]. do 6 (split; [assumption |]). reflexivity.
Qed.

(** ** The size of the output *)

Lemma copy_header_cost (data : list byte) (element_type tag pos : Z)
    (length offset pos' : Z) :
  0 ≤ tag < 256 →
  copy_header data element_type tag pos = Ok (length, offset, pos') →
  3 * length ≤ 64 * (pos' - pos + 1).
Proof.
  intros Htag. pose proof (shiftr_2_byte tag Htag) as Hsh. unfold copy_header.
  destruct (element_type =? 1); [| destruct (element_type =? 2)].
  - destruct (len data <=? pos); [discriminate |].
    destruct (getitem data pos) as [d0 | |]; [| discriminate | discriminate].
    cbn [mbind outcome_bind]. intros [= <- <- <-].
    pose proof (land_7_range (Z.shiftr tag 2)). lia.
  - destruct (len data <? pos + 2); [discriminate |].
    destruct (getitem data pos) as [d0 | |]; [| discriminate | discriminate].
    destruct (getitem data (pos + 1)) as [d1 | |]; [| discriminate | discriminate].
    cbn [mbind outcome_bind]. intros [= <- <- <-]. lia.
  - destruct (len data <? pos + 4); [discriminate |].
    destruct (getitem data pos) as [d0 | |]; [| discriminate | discriminate].
    destruct (getitem data (pos + 1)) as [d1 | |]; [| discriminate | discriminate].
    destruct (getitem data (pos + 2)) as [d2 | |]; [| discriminate | discriminate].
    destruct (getitem data (pos + 3)) as [d3 | |]; [| discriminate | discriminate].
    cbn [mbind outcome_bind]. intros [= <- <- <-]. lia.
Qed.

Lemma decode_element_cost (data : list byte) (uncompressed_len : Z)
    (s s' : decoder_state) :
  invariant data uncompressed_len s →
  loop_condition data uncompressed_len s = true →
  decode_element data uncompressed_len s = Ok s' →
  3 * (st_out_pos s' - st_out_pos s) ≤ 64 * (st_pos s' - st_pos s).
Proof.
  destruct s as [pos output out_pos]. intros Hinv Hcond Hstep.
  destruct (decode_element_Ok _ _ _ _ _ _ Hinv Hcond Hstep)
    as (tag & _ & Htag & [(_ & length & pos1 & _ & Hl & Hp1 & _ & _ & ->)
                         | (_ & length & offset & pos1 & output' & Hhead & _ & _ & _ & _ & _ & _ & ->)]);
    cbn [st_pos st_out_pos].
  - lia.
  - pose proof (copy_header_cost _ _ _ _ _ _ _ Htag Hhead). lia.
Qed.

Lemma decode_head_cost (data : list byte) (uncompressed_len : Z) (n : nat) :
  ∀ s0 s,
    invariant data uncompressed_len s0 →
    decode_head n data uncompressed_len s0 = Some s →
    3 * (st_out_pos s - st_out_pos s0) ≤ 64 * (st_pos s - st_pos s0).
Proof.
  induction n as [| n IH]; intros s0 s Hinv.
  - simpl. intros [= <-]. lia.
  - cbn [decode_head].
    destruct (loop_condition data uncompressed_len s0) eqn:Hcond; [| discriminate].
    destruct (decode_element data uncompressed_len s0) as [s1 | e |] eqn:Hstep;
      [| discriminate | discriminate].
    destruct (decode_element_step _ _ _ _ Hinv Hcond Hstep) as (Hinv1 & _ & _).
    pose proof (decode_element_cost _ _ _ _ Hinv Hcond Hstep) as Hcost.
    intros Hrest. specialize (IH _ _ Hinv1 Hrest). lia.
Qed.

(** X7: a stream cannot decode to more than 64/3 times its own size: a
    pass produces at most 64 bytes for every 3 bytes of input it consumes
    (a copy with a 2-byte offset is the extreme), and the varint takes at
    least one byte. *)
Theorem X7_expansion_bound (data out : list byte) :
  data ≠ [] → decompress data = Ok out →
  3 * len out ≤ 64 * (len data - 1).
Proof.
  intros Hne Hok.
  destruct (decompress_Ok data out Hne Hok)
    as (ulen & s0 & s & Hhead & Hloop & _ & Hfinal & ->).
  destruct (decode_header_Ok _ _ _ Hhead) as (Hvar & _ & Hout0 & Hinv0).
  destruct (decode_varint_Ok _ _ _ _ (Z.le_refl 0) Hvar) as [_ Hp0].
  destruct (decode_loop_Ok _ _ _ _ _ Hloop) as (_ & n & Hn).
  destruct (decode_head_run _ _ _ _ _ Hinv0 Hn) as [((_ & Hpos) & _ & Hlen) _].
  pose proof (decode_head_cost _ _ _ _ _ Hinv0 Hn) as Hcost. lia.
Qed.

Lemma X7_expansion_bound_witness :
  3 * len (replicate 65 x41) ≤ 64 * (len [x41; x00; x41; xfe; x01; x00] - 1).
Proof.
  apply (X7_expansion_bound [x41; x00; x41; xfe; x01; x00] (replicate 65 x41)).
  - discriminate.
  - vm_compute. reflexivity.
Defined.

(** ** Literal elements *)

Lemma item_slice (l : list byte) (a b i : Z) :
  0 ≤ a → a ≤ b → b ≤ len l → 0 ≤ i < b - a →
  item (slice l a b) i = item l (a + i).
Proof.
  intros Ha Hab Hb Hi. unfold item. rewrite slice_take_drop by assumption.
  rewrite lookup_take_lt by lia. rewrite lookup_drop. f_equal. lia.
Qed.

Lemma item_set_slice (l xs : list byte) (a b : Z) :
  0 ≤ a → a ≤ b → b ≤ len l → len xs = b - a →
  (∀ i, 0 ≤ i < b - a → item (set_slice l a b xs) (a + i) = item xs i) ∧
  (∀ j, 0 ≤ j < a ∨ b ≤ j → item (set_slice l a b xs) j = item l j).
Proof.
  intros Ha Hab Hb Hxs. rewrite set_slice_take_drop by assumption.
  assert (length (take (Z.to_nat a) l) = Z.to_nat a) as Htake.
  { rewrite length_take. unfold len in *. lia. }
  unfold item. split.
  - intros i Hi. rewrite lookup_app_r by lia. rewrite Htake.
    rewrite lookup_app_l by (unfold len in *; lia). f_equal. lia.
  - intros j [Hj | Hj].
    + rewrite lookup_app_l by lia. apply lookup_take_lt. lia.
    + rewrite lookup_app_r by lia. rewrite Htake.
      rewrite lookup_app_r by (unfold len in *; lia).
      rewrite lookup_drop. f_equal. unfold len in *. lia.
Qed.

(** X8: a literal element whose payload is in the input and fits the
    output copies it: behind the pass the [length] bytes of the output from
    [out_pos] on are the [length] bytes of the input behind the length
    bytes, every other byte of the output is unchanged, and both cursors
    have advanced by [length]. *)
Theorem X8_literal_copy (data : list byte) (uncompressed_len pos : Z)
    (output : list byte) (out_pos tag length pos1 : Z) :
  0 ≤ pos → 0 ≤ out_pos →
  getitem data pos = Ok tag →
  Z.land tag 0x03 = 0 →
  literal_length data (pos + 1) tag = Ok (length, pos1) →
  pos1 + length ≤ len data →
  out_pos + length ≤ uncompressed_len →
  len output = uncompressed_len →
  ∃ output',
    decode_element data uncompressed_len (State pos output out_pos) =
      Ok (State (pos1 + length) output' (out_pos + length)) ∧
    len output' = len output ∧
    (∀ i, 0 ≤ i < length → item output' (out_pos + i) = item data (pos1 + i)) ∧
    (∀ j, 0 ≤ j < out_pos ∨ out_pos + length ≤ j → item output' j = item output j).
Proof.
  intros Hpos Hout Htag Hkind Hll Hin Hfit Hlen.
  pose proof (getitem_range _ _ _ Htag) as Hrange.
  assert (pos < len data) as Hp.
  { revert Htag. unfold getitem.
    replace (pos <? 0) with false by (symmetry; apply Z.ltb_ge; lia).
    destruct (Z.ltb_spec pos (len data)); [trivial |].
    rewrite andb_false_r. discriminate. }
  assert (0 ≤ pos + 1 ≤ len data) as Hnext by lia.
  destruct (literal_length_range _ _ _ _ _ Hrange Hnext Hll) as [Hl Hp1].
  eexists. split; [| split; [| split]].
  - rewrite (decode_element_tag _ _ _ _ _ _ Htag), Hkind. cbn [Z.eqb].
    unfold decode_literal. rewrite Hll. cbn [mbind outcome_bind].
    replace (len data <? pos1 + length) with false by (symmetry; apply Z.ltb_ge; lia).
    replace (uncompressed_len <? out_pos + length) with false
      by (symmetry; apply Z.ltb_ge; lia).
    reflexivity.
  - apply length_set_slice; [lia | lia | lia |]. rewrite length_slice by lia. lia.
  - intros i Hi.
    destruct (item_set_slice output (slice data pos1 (pos1 + length))
                out_pos (out_pos + length)) as [Hnew _];
      [lia | lia | lia | rewrite length_slice by lia; lia |].
    rewrite Hnew by lia. apply item_slice; lia.
  - intros j Hj.
    destruct (item_set_slice output (slice data pos1 (pos1 + length))
                out_pos (out_pos + length)) as [_ Hold];
      [lia | lia | lia | rewrite length_slice by lia; lia |].
    apply Hold. exact Hj.
Qed.

Lemma X8_literal_copy_witness :
  ∃ output',
    decode_element [x03; x08; x61; x62; x63] 3 (State 1 [x00; x00; x00] 0) =
      Ok (State (2 + 3) output' (0 + 3)) ∧
    len output' = len [x00; x00; x00] ∧
    (∀ i, 0 ≤ i < 3 → item output' (0 + i) = item [x03; x08; x61; x62; x63] (2 + i)) ∧
    (∀ j, 0 ≤ j < 0 ∨ 0 + 3 ≤ j → item output' j = item [x00; x00; x00] j).
Proof.
  apply (X8_literal_copy [x03; x08; x61; x62; x63] 3 1 [x00; x00; x00] 0 8 3 2).
  - lia.
  - lia.
  - reflexivity.
  - reflexivity.
  - reflexivity.
  - vm_compute. discriminate.
  - lia.
  - reflexivity.
Defined.

(** ** Elements that do not fit *)

Lemma decompress_fails_at (data : list byte) (uncompressed_len : Z)
    (s : decoder_state) (m : message) :
  reaches data uncompressed_len s →
  loop_condition data uncompressed_len s = true →
  decode_element data uncompressed_len s = Raise (CompressionError m) →
  fails_with (decompress data) (kind_of m).
Proof.
  intros Hreach Hcond Hstep.
  rewrite (decompress_raises_at _ _ _ _ Hreach Hcond Hstep).
  apply fails_with_Raise. reflexivity.
Qed.

(** X9: when [decompress] comes to an element, literal or copy, that is
    well formed but whose length would carry the output cursor beyond the
    declared length, it fails with an Overflow error: no byte is written
    behind the declared length. *)
Theorem X9_output_overflow (data : list byte) (uncompressed_len : Z)
    (s : decoder_state) (tag length pos1 : Z) :
  reaches data uncompressed_len s →
  loop_condition data uncompressed_len s = true →
  getitem data (st_pos s) = Ok tag →
  (Z.land tag 0x03 = 0 ∧
   literal_length data (st_pos s + 1) tag = Ok (length, pos1) ∧
   pos1 + length ≤ len data) ∨
  (Z.land tag 0x03 ≠ 0 ∧
   ∃ offset,
     copy_header data (Z.land tag 0x03) tag (st_pos s + 1) = Ok (length, offset, pos1) ∧
     offset ≠ 0 ∧ offset ≤ st_out_pos s) →
  uncompressed_len < st_out_pos s + length →
  fails_with (decompress data) Overflow.
Proof.
  intros Hreach Hcond Htag Helem Hover.
  destruct s as [pos output out_pos]. cbn [st_pos st_out_pos] in *.
  assert (∃ m, decode_element data uncompressed_len (State pos output out_pos) =
                 Raise (CompressionError m) ∧ kind_of m = Overflow)
    as (m & Hstep & Hkind).
  { rewrite (decode_element_tag _ _ _ _ _ _ Htag).
    destruct Helem as [(Hlit & Hll & Hin) | (Hcopy & offset & Hhead & Hnz & Hnear)].
    - rewrite Hlit. cbn [Z.eqb]. unfold decode_literal. rewrite Hll.
      cbn [mbind outcome_bind].
      replace (len data <? pos1 + length) with false by (symmetry; apply Z.ltb_ge; lia).
      replace (uncompressed_len <? out_pos + length) with true
        by (symmetry; apply Z.ltb_lt; lia).
      eexists. split; reflexivity.
    - replace (Z.land tag 3 =? 0) with false by (symmetry; apply Z.eqb_neq; exact Hcopy).
      unfold decode_copy. rewrite Hhead. cbn [mbind outcome_bind].
      replace (offset =? 0) with false by (symmetry; apply Z.eqb_neq; exact Hnz).
      replace (out_pos <? offset) with false by (symmetry; apply Z.ltb_ge; lia).
      replace (uncompressed_len <? out_pos + length) with true
        by (symmetry; apply Z.ltb_lt; lia).
      eexists. split; [reflexivity |]. unfold copy_overflow.
      destruct (_ =? 1); [| destruct (_ =? 2)]; reflexivity. }
  rewrite <- Hkind. exact (decompress_fails_at _ _ _ _ Hreach Hcond Hstep).
Qed.

Lemma X9_output_overflow_witness :
  fails_with (decompress [x05; x00; x61; x05; x01]) Overflow.
Proof.
  apply (X9_output_overflow [x05; x00; x61; x05; x01] 5
           (State 3 [x61; x00; x00; x00; x00] 1) 5 5 5).
  - exists (State 1 (replicate 5 x00) 0), 1%nat. split; reflexivity.
  - reflexivity.
  - reflexivity.
  - right. split; [vm_compute; discriminate |].
    exists 1. split; [reflexivity | split; [discriminate | simpl; lia]].
  - simpl. lia.
Defined.

(** X10: when [decompress] comes to an element that the input does not
    hold in full (the length bytes of a literal, its payload, or the offset
    bytes of a copy are cut off), it fails with a Truncated error. *)
Theorem X10_truncated_element (data : list byte) (uncompressed_len : Z)
    (s : decoder_state) (tag : Z) :
  reaches data uncompressed_len s →
  loop_condition data uncompressed_len s = true →
  getitem data (st_pos s) = Ok tag →
  (Z.land tag 0x03 = 0 ∧ 60 < Z.shiftr tag 2 + 1 ∧
   len data < st_pos s + 1 + (Z.shiftr tag 2 + 1 - 60)) ∨
  (Z.land tag 0x03 = 0 ∧
   ∃ length pos1,
     literal_length data (st_pos s + 1) tag = Ok (length, pos1) ∧
     len data < pos1 + length) ∨
  (Z.land tag 0x03 ≠ 0 ∧
   len data < st_pos s + 1 + offset_bytes (Z.land tag 0x03)) →
  fails_with (decompress data) Truncated.
Proof.
  intros Hreach Hcond Htag Hcut.
  destruct s as [pos output out_pos]. cbn [st_pos st_out_pos] in *.
  assert (∃ m, decode_element data uncompressed_len (State pos output out_pos) =
                 Raise (CompressionError m) ∧ kind_of m = Truncated)
    as (m & Hstep & Hkind).
  { rewrite (decode_element_tag _ _ _ _ _ _ Htag).
    destruct Hcut as [(Hlit & Hext & Hshort)
                     | [(Hlit & length & pos1 & Hll & Hshort) | (Hcopy & Hshort)]].
    - rewrite Hlit. cbn [Z.eqb]. unfold decode_literal, literal_length.
      replace (Z.shiftr tag 2 + 1 <=? 60) with false by (symmetry; apply Z.leb_gt; lia).
      replace (len data <? pos + 1 + (Z.shiftr tag 2 + 1 - 60)) with true
        by (symmetry; apply Z.ltb_lt; lia).
      eexists. split; reflexivity.
    - rewrite Hlit. cbn [Z.eqb]. unfold decode_literal. rewrite Hll.
      cbn [mbind outcome_bind].
      replace (len data <? pos1 + length) with true by (symmetry; apply Z.ltb_lt; lia).
      eexists. split; reflexivity.
    - replace (Z.land tag 3 =? 0) with false by (symmetry; apply Z.eqb_neq; exact Hcopy).
      unfold decode_copy, copy_header. unfold offset_bytes in Hshort.
      destruct (Z.land tag 3 =? 1); [| destruct (Z.land tag 3 =? 2)].
      + replace (len data <=? pos + 1) with true by (symmetry; apply Z.leb_le; lia).
        eexists. split; reflexivity.
      + replace (len data <? pos + 1 + 2) with true by (symmetry; apply Z.ltb_lt; lia).
        eexists. split; reflexivity.
      + replace (len data <? pos + 1 + 4) with true by (symmetry; apply Z.ltb_lt; lia).
        eexists. split; reflexivity. }
  rewrite <- Hkind. exact (decompress_fails_at _ _ _ _ Hreach Hcond Hstep).
Qed.

Lemma X10_truncated_element_witness :
  fails_with (decompress [x0a; x00; x61; x0e; x01]) Truncated.
Proof.
  apply (X10_truncated_element [x0a; x00; x61; x0e; x01] 10
           (State 3 (x61 :: replicate 9 x00) 1) 14).
  - exists (State 1 (replicate 10 x00) 0), 1%nat. split; reflexivity.
  - reflexivity.
  - reflexivity.
  - right. right. split; [vm_compute; discriminate | vm_compute; reflexivity].
Defined.

(** ** The bytes produced so far *)

Lemma decode_element_prefix (data : list byte) (uncompressed_len : Z)
    (s s' : decoder_state) :
  invariant data uncompressed_len s →
  loop_condition data uncompressed_len s = true →
  decode_element data uncompressed_len s = Ok s' →
  take (Z.to_nat (st_out_pos s)) (st_output s') =
  take (Z.to_nat (st_out_pos s)) (st_output s).
Proof.
  destruct s as [pos output out_pos]. intros Hinv Hcond Hstep.
  pose proof Hinv as (_ & Hout & Hlen). cbn [st_out_pos st_output] in *.
  destruct (decode_element_Ok _ _ _ _ _ _ Hinv Hcond Hstep)
    as (tag & _ & Htag & [(_ & length & pos1 & _ & Hl & Hp1 & _ & Hfit & ->)
                         | (_ & length & offset & pos1 & output' & _ & _ & _ & _ & _ & _
                            & (_ & Hlow & _) & ->)]);
    cbn [st_output].
  - rewrite set_slice_take_drop by lia.
    apply take_app_length'. rewrite length_take. unfold len in *. lia.
  - apply list_eq. intros i.
    destruct (Nat.lt_ge_cases i (Z.to_nat out_pos)) as [Hi | Hi].
    + rewrite !lookup_take_lt by exact Hi.
      specialize (Hlow (Z.of_nat i) ltac:(lia)). unfold item in Hlow.
      rewrite Nat2Z.id in Hlow. exact Hlow.
    + rewrite !lookup_take_ge by exact Hi. reflexivity.
Qed.

Lemma decode_head_prefix (data : list byte) (uncompressed_len : Z) (n : nat) :
  ∀ s0 s,
    invariant data uncompressed_len s0 →
    decode_head n data uncompressed_len s0 = Some s →
    take (Z.to_nat (st_out_pos s0)) (st_output s) =
    take (Z.to_nat (st_out_pos s0)) (st_output s0).
Proof.
  induction n as [| n IH]; intros s0 s Hinv.
  - simpl. intros [= <-]. reflexivity.
  - cbn [decode_head].
    destruct (loop_condition data uncompressed_len s0) eqn:Hcond; [| discriminate].
    destruct (decode_element data uncompressed_len s0) as [s1 | e |] eqn:Hstep;
      [| discriminate | discriminate].
    destruct (decode_element_step _ _ _ _ Hinv Hcond Hstep) as (Hinv1 & _ & Hlt).
    pose proof (decode_element_prefix _ _ _ _ Hinv Hcond Hstep) as Hone.
    intros Hrest. specialize (IH _ _ Hinv1 Hrest).
    destruct Hinv as (_ & Hout & _).
    rewrite <- Hone.
    replace (Z.to_nat (st_out_pos s0))
      with (Z.to_nat (st_out_pos s0) `min` Z.to_nat (st_out_pos s1))%nat by lia.
    rewrite <- !take_take. rewrite IH. reflexivity.
Qed.

Lemma decode_head_join (data : list byte) (uncompressed_len : Z) (n : nat) :
  ∀ (m : nat) s0 s sf,
    decode_head n data uncompressed_len s0 = Some s →
    decode_head m data uncompressed_len s0 = Some sf →
    loop_condition data uncompressed_len sf = false →
    ∃ k, decode_head k data uncompressed_len s = Some sf.
Proof.
  induction n as [| n IH]; intros m s0 s sf.
  - simpl. intros [= <-] Hm _. exists m. exact Hm.
  - cbn [decode_head].
    destruct (loop_condition data uncompressed_len s0) eqn:Hcond; [| discriminate].
    destruct (decode_element data uncompressed_len s0) as [s1 | e |] eqn:Hstep;
      [| discriminate | discriminate].
    intros Hn Hm Hexit. destruct m as [| m].
    + simpl in Hm. injection Hm as <-. congruence.
    + cbn [decode_head] in Hm. rewrite Hcond, Hstep in Hm.
      exact (IH _ _ _ _ Hn Hm Hexit).
Qed.

(** X11: the bytes that [decompress] has produced are not changed by the
    passes that follow: at every head of the loop the first [out_pos]
    bytes of the output buffer are the first [out_pos] bytes of the
    result. *)
Theorem X11_produced_bytes_final (data : list byte) (uncompressed_len : Z)
    (s : decoder_state) (out : list byte) :
  reaches data uncompressed_len s →
  decompress data = Ok out →
  take (Z.to_nat (st_out_pos s)) out =
  take (Z.to_nat (st_out_pos s)) (st_output s).
Proof.
  intros (s0 & n & Hhead & Hn) Hok.
  assert (data ≠ []) as Hne.
  { intros ->. vm_compute in Hhead. discriminate. }
  destruct (decompress_Ok data out Hne Hok)
    as (ulen' & s0' & sf & Hhead' & Hloop & _ & _ & ->).
  rewrite Hhead in Hhead'. injection Hhead' as <- <-.
  destruct (decode_header_Ok _ _ _ Hhead) as (_ & _ & _ & Hinv0).
  destruct (decode_loop_Ok _ _ _ _ _ Hloop) as (Hexit & m & Hm).
  destruct (decode_head_run _ _ _ _ _ Hinv0 Hn) as [Hinv _].
  destruct (decode_head_join _ _ _ _ _ _ _ Hn Hm Hexit) as [k Hk].
  exact (decode_head_prefix _ _ _ _ _ Hinv Hk).
Qed.

Lemma X11_produced_bytes_final_witness :
  take (Z.to_nat 2) [x41; x42; x41; x42; x41; x42; x41; x42] =
  take (Z.to_nat 2) [x41; x42; x00; x00; x00; x00; x00; x00].
Proof.
  apply (X11_produced_bytes_final [x08; x04; x41; x42; x09; x02] 8
           (State 4 [x41; x42; x00; x00; x00; x00; x00; x00] 2)
           [x41; x42; x41; x42; x41; x42; x41; x42]).
  - exists (State 1 (replicate 8 x00) 0), 1%nat. split; reflexivity.
  - reflexivity.
Defined.

(** ** Stored data *)

Lemma byte_val_of (z : Z) : 0 ≤ z < 256 → byte_val (byte_of z) = z.
Proof.
  intros Hz. unfold byte_of, byte_val.
  destruct (Byte.of_N (Z.to_N z)) as [b |] eqn:Hb.
  - apply Byte.to_of_N in Hb. lia.
  - apply Byte.of_N_None_iff in Hb. lia.
Qed.

Lemma continuation_spec (b : byte) : continuation b = (128 <=? byte_val b).
Proof. destruct b; reflexivity. Qed.

Lemma land_127_mod (x : Z) : Z.land x 0x7F = x mod 128.
Proof. change 0x7F with (Z.ones 7). rewrite Z.land_ones by lia. reflexivity. Qed.

Lemma encode_varint_spec (fuel : nat) :
  ∀ n, 0 ≤ n < 128 ^ Z.of_nat fuel → (1 ≤ fuel)%nat →
       (1 ≤ length (encode_varint fuel n) ≤ fuel)%nat ∧
       base128 (encode_varint fuel n) = n ∧
       ∀ rest, continuation_run (encode_varint fuel n ++ rest) =
               (length (encode_varint fuel n) - 1)%nat.
Proof.
  induction fuel as [| fuel IH]; intros n Hn Hfuel; [lia |].
  cbn [encode_varint]. destruct (Z.ltb_spec n 128) as [Hsmall | Hbig].
  - cbn [length base128 app continuation_run].
    rewrite continuation_spec, byte_val_of by lia.
    replace (128 <=? n) with false by (symmetry; apply Z.leb_gt; lia).
    rewrite land_127_mod, Z.mod_small by lia. repeat split; lia.
  - assert (1 ≤ fuel)%nat as Hf.
    { destruct fuel as [| fuel]; [| lia]. change (128 ^ Z.of_nat 1) with 128 in Hn. lia. }
    assert (0 ≤ n / 128 < 128 ^ Z.of_nat fuel) as Hq.
    { replace (Z.of_nat (S fuel)) with (1 + Z.of_nat fuel) in Hn by lia.
      rewrite Z.pow_add_r in Hn by lia. change (128 ^ 1) with 128 in Hn.
      split; [apply Z.div_pos; lia | apply Z.div_lt_upper_bound; lia]. }
    destruct (IH (n / 128) Hq Hf) as (Hlen & Hval & Hrun).
    pose proof (Z.mod_pos_bound n 128 ltac:(lia)) as Hmod.
    cbn [length base128 app continuation_run].
    rewrite continuation_spec, byte_val_of by lia.
    replace (128 <=? 128 + n mod 128) with true by (symmetry; apply Z.leb_le; lia).
    rewrite land_127_mod, Hval.
    replace ((128 + n mod 128) mod 128) with (n mod 128).
    2:{ replace (128 + n mod 128) with (n mod 128 + 1 * 128) by lia.
        rewrite Z.mod_add by lia. symmetry. apply Z.mod_small. lia. }
    repeat split; try lia.
    + pose proof (Z.div_mod n 128 ltac:(lia)). lia.
    + intros rest. rewrite Hrun. lia.
Qed.

Lemma decode_varint_encode (n : Z) (rest : list byte) :
  0 ≤ n < 2 ^ 35 →
  _decode_varint (encode_varint 5 n ++ rest) 0 = Ok (n, len (encode_varint 5 n)).
Proof.
  intros Hn.
  destruct (encode_varint_spec 5 n) as (Hlen & Hval & Hrun);
    [change (128 ^ Z.of_nat 5) with (2 ^ 35); lia | lia |].
  destruct (decode_varint_cases (encode_varint 5 n ++ rest) 0 (Z.le_refl 0))
    as (_ & _ & Hok).
  change (drop (Z.to_nat 0) ?l) with l in Hok. rewrite Hrun in Hok.
  rewrite Hok by (rewrite ?length_app; lia).
  replace (S (length (encode_varint 5 n) - 1)) with (length (encode_varint 5 n)) by lia.
  rewrite take_app_length, Hval. apply f_equal, pair_equal_spec.
  split; [reflexivity | unfold len; lia].
Qed.

Lemma le_bytes_spec (k : nat) :
  ∀ m, 0 ≤ m < 256 ^ Z.of_nat k →
       length (le_bytes k m) = k ∧ little_endian (le_bytes k m) = m.
Proof.
  induction k as [| k IH]; intros m Hm; cbn [le_bytes length little_endian].
  - change (256 ^ Z.of_nat 0) with 1 in Hm. split; [reflexivity | lia].
  - assert (0 ≤ m / 256 < 256 ^ Z.of_nat k) as Hq.
    { replace (Z.of_nat (S k)) with (1 + Z.of_nat k) in Hm by lia.
      rewrite Z.pow_add_r in Hm by lia. change (256 ^ 1) with 256 in Hm.
      split; [apply Z.div_pos; lia | apply Z.div_lt_upper_bound; lia]. }
    destruct (IH _ Hq) as [Hlen Hval].
    pose proof (Z.mod_pos_bound m 256 ltac:(lia)) as Hmod.
    rewrite byte_val_of, Hlen, Hval by lia.
    pose proof (Z.div_mod m 256 ltac:(lia)). split; [reflexivity | lia].
Qed.

(** The header that [literal_header] builds is a literal tag that
    [literal_length] reads back. *)
Lemma literal_header_spec (n : Z) (pre payload : list byte) :
  1 ≤ n ≤ 2 ^ 32 →
  ∃ (tag : byte) (mid : list byte),
    literal_header n = tag :: mid ∧
    Z.land (byte_val tag) 0x03 = 0 ∧
    literal_length (pre ++ tag :: mid ++ payload) (len pre + 1) (byte_val tag) =
      Ok (n, len pre + 1 + len mid).
Proof.
  intros Hn. pose proof (len_nonneg pre) as Hpre. unfold literal_header.
  assert (∀ x, 0 ≤ x < 64 → Z.land (x * 4) 3 = 0 ∧ Z.shiftr (x * 4) 2 = x) as Hbits.
  { intros x Hx. split.
    - change 3 with (Z.ones 2). rewrite Z.land_ones by lia.
      change (2 ^ 2) with 4. apply Z.mod_mul. lia.
    - rewrite Z.shiftr_div_pow2 by lia. change (2 ^ 2) with 4.
      apply Z.div_mul. lia. }
  destruct (Z.leb_spec n 60) as [Hdirect | Hext].
  - destruct (Hbits (n - 1) ltac:(lia)) as [Hland Hshr].
    exists (byte_of ((n - 1) * 4)), []. rewrite byte_val_of by lia.
    split; [reflexivity | split; [exact Hland |]].
    rewrite literal_length_direct by (rewrite Hshr; lia).
    rewrite Hshr. change (len []) with 0.
    apply f_equal, pair_equal_spec. split; lia.
  - set (k := if n - 1 <? 2 ^ 8 then 1%nat
              else if n - 1 <? 2 ^ 16 then 2%nat
              else if n - 1 <? 2 ^ 24 then 3%nat else 4%nat).
    assert ((1 ≤ k ≤ 4)%nat ∧ 0 ≤ n - 1 < 256 ^ Z.of_nat k) as [Hk Hm].
    { unfold k.
      destruct (Z.ltb_spec (n - 1) (2 ^ 8));
        [| destruct (Z.ltb_spec (n - 1) (2 ^ 16));
           [| destruct (Z.ltb_spec (n - 1) (2 ^ 24))]].
      - change (256 ^ Z.of_nat 1) with (2 ^ 8). lia.
      - change (256 ^ Z.of_nat 2) with (2 ^ 16). lia.
      - change (256 ^ Z.of_nat 3) with (2 ^ 24). lia.
      - change (256 ^ Z.of_nat 4) with (2 ^ 32). lia. }
    destruct (le_bytes_spec k (n - 1) Hm) as [Hlen Hval].
    destruct (Hbits (59 + Z.of_nat k) ltac:(lia)) as [Hland Hshr].
    exists (byte_of ((59 + Z.of_nat k) * 4)), (le_bytes k (n - 1)).
    rewrite byte_val_of by lia.
    split; [reflexivity | split; [exact Hland |]].
    assert (len (le_bytes k (n - 1)) = Z.of_nat k) as Hmid by (unfold len; lia).
    pose proof (len_nonneg payload) as Hpay.
    rewrite literal_length_extended; rewrite ?Hshr.
    + replace (59 + Z.of_nat k + 1 - 60) with (len (le_bytes k (n - 1))) by lia.
      replace (pre ++ byte_of ((59 + Z.of_nat k) * 4) :: le_bytes k (n - 1) ++ payload)
        with ((pre ++ [byte_of ((59 + Z.of_nat k) * 4)]) ++ le_bytes k (n - 1) ++ payload)
        by (rewrite <- app_assoc; reflexivity).
      replace (len pre + 1) with (len (pre ++ [byte_of ((59 + Z.of_nat k) * 4)]))
        by (rewrite len_app; reflexivity).
      rewrite slice_middle, Hval. apply f_equal, pair_equal_spec. split; lia.
    + lia.
    + lia.
    + rewrite len_app, len_cons, len_app. lia.
Qed.

(** A stream of a varint and one literal element of the declared length. *)
Lemma decompress_one_literal (hdr : list byte) (tag : byte) (mid payload : list byte) :
  1 ≤ len payload →
  _decode_varint (hdr ++ tag :: mid ++ payload) 0 = Ok (len payload, len hdr) →
  Z.land (byte_val tag) 0x03 = 0 →
  literal_length (hdr ++ tag :: mid ++ payload) (len hdr + 1) (byte_val tag) =
    Ok (len payload, len hdr + 1 + len mid) →
  decompress (hdr ++ tag :: mid ++ payload) = Ok payload.
Proof.
  intros Hn Hvar Hkind Hll.
  pose proof (len_nonneg mid) as Hmid. pose proof (len_nonneg hdr) as Hhdr.
  set (data := hdr ++ tag :: mid ++ payload) in *.
  assert (len data = len hdr + 1 + len mid + len payload) as Hdata.
  { unfold data. rewrite len_app, len_cons, len_app. lia. }
  set (s0 := State (len hdr) (replicate (Z.to_nat (len payload)) x00) 0).
  assert (decode_header data = Ok (len payload, s0)) as Hhead.
  { unfold decode_header. rewrite Hvar. cbn [mbind outcome_bind]. unfold bytearray.
    replace (len payload <? 0) with false by (symmetry; apply Z.ltb_ge; lia).
    reflexivity. }
  assert (loop_condition data (len payload) s0 = true) as Hcond.
  { unfold loop_condition, s0. cbn [st_pos st_out_pos].
    apply andb_true_iff. split; apply Z.ltb_lt; lia. }
  assert (decode_element data (len payload) s0 =
          Ok (State (len data) payload (len payload))) as Hstep.
  { unfold s0. rewrite (decode_element_tag _ _ _ _ _ (byte_val tag)).
    2:{ unfold data. apply getitem_middle. }
    rewrite Hkind. cbn [Z.eqb]. unfold decode_literal.
    rewrite Hll. cbn [mbind outcome_bind].
    replace (len data <? len hdr + 1 + len mid + len payload) with false
      by (symmetry; apply Z.ltb_ge; lia).
    replace (len payload <? 0 + len payload) with false
      by (symmetry; apply Z.ltb_ge; lia).
    f_equal. f_equal; try lia.
    assert (slice data (len hdr + 1 + len mid) (len hdr + 1 + len mid + len payload)
            = payload) as ->.
    { unfold data.
      replace (hdr ++ tag :: mid ++ payload) with ((hdr ++ tag :: mid) ++ payload)
        by (rewrite <- app_assoc; reflexivity).
      replace (len hdr + 1 + len mid) with (len (hdr ++ tag :: mid))
        by (rewrite len_app, len_cons; lia).
      apply slice_suffix. }
    replace (len payload) with (len (replicate (Z.to_nat (len payload)) x00)) at 2
      by (unfold len; rewrite length_replicate; lia).
    apply set_slice_all. }
  assert (reaches data (len payload) (State (len data) payload (len payload))) as Hreach.
  { exists s0, 1%nat. split; [exact Hhead |].
    cbn [decode_head]. rewrite Hcond, Hstep. reflexivity. }
  assert (loop_condition data (len payload) (State (len data) payload (len payload))
          = false) as Hexit.
  { unfold loop_condition. cbn [st_pos st_out_pos]. rewrite !Z.ltb_irrefl. reflexivity. }
  pose proof (decompress_exits_at _ _ _ Hreach Hexit) as Hrun.
  clearbody data. unfold decompress. destruct data as [| x l].
  - change (len []) with 0 in Hdata. lia.
  - rewrite Hrun. cbn [mbind outcome_bind st_out_pos st_output].
    rewrite Z.eqb_refl. reflexivity.
Qed.

(** X12: stored data decodes to itself: for every byte sequence of at
    most [2 ^ 32] bytes, the stream made of the varint of its length and,
    when it is not empty, one literal element with the shortest tag
    decodes to the byte sequence. *)
Theorem X12_stored_round_trip (payload : list byte) :
  len payload ≤ 2 ^ 32 → decompress (stored payload) = Ok payload.
Proof.
  intros Hn. unfold stored. destruct payload as [| b payload].
  - reflexivity.
  - set (p := b :: payload) in *.
    assert (1 ≤ len p) as Hpos.
    { unfold p. rewrite len_cons. pose proof (len_nonneg payload). lia. }
    destruct (literal_header_spec (len p) (encode_varint 5 (len p)) p)
      as (tag & mid & -> & Hkind & Hll); [lia |].
    cbn [app] in *.
    apply decompress_one_literal; [exact Hpos | | exact Hkind | exact Hll].
    apply decode_varint_encode. change (2 ^ 35) with 34359738368.
    change (2 ^ 32) with 4294967296 in Hn. lia.
Qed.

Lemma X12_stored_round_trip_witness : decompress (stored hello) = Ok hello.
Proof. apply (X12_stored_round_trip hello). vm_compute. discriminate. Defined.

Example stored_hello : stored hello = [x0d; x30] ++ hello.
Proof. reflexivity. Qed.

Example stored_empty : stored [] = [x00].
Proof. reflexivity. Qed.

Example stored_61_bytes :
  stored (replicate 61 x41) = [x3d; xf0; x3c] ++ replicate 61 x41.
Proof. reflexivity. Qed.

Example stored_1000_bytes :
  stored (replicate 1000 x41) = [xe8; x07; xf4; xe7; x03] ++ replicate 1000 x41.
Proof. vm_compute. reflexivity. Qed.

(** ** Streams cut short *)

Lemma getitem_app_l (l extra : list byte) (i : Z) :
  0 ≤ i < len l → getitem (l ++ extra) i = getitem l i.
Proof.
  intros Hi. destruct (getitem_in_range l i Hi) as (b & _ & Hget).
  rewrite Hget. apply getitem_app; [lia | exact Hget].
Qed.

Lemma literal_length_cut (data extra : list byte) (pos tag length pos1 : Z) :
  0 ≤ pos ≤ len data →
  literal_length (data ++ extra) pos tag = Ok (length, pos1) →
  (pos1 ≤ len data → literal_length data pos tag = Ok (length, pos1)) ∧
  (len data < pos1 →
   literal_length data pos tag = Raise (CompressionError Truncated_literal_length)).
Proof.
  intros [Hpos Hle] Hfull.
  destruct (Z.le_gt_cases (Z.shiftr tag 2 + 1) 60) as [Hdirect | Hext].
  - rewrite literal_length_direct in Hfull by exact Hdirect. injection Hfull as <- <-.
    rewrite literal_length_direct by exact Hdirect.
    split; [reflexivity | lia].
  - destruct (Z.le_gt_cases (pos + (Z.shiftr tag 2 + 1 - 60)) (len data)) as [Hin | Hcut].
    + pose proof (literal_length_extended data pos tag Hext Hpos Hin) as Hdata.
      rewrite (literal_length_app _ extra _ _ _ Hpos Hdata) in Hfull.
      injection Hfull as <- <-. split; [intros _; exact Hdata | lia].
    + assert (literal_length data pos tag =
                Raise (CompressionError Truncated_literal_length)) as Hraise.
      { unfold literal_length.
        replace (Z.shiftr tag 2 + 1 <=? 60) with false by (symmetry; apply Z.leb_gt; lia).
        replace (len data <? pos + (Z.shiftr tag 2 + 1 - 60)) with true
          by (symmetry; apply Z.ltb_lt; lia).
        reflexivity. }
      split; [| intros _; exact Hraise].
      intros Hle1. exfalso. revert Hfull. unfold literal_length.
      replace (Z.shiftr tag 2 + 1 <=? 60) with false by (symmetry; apply Z.leb_gt; lia).
      destruct (len (data ++ extra) <? pos + (Z.shiftr tag 2 + 1 - 60));
        [discriminate |].
      destruct (for_range _ _ _) as [t | e |]; cbn [mbind outcome_bind];
        [| discriminate | discriminate].
      intros [= _ <-]. lia.
Qed.

Lemma copy_header_cut (data extra : list byte) (element_type tag pos : Z)
    (length offset pos1 : Z) :
  0 ≤ pos ≤ len data →
  copy_header (data ++ extra) element_type tag pos = Ok (length, offset, pos1) →
  (pos1 ≤ len data → copy_header data element_type tag pos = Ok (length, offset, pos1)) ∧
  (len data < pos1 →
   ∃ m, copy_header data element_type tag pos = Raise (CompressionError m) ∧
        kind_of m = Truncated).
Proof.
  intros [Hpos Hle] Hfull.
  assert (pos1 = pos + offset_bytes element_type) as ->.
  { revert Hfull. unfold copy_header, offset_bytes.
    destruct (element_type =? 1); [| destruct (element_type =? 2)].
    - destruct (_ <=? pos); [discriminate |].
      destruct (getitem _ pos) as [d0 | |]; [| discriminate | discriminate].
      cbn [mbind outcome_bind]. intros [= _ _ <-]. reflexivity.
    - destruct (_ <? pos + 2); [discriminate |].
      destruct (getitem _ pos) as [d0 | |]; [| discriminate | discriminate].
      destruct (getitem _ (pos + 1)) as [d1 | |]; [| discriminate | discriminate].
      cbn [mbind outcome_bind]. intros [= _ _ <-]. reflexivity.
    - destruct (_ <? pos + 4); [discriminate |].
      destruct (getitem _ pos) as [d0 | |]; [| discriminate | discriminate].
      destruct (getitem _ (pos + 1)) as [d1 | |]; [| discriminate | discriminate].
      destruct (getitem _ (pos + 2)) as [d2 | |]; [| discriminate | discriminate].
      destruct (getitem _ (pos + 3)) as [d3 | |]; [| discriminate | discriminate].
      cbn [mbind outcome_bind]. intros [= _ _ <-]. reflexivity. }
  split.
  - intros Hin.
    destruct (copy_header data element_type tag pos) as [r | e |] eqn:Hdata.
    + rewrite (copy_header_app _ extra _ _ _ _ Hpos Hdata) in Hfull.
      congruence.
    + exfalso. revert Hdata. unfold copy_header, offset_bytes in *.
      destruct (element_type =? 1); [| destruct (element_type =? 2)].
      * replace (len data <=? pos) with false by (symmetry; apply Z.leb_gt; lia).
        destruct (getitem_in_range data pos ltac:(lia)) as (b0 & _ & ->). discriminate.
      * replace (len data <? pos + 2) with false by (symmetry; apply Z.ltb_ge; lia).
        destruct (getitem_in_range data pos ltac:(lia)) as (b0 & _ & ->).
        destruct (getitem_in_range data (pos + 1) ltac:(lia)) as (b1 & _ & ->).
        discriminate.
      * replace (len data <? pos + 4) with false by (symmetry; apply Z.ltb_ge; lia).
        destruct (getitem_in_range data pos ltac:(lia)) as (b0 & _ & ->).
        destruct (getitem_in_range data (pos + 1) ltac:(lia)) as (b1 & _ & ->).
        destruct (getitem_in_range data (pos + 2) ltac:(lia)) as (b2 & _ & ->).
        destruct (getitem_in_range data (pos + 3) ltac:(lia)) as (b3 & _ & ->).
        discriminate.
    + destruct (copy_header_fuel _ _ _ _ Hdata).
  - intros Hcut. unfold copy_header, offset_bytes in *.
    destruct (element_type =? 1); [| destruct (element_type =? 2)].
    + replace (len data <=? pos) with true by (symmetry; apply Z.leb_le; lia).
      eexists. split; reflexivity.
    + replace (len data <? pos + 2) with true by (symmetry; apply Z.ltb_lt; lia).
      eexists. split; reflexivity.
    + replace (len data <? pos + 4) with true by (symmetry; apply Z.ltb_lt; lia).
      eexists. split; reflexivity.
Qed.

(** A pass on a stream that was cut behind the tag of the element: it does
    what the pass on the whole stream does when the element is within the
    cut stream, and raises a Truncated error when it is not. *)
Lemma decode_element_cut (data extra : list byte) (uncompressed_len : Z)
    (s s1 : decoder_state) :
  invariant data uncompressed_len s →
  loop_condition data uncompressed_len s = true →
  decode_element (data ++ extra) uncompressed_len s = Ok s1 →
  (st_pos s1 ≤ len data ∧ decode_element data uncompressed_len s = Ok s1) ∨
  (len data < st_pos s1 ∧
   ∃ m, decode_element data uncompressed_len s = Raise (CompressionError m) ∧
        kind_of m = Truncated).
Proof.
  destruct s as [pos output out_pos]. intros Hinv Hcond Hfull.
  pose proof (len_nonneg extra) as Hextra.
  pose proof Hinv as (Hpos & Hout & Hlen). cbn [st_pos st_out_pos st_output] in *.
  assert (pos < len data ∧ out_pos < uncompressed_len) as [Hp Ho].
  { unfold loop_condition in Hcond. cbn [st_pos st_out_pos] in Hcond.
    apply andb_true_iff in Hcond as [H1 H2].
    apply Z.ltb_lt in H1. apply Z.ltb_lt in H2. lia. }
  assert (invariant (data ++ extra) uncompressed_len (State pos output out_pos))
    as Hinv'.
  { unfold invariant. cbn [st_pos st_out_pos st_output]. rewrite len_app. lia. }
  assert (loop_condition (data ++ extra) uncompressed_len (State pos output out_pos)
          = true) as Hcond'.
  { unfold loop_condition. cbn [st_pos st_out_pos]. rewrite len_app.
    apply andb_true_iff. split; apply Z.ltb_lt; lia. }
  destruct (decode_element_Ok _ _ _ _ _ _ Hinv' Hcond' Hfull)
    as (tag & Htag & Hrange &
        [(Hkind & length & pos1 & Hll & Hl & Hp1 & Hin & Hfit & ->)
        | (Hkind & length & offset & pos1 & output' & Hhead & Hoff & Hl & Hp1 & Hfit
           & Hrun & _ & ->)]);
    cbn [st_pos]; rewrite getitem_app_l in Htag by lia;
    rewrite (decode_element_tag _ _ _ _ _ _ Htag).
  - rewrite Hkind. cbn [Z.eqb]. unfold decode_literal.
    destruct (literal_length_cut data extra (pos + 1) tag length pos1 ltac:(lia) Hll)
      as [Hsame Hshort].
    destruct (Z.le_gt_cases pos1 (len data)) as [Hin1 | Hcut1].
    + rewrite (Hsame Hin1). cbn [mbind outcome_bind].
      destruct (Z.le_gt_cases (pos1 + length) (len data)) as [Hin2 | Hcut2].
      * left. split; [exact Hin2 |].
        replace (len data <? pos1 + length) with false
          by (symmetry; apply Z.ltb_ge; lia).
        replace (uncompressed_len <? out_pos + length) with false
          by (symmetry; apply Z.ltb_ge; lia).
        rewrite slice_app by lia. reflexivity.
      * right. split; [lia |].
        replace (len data <? pos1 + length) with true
          by (symmetry; apply Z.ltb_lt; lia).
        eexists. split; reflexivity.
    + right. split; [lia |]. rewrite (Hshort Hcut1). cbn [mbind outcome_bind].
      eexists. split; reflexivity.
  - replace (Z.land tag 3 =? 0) with false by (symmetry; apply Z.eqb_neq; exact Hkind).
    unfold decode_copy.
    destruct (copy_header_cut data extra _ tag (pos + 1) length offset pos1
                ltac:(lia) Hhead) as [Hsame Hshort].
    destruct (Z.le_gt_cases pos1 (len data)) as [Hin1 | Hcut1].
    + left. split; [exact Hin1 |]. rewrite (Hsame Hin1). cbn [mbind outcome_bind].
      replace (offset =? 0) with false by (symmetry; apply Z.eqb_neq; lia).
      replace (out_pos <? offset) with false by (symmetry; apply Z.ltb_ge; lia).
      replace (uncompressed_len <? out_pos + length) with false
        by (symmetry; apply Z.ltb_ge; lia).
      rewrite Hrun. reflexivity.
    + right. split; [exact Hcut1 |].
      destruct (Hshort Hcut1) as (m & Hm & Hk). rewrite Hm.
      exists m. split; [reflexivity | exact Hk].
Qed.

Lemma decode_head_snoc (data : list byte) (uncompressed_len : Z) (n : nat) :
  ∀ s0 s s1,
    decode_head n data uncompressed_len s0 = Some s →
    loop_condition data uncompressed_len s = true →
    decode_element data uncompressed_len s = Ok s1 →
    decode_head (S n) data uncompressed_len s0 = Some s1.
Proof.
  induction n as [| n IH]; intros s0 s s1.
  - simpl. intros [= <-] Hcond Hstep. rewrite Hcond, Hstep. reflexivity.
  - intros Hn Hcond Hstep. cbn [decode_head] in Hn.
    change (decode_head (S (S n)) data uncompressed_len s0)
      with (if loop_condition data uncompressed_len s0
            then match decode_element data uncompressed_len s0 with
                 | Ok s' => decode_head (S n) data uncompressed_len s'
                 | _ => None
                 end
            else None).
    destruct (loop_condition data uncompressed_len s0); [| discriminate].
    destruct (decode_element data uncompressed_len s0) as [s' | e |];
      [| discriminate | discriminate].
    exact (IH _ _ _ Hn Hcond Hstep).
Qed.

Lemma decompress_mismatch_at (data : list byte) (uncompressed_len : Z)
    (s : decoder_state) :
  reaches data uncompressed_len s →
  loop_condition data uncompressed_len s = false →
  st_out_pos s ≠ uncompressed_len →
  fails_with (decompress data) SizeMismatch.
Proof.
  intros Hreach Hcond Hneq.
  destruct (reaches_loop _ _ _ Hreach) as (Hne & _).
  pose proof (decompress_exits_at _ _ _ Hreach Hcond) as Hloop.
  unfold decompress. destruct data as [| b data]; [congruence |].
  rewrite Hloop. cbn [mbind outcome_bind].
  replace (st_out_pos s =? uncompressed_len) with false
    by (symmetry; apply Z.eqb_neq; exact Hneq).
  apply fails_with_Raise. reflexivity.
Qed.

Lemma decode_head_cut (data extra : list byte) (uncompressed_len : Z) (n : nat) :
  ∀ s sf,
    reaches data uncompressed_len s →
    decode_head n (data ++ extra) uncompressed_len s = Some sf →
    len data < st_pos sf →
    fails_with (decompress data) Truncated ∨ fails_with (decompress data) SizeMismatch.
Proof.
  induction n as [| n IH]; intros s sf Hreach.
  - simpl. intros [= <-] Hcut.
    destruct (reaches_loop _ _ _ Hreach) as (_ & ((_ & Hle) & _) & _). lia.
  - cbn [decode_head].
    destruct (loop_condition (data ++ extra) uncompressed_len s) eqn:Hcond';
      [| discriminate].
    destruct (decode_element (data ++ extra) uncompressed_len s) as [s1 | e |] eqn:Hfull;
      [| discriminate | discriminate].
    intros Hrest Hcut.
    destruct (reaches_loop _ _ _ Hreach) as (_ & Hinv & _).
    destruct (loop_condition data uncompressed_len s) eqn:Hcond.
    + destruct (decode_element_cut _ _ _ _ _ Hinv Hcond Hfull)
        as [[Hin Hsame] | [Hout (m & Hraise & Hk)]].
      * apply (IH s1 sf); [| exact Hrest | exact Hcut].
        destruct Hreach as (s0 & k & Hhead & Hk).
        exists s0, (S k). split; [exact Hhead |].
        exact (decode_head_snoc _ _ _ _ _ _ Hk Hcond Hsame).
      * left. rewrite <- Hk. exact (decompress_fails_at _ _ _ _ Hreach Hcond Hraise).
    + right. apply (decompress_mismatch_at _ _ _ Hreach Hcond).
      unfold loop_condition in Hcond'. apply andb_true_iff in Hcond' as [_ H].
      apply Z.ltb_lt in H. lia.
Qed.

(** X13: a stream that decodes with all of its bytes consumed does not
    decode when bytes are cut off its end: what is left, when it is not
    empty, fails with a Truncated or a SizeMismatch error. *)
Theorem X13_cut_stream_fails (data extra out : list byte)
    (uncompressed_len : Z) (s : decoder_state) :
  data ≠ [] → extra ≠ [] →
  decompress (data ++ extra) = Ok out →
  decompress_loop (data ++ extra) = Ok (uncompressed_len, s) →
  st_pos s = len (data ++ extra) →
  fails_with (decompress data) Truncated ∨ fails_with (decompress data) SizeMismatch.
Proof.
  intros Hne Hextra Hok Hrun Hall.
  assert (0 < len extra) as Hlen.
  { destruct extra as [| x l]; [congruence |].
    rewrite len_cons. pose proof (len_nonneg l). lia. }
  assert (data ++ extra ≠ []) as Hne'.
  { destruct data; [congruence | discriminate]. }
  destruct (decompress_Ok _ _ Hne' Hok)
    as (ulen & s0 & sf & Hhead & Hloop & Hrun' & _ & _).
  rewrite Hrun in Hrun'. injection Hrun' as <- <-.
  destruct (decode_header_Ok _ _ _ Hhead) as (Hvar & Hbuf & Hout0 & _).
  destruct (decode_loop_Ok _ _ _ _ _ Hloop) as (_ & n & Hn).
  destruct (decode_varint_cases data 0 (Z.le_refl 0)) as (Hbig & Hend & Hval).
  destruct (decode_varint_cases (data ++ extra) 0 (Z.le_refl 0))
    as (Hbig' & Hend' & Hval').
  change (drop (Z.to_nat 0) ?l) with l in *.
  pose proof (continuation_run_le data) as Hle.
  destruct (Nat.eq_dec (continuation_run data) (length data)) as [Heq | Hneq].
  - left.
    assert (continuation_run data ≤ continuation_run (data ++ extra))%nat as Hmono.
    { clear. induction data as [| b data IH]; simpl; [lia |].
      destruct (continuation b); lia. }
    destruct (Nat.le_gt_cases 5 (continuation_run (data ++ extra))) as [H5 | H4].
    { rewrite Hbig' in Hvar by exact H5. discriminate. }
    unfold decompress. destruct data as [| b data]; [congruence |].
    unfold decompress_loop, decode_header. rewrite Hend by lia.
    apply fails_with_Raise. reflexivity.
  - assert (_decode_varint data 0 = Ok (uncompressed_len, st_pos s0)) as Hvar0.
    { destruct (Nat.le_gt_cases 5 (continuation_run data)) as [H5 | H4].
      { rewrite Hbig' in Hvar; [discriminate |].
        rewrite continuation_run_extend by lia. exact H5. }
      pose proof (Hval ltac:(lia) ltac:(lia)) as Hdata.
      rewrite (decode_varint_app _ extra _ Hdata) in Hvar. congruence. }
    apply (decode_head_cut data extra uncompressed_len n s0 s).
    + exists s0, 0%nat. split; [| reflexivity].
      revert Hhead. unfold decode_header. rewrite Hvar, Hvar0. trivial.
    + exact Hn.
    + rewrite Hall, len_app. lia.
Qed.

Lemma X13_cut_stream_fails_witness :
  fails_with (decompress [x03; x08; x61; x62]) Truncated ∨
  fails_with (decompress [x03; x08; x61; x62]) SizeMismatch.
Proof.
  apply (X13_cut_stream_fails [x03; x08; x61; x62] [x63] [x61; x62; x63] 3
           (State 5 [x61; x62; x63] 3)).
  - discriminate.
  - discriminate.
  - reflexivity.
  - reflexivity.
  - reflexivity.
Defined.

(** ** Varints and literal lengths *)

(** X14: the varint reader reads back, at any cursor and whatever follows,
    the varint of every number below [2 ^ 35]: it returns the number and
    the cursor behind the varint, which has from 1 to 5 bytes. *)
Theorem X14_varint_round_trip (pre rest : list byte) (n : Z) :
  0 ≤ n < 2 ^ 35 →
  _decode_varint (pre ++ encode_varint 5 n ++ rest) (len pre) =
    Ok (n, len pre + len (encode_varint 5 n)) ∧
  1 ≤ len (encode_varint 5 n) ≤ 5.
Proof.
  intros Hn.
  destruct (encode_varint_spec 5 n) as (Hlen & Hval & Hrun);
    [change (128 ^ Z.of_nat 5) with (2 ^ 35); lia | lia |].
  split; [| unfold len; lia].
  destruct (decode_varint_cases (pre ++ encode_varint 5 n ++ rest) (len pre)
              (len_nonneg pre)) as (_ & _ & Hok).
  rewrite drop_len_app, Hrun in Hok.
  rewrite Hok by (rewrite ?length_app; lia).
  replace (S (length (encode_varint 5 n) - 1)) with (length (encode_varint 5 n)) by lia.
  rewrite take_app_length, Hval. apply f_equal, pair_equal_spec.
  split; [reflexivity | unfold len; lia].
Qed.

Lemma X14_varint_round_trip_witness :
  _decode_varint ([xff] ++ encode_varint 5 300 ++ [x00]) (len [xff]) =
    Ok (300, len [xff] + len (encode_varint 5 300)) ∧
  1 ≤ len (encode_varint 5 300) ≤ 5.
Proof. apply (X14_varint_round_trip [xff] [x00] 300). vm_compute. split; discriminate || reflexivity. Defined.

(** X15: the length that a literal tag and its length bytes give is from 1
    to [2 ^ 32], and at most 4 length bytes are read, all of them in the
    input. *)
Theorem X15_literal_length_bounds (data : list byte) (tag : byte)
    (pos length pos1 : Z) :
  0 ≤ pos ≤ len data →
  literal_length data pos (byte_val tag) = Ok (length, pos1) →
  1 ≤ length ≤ 2 ^ 32 ∧ pos ≤ pos1 ≤ pos + 4 ∧ pos1 ≤ len data.
Proof.
  intros Hpos Hll. pose proof (byte_val_range tag) as Htag.
  pose proof (shiftr_2_byte _ Htag) as Hsh.
  destruct (literal_length_range _ _ _ _ _ Htag Hpos Hll) as [Hl Hp1].
  destruct (Z.le_gt_cases (Z.shiftr (byte_val tag) 2 + 1) 60) as [Hdirect | Hext].
  - rewrite literal_length_direct in Hll by exact Hdirect. injection Hll as <- <-.
    change (2 ^ 32) with 4294967296. lia.
  - destruct (Z.le_gt_cases (pos + (Z.shiftr (byte_val tag) 2 + 1 - 60)) (len data))
      as [Hin | Hcut].
    + rewrite literal_length_extended in Hll by lia. injection Hll as <- <-.
      pose proof (little_endian_bound
                    (slice data pos (pos + (Z.shiftr (byte_val tag) 2 + 1 - 60)))) as Hb.
      rewrite length_slice in Hb by lia.
      assert (256 ^ (pos + (Z.shiftr (byte_val tag) 2 + 1 - 60) - pos) ≤ 256 ^ 4) as Hpow.
      { apply Z.pow_le_mono_r; lia. }
      change (256 ^ 4) with (2 ^ 32) in Hpow. lia.
    + exfalso. revert Hll. unfold literal_length.
      replace (Z.shiftr (byte_val tag) 2 + 1 <=? 60) with false
        by (symmetry; apply Z.leb_gt; lia).
      replace (len data <? pos + (Z.shiftr (byte_val tag) 2 + 1 - 60)) with true
        by (symmetry; apply Z.ltb_lt; lia).
      discriminate.
Qed.

Lemma X15_literal_length_bounds_witness :
  1 ≤ 2 ^ 32 ≤ 2 ^ 32 ∧ 1 ≤ 5 ≤ 1 + 4 ∧ 5 ≤ len [xfc; xff; xff; xff; xff].
Proof.
  apply (X15_literal_length_bounds [xfc; xff; xff; xff; xff] xfc 1 (2 ^ 32) 5).
  - vm_compute. split; discriminate.
  - reflexivity.
Defined.

Example literal_length_largest :
  literal_length [xfc; xff; xff; xff; xff] 1 (byte_val xfc) = Ok (2 ^ 32, 5).
Proof. reflexivity. Qed.

(** ** Runs *)

Lemma lookup_fill (a c : nat) (x y : byte) (i : nat) :
  (replicate a x ++ replicate c y) !! i =
  if decide (i < a)%nat then Some x
  else if decide (i < a + c)%nat then Some y else None.
Proof.
  destruct (decide (i < a)%nat) as [Ha | Ha].
  - rewrite lookup_app_l by (rewrite length_replicate; exact Ha).
    apply lookup_replicate_2. exact Ha.
  - rewrite lookup_app_r by (rewrite length_replicate; lia).
    rewrite length_replicate.
    destruct (decide (i < a + c)%nat) as [Hc | Hc].
    + apply lookup_replicate_2. lia.
    + apply lookup_ge_None. rewrite length_replicate. lia.
Qed.

(** One copy of length 64 with offset 1 extends a run by 64 bytes. *)
Lemma run_pass (pre rest : list byte) (b : byte) (m z : nat) :
  (64 ≤ z)%nat →
  decode_element (pre ++ [xfe; x01; x00] ++ rest) (Z.of_nat (S m + z))
    (State (len pre) (replicate (S m) b ++ replicate z x00) (Z.of_nat (S m))) =
  Ok (State (len pre + 3) (replicate (S m + 64) b ++ replicate (z - 64) x00)
            (Z.of_nat (S m + 64))).
Proof.
  intros Hz. pose proof (len_nonneg pre) as Hpre. pose proof (len_nonneg rest) as Hrest.
  set (data := pre ++ [xfe; x01; x00] ++ rest).
  set (output := replicate (S m) b ++ replicate z x00).
  assert (len data = len pre + 3 + len rest) as Hdata.
  { unfold data. rewrite !len_app. change (len [xfe; x01; x00]) with 3. lia. }
  assert (getitem data (len pre) = Ok 254) as H0.
  { unfold data. apply (getitem_middle pre ([x01; x00] ++ rest) xfe). }
  assert (getitem data (len pre + 1) = Ok 1) as H1.
  { unfold data.
    replace (pre ++ [xfe; x01; x00] ++ rest) with ((pre ++ [xfe]) ++ x01 :: x00 :: rest)
      by (rewrite <- app_assoc; reflexivity).
    replace (len pre + 1) with (len (pre ++ [xfe])) by (rewrite len_app; reflexivity).
    apply (getitem_middle (pre ++ [xfe]) (x00 :: rest) x01). }
  assert (getitem data (len pre + 1 + 1) = Ok 0) as H2.
  { unfold data.
    replace (pre ++ [xfe; x01; x00] ++ rest) with ((pre ++ [xfe; x01]) ++ x00 :: rest)
      by (rewrite <- app_assoc; reflexivity).
    replace (len pre + 1 + 1) with (len (pre ++ [xfe; x01]))
      by (rewrite len_app; change (len [xfe; x01]) with 2; lia).
    apply (getitem_middle (pre ++ [xfe; x01]) rest x00). }
  assert (copy_header data 2 254 (len pre + 1) = Ok (64, 1, len pre + 3)) as Hhead.
  { unfold copy_header. cbn [Z.eqb Pos.eqb].
    replace (len data <? len pre + 1 + 2) with false by (symmetry; apply Z.ltb_ge; lia).
    rewrite H1, H2. cbn [mbind outcome_bind].
    apply f_equal, pair_equal_spec. split; [reflexivity | lia]. }
  assert (len output = Z.of_nat (S m + z)) as Hout.
  { unfold output, len. rewrite length_app, !length_replicate. lia. }
  destruct (decode_copy_checked data (Z.of_nat (S m + z)) 2 254 (len pre + 1)
              output (Z.of_nat (S m)) 64 1 (len pre + 3))
    as (output' & Hrun & _ & Hcopied); [lia | exact Hhead | exact Hout | lia | lia | lia |].
  rewrite (decode_element_tag _ _ _ _ _ _ H0).
  change (Z.land 254 3) with 2. cbn [Z.eqb]. rewrite Hrun.
  replace (Z.of_nat (S m) + 64) with (Z.of_nat (S m + 64)) by lia.
  f_equal. f_equal.
  assert (1 ≤ 1 ≤ Z.of_nat (S m)) as Hoff by lia.
  pose proof (copied_periodic _ _ _ _ _ Hoff Hcopied) as Hperiod.
  destruct Hcopied as (Hlen & Hlow & Hhigh & _).
  apply list_eq. intros i. rewrite lookup_fill.
  destruct (decide (i < S m + 64)%nat) as [Hi | Hi].
  - destruct (decide (i < S m)%nat) as [Hdone | Hnew].
    + specialize (Hlow (Z.of_nat i) ltac:(lia)). unfold item in Hlow.
      rewrite Nat2Z.id in Hlow. rewrite Hlow. unfold output. rewrite lookup_fill.
      destruct (decide (i < S m)%nat); [reflexivity | lia].
    + specialize (Hperiod (Z.of_nat i - Z.of_nat (S m)) ltac:(lia)).
      unfold item in Hperiod. rewrite Z.mod_1_r in Hperiod.
      replace (Z.to_nat (Z.of_nat (S m) + (Z.of_nat i - Z.of_nat (S m)))) with i
        in Hperiod by lia.
      replace (Z.to_nat (Z.of_nat (S m) - 1 + 0)) with m in Hperiod by lia.
      rewrite Hperiod. unfold output. rewrite lookup_fill.
      destruct (decide (m < S m)%nat); [reflexivity | lia].
  - specialize (Hhigh (Z.of_nat i) ltac:(lia)). unfold item in Hhigh.
    rewrite Nat2Z.id in Hhigh. rewrite Hhigh. unfold output. rewrite lookup_fill.
    destruct (decide (i < S m)%nat); [lia |].
    destruct (decide (i < S m + z)%nat); destruct (decide (i < S m + 64 + (z - 64))%nat);
      try reflexivity; lia.
Qed.

Lemma run_passes (hd : list byte) (b : byte) (k : nat) :
  ∀ (j : nat) (tl : list byte),
    (j ≤ k)%nat →
    decode_head j (hd ++ concat (replicate j [xfe; x01; x00]) ++ tl)
      (Z.of_nat (1 + 64 * k))
      (State (len hd) (replicate 1 b ++ replicate (64 * k) x00) 1) =
    Some (State (len hd + 3 * Z.of_nat j)
                (replicate (1 + 64 * j) b ++ replicate (64 * (k - j)) x00)
                (Z.of_nat (1 + 64 * j))).
Proof.
  induction j as [| j IH]; intros tl Hj.
  - cbn [decode_head]. replace (k - 0)%nat with k by lia.
    replace (len hd + 3 * Z.of_nat 0) with (len hd) by lia. reflexivity.
  - replace (replicate (S j) [xfe; x01; x00])
      with (replicate j [xfe; x01; x00] ++ [[xfe; x01; x00]])
      by (rewrite <- replicate_S_end; reflexivity).
    rewrite concat_app. cbn [concat]. rewrite app_nil_r, <- (app_assoc _ _ tl).
    apply (decode_head_snoc _ _ _ _ _ _ (IH ([xfe; x01; x00] ++ tl) ltac:(lia))).
    + unfold loop_condition. cbn [st_pos st_out_pos].
      apply andb_true_iff. split; apply Z.ltb_lt; [| lia].
      rewrite !len_app. change (len [xfe; x01; x00]) with 3.
      pose proof (len_nonneg tl).
      assert (len (concat (replicate j [xfe; x01; x00])) = 3 * Z.of_nat j) as ->.
      { clear. induction j as [| j IH]; [reflexivity |].
        cbn [replicate concat]. rewrite len_app, IH.
        change (len [xfe; x01; x00]) with 3. lia. }
      lia.
    + assert (len (hd ++ concat (replicate j [xfe; x01; x00])) =
              len hd + 3 * Z.of_nat j) as Hpre.
      { rewrite len_app. f_equal. clear. induction j as [| j IH]; [reflexivity |].
        cbn [replicate concat]. rewrite len_app, IH.
        change (len [xfe; x01; x00]) with 3. lia. }
      rewrite app_assoc, <- Hpre.
      replace (Z.of_nat (1 + 64 * k)) with (Z.of_nat (S (64 * j) + 64 * (k - j))) by lia.
      change (1 + 64 * j)%nat with (S (64 * j)).
      rewrite run_pass by lia. rewrite Hpre.
      replace (len hd + 3 * Z.of_nat j + 3) with (len hd + 3 * Z.of_nat (S j)) by lia.
      replace (S (64 * j) + 64)%nat with (1 + 64 * S j)%nat by lia.
      replace (64 * (k - j) - 64)%nat with (64 * (k - S j))%nat by lia.
      reflexivity.
Qed.

(** X16: a run decodes to itself: the stream of the varint of
    [1 + 64 * k], a literal of one byte [b] and [k] copies of length 64
    with offset 1 decodes to [1 + 64 * k] bytes [b]; every copy reads the
    bytes that it has just written. *)
Theorem X16_run_round_trip (b : byte) (k : nat) :
  1 + 64 * Z.of_nat k < 2 ^ 35 →
  decompress (run_stream b k) = Ok (replicate (1 + 64 * k) b).
Proof.
  intros Hk. unfold run_stream.
  set (hdr := encode_varint 5 (1 + 64 * Z.of_nat k)).
  set (copies := concat (replicate k [xfe; x01; x00])).
  set (data := hdr ++ [x00; b] ++ copies).
  set (ulen := Z.of_nat (1 + 64 * k)).
  pose proof (len_nonneg hdr) as Hhdr. pose proof (len_nonneg copies) as Hcopies.
  assert (_decode_varint data 0 = Ok (ulen, len hdr)) as Hvar.
  { unfold data, hdr, ulen. rewrite decode_varint_encode by lia.
    f_equal. f_equal. lia. }
  set (s0 := State (len hdr) (replicate (Z.to_nat ulen) x00) 0).
  assert (decode_header data = Ok (ulen, s0)) as Hhead.
  { unfold decode_header. rewrite Hvar. cbn [mbind outcome_bind]. unfold bytearray.
    replace (ulen <? 0) with false by (symmetry; apply Z.ltb_ge; unfold ulen; lia).
    reflexivity. }
  set (s1 := State (len hdr + 2) (replicate 1 b ++ replicate (64 * k) x00) 1).
  assert (decode_element data ulen s0 = Ok s1) as Hfirst.
  { unfold s0. rewrite (decode_element_tag _ _ _ _ _ 0).
    2:{ unfold data. apply (getitem_middle hdr ([b] ++ copies) x00). }
    cbn [Z.land Z.eqb]. unfold decode_literal.
    rewrite literal_length_direct by (vm_compute; discriminate).
    change (Z.shiftr 0 2 + 1) with 1. cbn [mbind outcome_bind].
    replace (len data <? len hdr + 1 + 1) with false.
    2:{ symmetry. apply Z.ltb_ge. unfold data. rewrite !len_app.
        change (len [x00; b]) with 2. lia. }
    replace (ulen <? 0 + 1) with false
      by (symmetry; apply Z.ltb_ge; unfold ulen; lia).
    unfold s1. f_equal. f_equal; [lia |].
    assert (slice data (len hdr + 1) (len hdr + 1 + 1) = [b]) as ->.
    { unfold data.
      replace (hdr ++ [x00; b] ++ copies) with ((hdr ++ [x00]) ++ [b] ++ copies)
        by (rewrite <- app_assoc; reflexivity).
      replace (len hdr + 1) with (len (hdr ++ [x00])) by (rewrite len_app; reflexivity).
      apply (slice_middle (hdr ++ [x00]) [b] copies). }
    rewrite set_slice_take_drop;
      [| lia | lia | unfold len, ulen; rewrite length_replicate; lia].
    change (Z.to_nat 0) with 0%nat. rewrite take_0. cbn [app].
    change (Z.to_nat (0 + 1)) with 1%nat.
    replace (Z.to_nat ulen) with (S (64 * k)) by (unfold ulen; lia).
    reflexivity. }
  assert (loop_condition data ulen s0 = true) as Hcond.
  { unfold loop_condition, s0. cbn [st_pos st_out_pos].
    apply andb_true_iff. split; apply Z.ltb_lt; [| unfold ulen; lia].
    unfold data. rewrite !len_app. change (len [x00; b]) with 2. lia. }
  pose proof (run_passes (hdr ++ [x00; b]) b k k [] (Nat.le_refl k)) as Hloop.
  rewrite app_nil_r, <- app_assoc in Hloop. fold copies data ulen in Hloop.
  replace (len (hdr ++ [x00; b])) with (len hdr + 2) in Hloop
    by (rewrite len_app; change (len [x00; b]) with 2; lia).
  fold s1 in Hloop. rewrite Nat.sub_diag in Hloop. cbn [Nat.mul replicate] in Hloop.
  rewrite app_nil_r in Hloop.
  set (sf := State (len hdr + 2 + 3 * Z.of_nat k) (replicate (1 + 64 * k) b)
                   (Z.of_nat (1 + 64 * k))) in *.
  assert (reaches data ulen sf) as Hreach.
  { exists s0, (S k). split; [exact Hhead |].
    cbn [decode_head]. rewrite Hcond, Hfirst. exact Hloop. }
  assert (loop_condition data ulen sf = false) as Hexit.
  { unfold loop_condition, sf, ulen. cbn [st_pos st_out_pos].
    rewrite (Z.ltb_irrefl (Z.of_nat (1 + 64 * k))). apply andb_false_r. }
  pose proof (decompress_exits_at _ _ _ Hreach Hexit) as Hrun.
  unfold decompress.
  destruct data as [| x l] eqn:Hd; [vm_compute in Hvar; discriminate |].
  rewrite Hrun. cbn [mbind outcome_bind]. unfold sf, ulen. cbn [st_out_pos st_output].
  rewrite Z.eqb_refl. reflexivity.
Qed.

Lemma X16_run_round_trip_witness :
  decompress (run_stream x58 2) = Ok (replicate (1 + 64 * 2) x58).
Proof. apply (X16_run_round_trip x58 2). vm_compute. reflexivity. Defined.

(** * Non-minimal literal lengths *)

(** ** The decoder reads the stream from the cursor on *)

Lemma getitem_shift (pre suf : list byte) (d : Z) :
  0 ≤ d → getitem (pre ++ suf) (len pre + d) = getitem suf d.
Proof.
  intros Hd. pose proof (len_nonneg pre) as Hpre. unfold getitem.
  replace (len pre + d <? 0) with false by (symmetry; apply Z.ltb_ge; lia).
  replace (d <? 0) with false by (symmetry; apply Z.ltb_ge; lia).
  rewrite len_app.
  replace (0 <=? len pre + d) with true by (symmetry; apply Z.leb_le; lia).
  replace (0 <=? d) with true by (symmetry; apply Z.leb_le; lia).
  replace (len pre + d <? len pre + len suf) with (d <? len suf).
  2:{ destruct (Z.ltb_spec d (len suf)); symmetry;
        [apply Z.ltb_lt | apply Z.ltb_ge]; lia. }
  rewrite lookup_app_r by (unfold len in *; lia).
  replace (Z.to_nat (len pre + d) - length pre)%nat with (Z.to_nat d)
    by (unfold len in *; lia).
  reflexivity.
Qed.

Lemma slice_shift (pre suf : list byte) (a b : Z) :
  0 ≤ a → a ≤ b → b ≤ len suf →
  slice (pre ++ suf) (len pre + a) (len pre + b) = slice suf a b.
Proof.
  intros Ha Hab Hb. pose proof (len_nonneg pre) as Hpre.
  rewrite !slice_take_drop by (rewrite ?len_app; lia).
  replace (Z.to_nat (len pre + a)) with (length pre + Z.to_nat a)%nat
    by (unfold len in *; lia).
  rewrite drop_app_add. f_equal. lia.
Qed.

Lemma literal_length_shift (pre suf : list byte) (d tag : Z) :
  0 ≤ d →
  literal_length (pre ++ suf) (len pre + d) tag =
  match literal_length suf d tag with
  | Ok (length, pos) => Ok (length, len pre + pos)
  | Raise e => Raise e
  | OutOfFuel => OutOfFuel
  end.
Proof.
  intros Hd. pose proof (len_nonneg pre) as Hpre.
  destruct (Z.le_gt_cases (Z.shiftr tag 2 + 1) 60) as [Hdirect | Hext].
  - rewrite !literal_length_direct by exact Hdirect. reflexivity.
  - destruct (Z.le_gt_cases (d + (Z.shiftr tag 2 + 1 - 60)) (len suf)) as [Hin | Hcut].
    + rewrite !literal_length_extended by (rewrite ?len_app; lia).
      replace (len pre + d + (Z.shiftr tag 2 + 1 - 60))
        with (len pre + (d + (Z.shiftr tag 2 + 1 - 60))) by lia.
      rewrite slice_shift by lia. reflexivity.
    + unfold literal_length. rewrite len_app.
      replace (Z.shiftr tag 2 + 1 <=? 60) with false by (symmetry; apply Z.leb_gt; lia).
      replace (len pre + len suf <? len pre + d + (Z.shiftr tag 2 + 1 - 60)) with true
        by (symmetry; apply Z.ltb_lt; lia).
      replace (len suf <? d + (Z.shiftr tag 2 + 1 - 60)) with true
        by (symmetry; apply Z.ltb_lt; lia).
      reflexivity.
Qed.

Lemma copy_header_shift (pre suf : list byte) (element_type tag d : Z) :
  0 ≤ d →
  copy_header (pre ++ suf) element_type tag (len pre + d) =
  match copy_header suf element_type tag d with
  | Ok (length, offset, pos) => Ok (length, offset, len pre + pos)
  | Raise e => Raise e
  | OutOfFuel => OutOfFuel
  end.
Proof.
  intros Hd. pose proof (len_nonneg pre) as Hpre. unfold copy_header.
  rewrite len_app.
  replace (len pre + d + 1) with (len pre + (d + 1)) by lia.
  replace (len pre + d + 2) with (len pre + (d + 2)) by lia.
  replace (len pre + d + 3) with (len pre + (d + 3)) by lia.
  replace (len pre + d + 4) with (len pre + (d + 4)) by lia.
  rewrite !getitem_shift by lia.
  replace (len pre + len suf <=? len pre + d) with (len suf <=? d).
  2:{ destruct (Z.leb_spec (len suf) d); symmetry;
        [apply Z.leb_le | apply Z.leb_gt]; lia. }
  replace (len pre + len suf <? len pre + (d + 2)) with (len suf <? d + 2).
  2:{ destruct (Z.ltb_spec (len suf) (d + 2)); symmetry;
        [apply Z.ltb_lt | apply Z.ltb_ge]; lia. }
  replace (len pre + len suf <? len pre + (d + 4)) with (len suf <? d + 4).
  2:{ destruct (Z.ltb_spec (len suf) (d + 4)); symmetry;
        [apply Z.ltb_lt | apply Z.ltb_ge]; lia. }
  destruct (element_type =? 1); [| destruct (element_type =? 2)].
  - destruct (len suf <=? d); [reflexivity |].
    destruct (getitem suf d); reflexivity.
  - destruct (len suf <? d + 2); [reflexivity |].
    destruct (getitem suf d); [| reflexivity | reflexivity].
    destruct (getitem suf (d + 1)); reflexivity.
  - destruct (len suf <? d + 4); [reflexivity |].
    destruct (getitem suf d); [| reflexivity | reflexivity].
    destruct (getitem suf (d + 1)); [| reflexivity | reflexivity].
    destruct (getitem suf (d + 2)); [| reflexivity | reflexivity].
    destruct (getitem suf (d + 3)); reflexivity.
Qed.

Lemma loop_condition_shift (pre suf : list byte) (uncompressed_len d : Z)
    (output : list byte) (out_pos : Z) :
  loop_condition (pre ++ suf) uncompressed_len (State (len pre + d) output out_pos) =
  loop_condition suf uncompressed_len (State d output out_pos).
Proof.
  unfold loop_condition. cbn [st_pos st_out_pos]. rewrite len_app. f_equal.
  destruct (Z.ltb_spec d (len suf)); [apply Z.ltb_lt | apply Z.ltb_ge]; lia.
Qed.

Lemma decode_element_shift (pre suf : list byte) (uncompressed_len d : Z)
    (output : list byte) (out_pos : Z) :
  0 ≤ d < len suf →
  decode_element (pre ++ suf) uncompressed_len (State (len pre + d) output out_pos) =
  shift_outcome (len pre)
    (decode_element suf uncompressed_len (State d output out_pos)).
Proof.
  intros Hd. pose proof (len_nonneg pre) as Hpre.
  destruct (getitem_in_range suf d Hd) as (b & _ & Htag).
  rewrite (decode_element_tag suf _ _ _ _ _ Htag).
  rewrite (decode_element_tag (pre ++ suf) _ _ _ _ (byte_val b))
    by (rewrite getitem_shift by lia; exact Htag).
  pose proof (byte_val_range b) as Hb.
  destruct (Z.land (byte_val b) 3 =? 0).
  - unfold decode_literal.
    replace (len pre + d + 1) with (len pre + (d + 1)) by lia.
    rewrite literal_length_shift by lia.
    destruct (literal_length suf (d + 1) (byte_val b)) as [[length pos1] | e |] eqn:Hll;
      cbn [mbind outcome_bind shift_outcome]; [| reflexivity | reflexivity].
    assert (0 ≤ d + 1 ≤ len suf) as Hnext by lia.
    destruct (literal_length_range _ _ _ _ _ Hb Hnext Hll) as [Hl Hp1].
    rewrite len_app.
    destruct (Z.ltb_spec (len suf) (pos1 + length)) as [Hcut | Hin].
    + replace (len pre + len suf <? len pre + pos1 + length) with true
        by (symmetry; apply Z.ltb_lt; lia).
      reflexivity.
    + replace (len pre + len suf <? len pre + pos1 + length) with false
        by (symmetry; apply Z.ltb_ge; lia).
      destruct (uncompressed_len <? out_pos + length); [reflexivity |].
      replace (len pre + pos1 + length) with (len pre + (pos1 + length)) by lia.
      rewrite slice_shift by lia.
      cbn [shift_outcome]. unfold shift_state. cbn [st_pos st_output st_out_pos].
      f_equal. f_equal. lia.
  - unfold decode_copy.
    replace (len pre + d + 1) with (len pre + (d + 1)) by lia.
    rewrite copy_header_shift by lia.
    destruct (copy_header suf (Z.land (byte_val b) 3) (byte_val b) (d + 1))
      as [[[length offset] pos1] | e |];
      cbn [mbind outcome_bind shift_outcome]; [| reflexivity | reflexivity].
    destruct (offset =? 0); [reflexivity |].
    destruct (out_pos <? offset); [reflexivity |].
    destruct (uncompressed_len <? out_pos + length); [reflexivity |].
    destruct (copy_bytes output out_pos offset length) as [output' | e |];
      cbn [mbind outcome_bind shift_outcome]; [| reflexivity | reflexivity].
    unfold shift_state. cbn [st_pos st_output st_out_pos]. f_equal. f_equal. lia.
Qed.

Lemma decode_loop_shift (pre suf : list byte) (uncompressed_len : Z) (fuel : nat) :
  ∀ (d : Z) (output : list byte) (out_pos : Z),
    invariant suf uncompressed_len (State d output out_pos) →
    decode_loop fuel (pre ++ suf) uncompressed_len (State (len pre + d) output out_pos) =
    shift_outcome (len pre)
      (decode_loop fuel suf uncompressed_len (State d output out_pos)).
Proof.
  induction fuel as [| fuel IH]; intros d output out_pos Hinv; cbn [decode_loop];
    rewrite loop_condition_shift;
    destruct (loop_condition suf uncompressed_len (State d output out_pos)) eqn:Hcond.
  - reflexivity.
  - cbn [shift_outcome]. unfold shift_state. cbn [st_pos st_output st_out_pos].
    f_equal. f_equal. lia.
  - assert (0 ≤ d < len suf) as Hd.
    { destruct Hinv as ((H0 & _) & _). cbn [st_pos] in H0.
      unfold loop_condition in Hcond. cbn [st_pos] in Hcond.
      apply andb_true_iff in Hcond as [H _]. apply Z.ltb_lt in H. lia. }
    rewrite decode_element_shift by exact Hd.
    destruct (decode_element suf uncompressed_len (State d output out_pos))
      as [[pos1 output1 out_pos1] | e |] eqn:Hstep;
      cbn [mbind outcome_bind shift_outcome]; [| reflexivity | reflexivity].
    destruct (decode_element_step _ _ _ _ Hinv Hcond Hstep) as (Hinv1 & _ & _).
    unfold shift_state. cbn [st_pos st_output st_out_pos].
    replace (pos1 + len pre) with (len pre + pos1) by lia.
    apply IH. exact Hinv1.
  - cbn [shift_outcome]. unfold shift_state. cbn [st_pos st_output st_out_pos].
    f_equal. f_equal. lia.
Qed.

(** ** Fuel beyond what the loop needs *)

Lemma decode_loop_S (data : list byte) (uncompressed_len : Z) (fuel : nat) :
  ∀ s, invariant data uncompressed_len s →
       len data - st_pos s ≤ Z.of_nat fuel →
       decode_loop (S fuel) data uncompressed_len s =
       decode_loop fuel data uncompressed_len s.
Proof.
  induction fuel as [| fuel IH]; intros s Hinv Hfuel.
  - cbn [decode_loop].
    destruct (loop_condition data uncompressed_len s) eqn:Hcond; [| reflexivity].
    unfold loop_condition in Hcond. apply andb_true_iff in Hcond as [H _].
    apply Z.ltb_lt in H. lia.
  - change (decode_loop (S (S fuel)) data uncompressed_len s)
      with (if loop_condition data uncompressed_len s
            then s' ← decode_element data uncompressed_len s;
                 decode_loop (S fuel) data uncompressed_len s'
            else Ok s).
    change (decode_loop (S fuel) data uncompressed_len s)
      with (if loop_condition data uncompressed_len s
            then s' ← decode_element data uncompressed_len s;
                 decode_loop fuel data uncompressed_len s'
            else Ok s).
    destruct (loop_condition data uncompressed_len s) eqn:Hcond; [| reflexivity].
    destruct (decode_element data uncompressed_len s) as [s1 | e |] eqn:Hstep;
      cbn [mbind outcome_bind]; [| reflexivity | reflexivity].
    destruct (decode_element_step _ _ _ _ Hinv Hcond Hstep) as (Hinv1 & Hlt & _).
    apply IH; [exact Hinv1 | lia].
Qed.

Lemma decode_loop_enough (data : list byte) (uncompressed_len : Z)
    (fuel fuel' : nat) (s : decoder_state) :
  invariant data uncompressed_len s →
  len data - st_pos s ≤ Z.of_nat fuel →
  len data - st_pos s ≤ Z.of_nat fuel' →
  decode_loop fuel data uncompressed_len s =
  decode_loop fuel' data uncompressed_len s.
Proof.
  intros Hinv Hf Hf'.
  assert (∀ k f, len data - st_pos s ≤ Z.of_nat f →
                 decode_loop (k + f) data uncompressed_len s =
                 decode_loop f data uncompressed_len s) as Hmore.
  { induction k as [| k IH]; intros f Hle; [reflexivity |].
    cbn [Nat.add]. rewrite decode_loop_S by (exact Hinv || lia). apply IH. exact Hle. }
  destruct (Nat.le_ge_cases fuel fuel') as [Hle | Hle].
  - replace fuel' with ((fuel' - fuel) + fuel)%nat by lia.
    symmetry. apply Hmore. exact Hf.
  - replace fuel with ((fuel - fuel') + fuel')%nat by lia.
    apply Hmore. exact Hf'.
Qed.

(** [decompress] from a state at the head of its loop, with any fuel that
    is enough from there. *)
Lemma decompress_from (data : list byte) (uncompressed_len : Z)
    (s : decoder_state) (fuel : nat) :
  reaches data uncompressed_len s →
  len data - st_pos s ≤ Z.of_nat fuel →
  decompress_loop data =
    (t ← decode_loop fuel data uncompressed_len s; Ok (uncompressed_len, t)).
Proof.
  intros (s0 & n & Hhead & Hn) Hfuel.
  destruct (decode_header_Ok _ _ _ Hhead) as (_ & _ & _ & Hinv0).
  destruct (decode_head_run _ _ _ _ _ Hinv0 Hn) as [Hinv Hle].
  destruct Hinv0 as ((Hp0 & _) & _). pose proof Hinv as ((_ & Hp) & _).
  unfold decompress_loop. rewrite Hhead. cbn [mbind outcome_bind].
  replace (length data) with (n + (length data - n))%nat at 1
    by (unfold len in *; lia).
  rewrite (decode_loop_head _ _ _ _ _ _ Hn).
  rewrite (decode_loop_enough _ _ (length data - n) fuel _ Hinv);
    [reflexivity | unfold len in *; lia | exact Hfuel].
Qed.

Lemma reaches_app (data extra : list byte) (uncompressed_len : Z)
    (s : decoder_state) :
  reaches data uncompressed_len s → reaches (data ++ extra) uncompressed_len s.
Proof.
  intros (s0 & n & Hhead & Hn).
  destruct (decode_header_Ok _ _ _ Hhead) as (Hvar & _ & _ & Hinv0).
  exists s0, n. split; [| apply decode_head_app; assumption].
  revert Hhead. unfold decode_header. rewrite Hvar.
  rewrite (decode_varint_app _ extra _ Hvar). trivial.
Qed.

Lemma reaches_step (data : list byte) (uncompressed_len : Z)
    (s s1 : decoder_state) :
  reaches data uncompressed_len s →
  loop_condition data uncompressed_len s = true →
  decode_element data uncompressed_len s = Ok s1 →
  reaches data uncompressed_len s1.
Proof.
  intros (s0 & n & Hhead & Hn) Hcond Hstep.
  exists s0, (S n). split; [exact Hhead |].
  exact (decode_head_snoc _ _ _ _ _ _ Hn Hcond Hstep).
Qed.

(** ** A literal with length bytes, anywhere in a stream *)

(** The pass on a literal whose tag announces length bytes: the length is
    read from them, whatever it is. *)
Lemma decode_element_extended (data : list byte) (uncompressed_len pos : Z)
    (output : list byte) (out_pos : Z) (tag : byte) :
  0 ≤ pos →
  getitem data pos = Ok (byte_val tag) →
  Z.land (byte_val tag) 0x03 = 0 →
  60 < Z.shiftr (byte_val tag) 2 + 1 →
  pos + 1 + (Z.shiftr (byte_val tag) 2 + 1 - 60) ≤ len data →
  decode_element data uncompressed_len (State pos output out_pos) =
    let N := Z.shiftr (byte_val tag) 2 + 1 - 60 in
    let length := 1 + little_endian (slice data (pos + 1) (pos + 1 + N)) in
    if len data <? pos + 1 + N + length
    then Raise (CompressionError Truncated_literal_data)
    else if uncompressed_len <? out_pos + length
    then Raise (CompressionError Output_overflow_in_literal)
    else Ok (State (pos + 1 + N + length)
                   (set_slice output out_pos (out_pos + length)
                              (slice data (pos + 1 + N) (pos + 1 + N + length)))
                   (out_pos + length)).
Proof.
  intros Hpos Htag Hkind Hext Hin. cbv zeta.
  rewrite (decode_element_tag _ _ _ _ _ _ Htag), Hkind. cbn [Z.eqb].
  unfold decode_literal. rewrite literal_length_extended by lia.
  reflexivity.
Qed.

Lemma finish_shift (uncompressed_len delta : Z) (c : outcome decoder_state) :
  finish uncompressed_len (shift_outcome delta c) = finish uncompressed_len c.
Proof. destruct c as [s | e |]; reflexivity. Qed.

Lemma decompress_finish (data : list byte) (uncompressed_len : Z)
    (s : decoder_state) (fuel : nat) :
  reaches data uncompressed_len s →
  len data - st_pos s ≤ Z.of_nat fuel →
  decompress data = finish uncompressed_len (decode_loop fuel data uncompressed_len s).
Proof.
  intros Hreach Hfuel.
  destruct (reaches_loop _ _ _ Hreach) as (Hne & _).
  pose proof (decompress_from _ _ _ _ Hreach Hfuel) as Hrun.
  unfold decompress. destruct data as [| b data]; [congruence |].
  rewrite Hrun. unfold finish.
  destruct (decode_loop fuel (b :: data) uncompressed_len s); reflexivity.
Qed.

(** A stream in which a literal element follows complete elements: what
    [decompress] returns is determined by the state before the literal, its
    payload and the bytes behind it, and not by the way the tag and the
    length bytes give the length. *)
Lemma stream_after_literal (pre mid payload rest : list byte) (t : byte)
    (uncompressed_len : Z) (output : list byte) (out_pos : Z) :
  reaches pre uncompressed_len (State (len pre) output out_pos) →
  Z.land (byte_val t) 0x03 = 0 →
  1 ≤ len payload →
  literal_length (pre ++ t :: mid ++ payload ++ rest) (len pre + 1) (byte_val t) =
    Ok (len payload, len pre + 1 + len mid) →
  decompress (pre ++ t :: mid ++ payload ++ rest) =
  finish uncompressed_len
    (if out_pos <? uncompressed_len then
       if uncompressed_len <? out_pos + len payload
       then Raise (CompressionError Output_overflow_in_literal)
       else decode_loop (length rest) rest uncompressed_len
              (State 0 (set_slice output out_pos (out_pos + len payload) payload)
                     (out_pos + len payload))
     else Ok (State 0 output out_pos)).
Proof.
  intros Hreach_pre Hkind Hn Hll.
  set (data := pre ++ t :: mid ++ payload ++ rest) in *.
  pose proof (len_nonneg pre) as Hpre. pose proof (len_nonneg mid) as Hmid.
  pose proof (len_nonneg rest) as Hrest.
  assert (len data = len pre + 1 + len mid + len payload + len rest) as Hdata.
  { unfold data. rewrite len_app, len_cons, !len_app. lia. }
  assert (reaches data uncompressed_len (State (len pre) output out_pos)) as Hreach.
  { unfold data. apply reaches_app. exact Hreach_pre. }
  destruct (reaches_loop _ _ _ Hreach) as (_ & Hinv & _).
  pose proof Hinv as (_ & Hout & Hlen). cbn [st_out_pos st_output] in Hout, Hlen.
  rewrite (decompress_finish data uncompressed_len _ (S (length data)) Hreach)
    by (cbn [st_pos]; unfold len in *; lia).
  cbn [decode_loop]. unfold loop_condition at 1. cbn [st_pos st_out_pos].
  replace (len pre <? len data) with true by (symmetry; apply Z.ltb_lt; lia).
  cbn [andb].
  destruct (Z.ltb_spec out_pos uncompressed_len) as [Hroom | Hfull]; [| reflexivity].
  assert (decode_element data uncompressed_len (State (len pre) output out_pos) =
          if uncompressed_len <? out_pos + len payload
          then Raise (CompressionError Output_overflow_in_literal)
          else Ok (State (len pre + 1 + len mid + len payload)
                         (set_slice output out_pos (out_pos + len payload) payload)
                         (out_pos + len payload))) as Hstep.
  { rewrite (decode_element_tag _ _ _ _ _ (byte_val t))
      by (unfold data; apply getitem_middle).
    rewrite Hkind. cbn [Z.eqb]. unfold decode_literal. rewrite Hll.
    cbn [mbind outcome_bind].
    replace (len data <? len pre + 1 + len mid + len payload) with false
      by (symmetry; apply Z.ltb_ge; lia).
    assert (slice data (len pre + 1 + len mid) (len pre + 1 + len mid + len payload)
            = payload) as ->; [| reflexivity].
    unfold data.
    replace (pre ++ t :: mid ++ payload ++ rest)
      with ((pre ++ t :: mid) ++ payload ++ rest)
      by (rewrite <- app_assoc; reflexivity).
    replace (len pre + 1 + len mid) with (len (pre ++ t :: mid))
      by (rewrite len_app, len_cons; lia).
    apply slice_middle. }
  rewrite Hstep.
  destruct (Z.ltb_spec uncompressed_len (out_pos + len payload)) as [Hover | Hfit];
    [reflexivity |].
  cbn [mbind outcome_bind].
  set (s1 := State (len pre + 1 + len mid + len payload)
                   (set_slice output out_pos (out_pos + len payload) payload)
                   (out_pos + len payload)).
  assert (reaches data uncompressed_len s1) as Hreach1.
  { apply (reaches_step _ _ _ _ Hreach).
    - unfold loop_condition. cbn [st_pos st_out_pos].
      apply andb_true_iff. split; apply Z.ltb_lt; lia.
    - rewrite Hstep.
      replace (uncompressed_len <? out_pos + len payload) with false
        by (symmetry; apply Z.ltb_ge; lia).
      reflexivity. }
  destruct (reaches_loop _ _ _ Hreach1) as (_ & Hinv1 & _).
  rewrite (decode_loop_enough _ _ (length data) (length rest) s1 Hinv1)
    by (unfold s1; cbn [st_pos]; unfold len in *; lia).
  unfold s1, data.
  replace (pre ++ t :: mid ++ payload ++ rest)
    with ((pre ++ t :: mid ++ payload) ++ rest)
    by (rewrite <- !app_assoc; cbn [app]; rewrite <- app_assoc; reflexivity).
  replace (len pre + 1 + len mid + len payload)
    with (len (pre ++ t :: mid ++ payload) + 0)
    by (rewrite len_app, len_cons, len_app; lia).
  rewrite decode_loop_shift.
  - apply finish_shift.
  - destruct Hinv1 as (_ & Hout1 & Hlen1). unfold s1 in Hout1, Hlen1.
    cbn [st_out_pos st_output] in Hout1, Hlen1.
    unfold invariant. cbn [st_pos st_out_pos st_output]. lia.
Qed.

(** C10: non-minimal literal lengths are accepted.  At any cursor and in
    any state, the pass on a literal tag with [(tag >> 2) + 1 = 60 + N]
    reads the [N] bytes behind the tag and takes 1 plus their little-endian
    value as the length, whatever that value is; and wherever such a
    literal stands in a stream, behind complete elements and before any
    bytes, [decompress] returns on the stream what it returns on the stream
    in which the literal has the direct tag of its length (at most 60).
    The literal of length 1 with tag 0xF0 and length byte 0x00 decodes as
    the one with tag 0x00. *)
Theorem C10_non_minimal_literal :
  (∀ (data : list byte) (uncompressed_len pos : Z) (output : list byte)
     (out_pos : Z) (tag : byte),
     0 ≤ pos →
     getitem data pos = Ok (byte_val tag) →
     Z.land (byte_val tag) 0x03 = 0 →
     60 < Z.shiftr (byte_val tag) 2 + 1 →
     pos + 1 + (Z.shiftr (byte_val tag) 2 + 1 - 60) ≤ len data →
     decode_element data uncompressed_len (State pos output out_pos) =
       let N := Z.shiftr (byte_val tag) 2 + 1 - 60 in
       let length := 1 + little_endian (slice data (pos + 1) (pos + 1 + N)) in
       if len data <? pos + 1 + N + length
       then Raise (CompressionError Truncated_literal_data)
       else if uncompressed_len <? out_pos + length
       then Raise (CompressionError Output_overflow_in_literal)
       else Ok (State (pos + 1 + N + length)
                      (set_slice output out_pos (out_pos + length)
                                 (slice data (pos + 1 + N) (pos + 1 + N + length)))
                      (out_pos + length))) ∧
  (∀ (pre extras payload rest : list byte) (tag direct : byte)
     (uncompressed_len : Z) (output : list byte) (out_pos : Z),
     reaches pre uncompressed_len (State (len pre) output out_pos) →
     Z.land (byte_val tag) 0x03 = 0 →
     Z.shiftr (byte_val tag) 2 + 1 = 60 + len extras →
     1 ≤ len extras →
     1 + little_endian extras = len payload →
     len payload ≤ 60 →
     Z.land (byte_val direct) 0x03 = 0 →
     Z.shiftr (byte_val direct) 2 + 1 = len payload →
     literal_length (pre ++ tag :: extras ++ payload ++ rest) (len pre + 1)
                    (byte_val tag) =
       Ok (len payload, len pre + 1 + len extras) ∧
     decompress (pre ++ tag :: extras ++ payload ++ rest) =
     decompress (pre ++ direct :: payload ++ rest)) ∧
  decompress [x01; xf0; x00; x61] = Ok [x61] ∧
  decompress [x01; x00; x61] = Ok [x61].
Proof.
  split; [| split; [| split; reflexivity]].
  - intros data uncompressed_len pos output out_pos tag.
    apply decode_element_extended.
  - intros pre extras payload rest tag direct uncompressed_len output out_pos
           Hreach Hkind Htag Hextras Hvalue H60 Hdkind Hdirect.
    pose proof (len_nonneg pre) as Hpre. pose proof (len_nonneg payload) as Hpay.
    pose proof (len_nonneg rest) as Hrest.
    pose proof (little_endian_nonneg extras) as Hle.
    assert (literal_length (pre ++ tag :: extras ++ payload ++ rest) (len pre + 1)
                           (byte_val tag) =
              Ok (len payload, len pre + 1 + len extras)) as Hll.
    { rewrite literal_length_extended.
      - replace (Z.shiftr (byte_val tag) 2 + 1 - 60) with (len extras) by lia.
        replace (pre ++ tag :: extras ++ payload ++ rest)
          with ((pre ++ [tag]) ++ extras ++ payload ++ rest)
          by (rewrite <- app_assoc; reflexivity).
        replace (len pre + 1) with (len (pre ++ [tag]))
          by (rewrite len_app; reflexivity).
        rewrite slice_middle, Hvalue. reflexivity.
      - lia.
      - lia.
      - rewrite len_app, len_cons, !len_app. lia. }
    split; [exact Hll |].
    rewrite (stream_after_literal pre extras payload rest tag uncompressed_len
               output out_pos Hreach Hkind ltac:(lia) Hll).
    change (pre ++ direct :: payload ++ rest)
      with (pre ++ direct :: [] ++ payload ++ rest).
    rewrite (stream_after_literal pre [] payload rest direct uncompressed_len
               output out_pos Hreach Hdkind ltac:(lia)).
    + reflexivity.
    + rewrite literal_length_direct by lia. rewrite Hdirect.
      change (len []) with 0. apply f_equal, pair_equal_spec. split; lia.
Qed.

Lemma C10_non_minimal_literal_witness :
  literal_length ([x03; x00; x61] ++ xf0 :: [x00] ++ [x62] ++ [x00; x63])
                 (len [x03; x00; x61] + 1) (byte_val xf0) =
    Ok (len [x62], len [x03; x00; x61] + 1 + len [x00]) ∧
  decompress ([x03; x00; x61] ++ xf0 :: [x00] ++ [x62] ++ [x00; x63]) =
  decompress ([x03; x00; x61] ++ x00 :: [x62] ++ [x00; x63]).
Proof.
  apply (proj1 (proj2 C10_non_minimal_literal)
           [x03; x00; x61] [x00] [x62] [x00; x63] xf0 x00 3
           [x61; x00; x00] 1).
  - exists (State 1 (replicate 3 x00) 0), 1%nat. split; reflexivity.
  - reflexivity.
  - reflexivity.
  - vm_compute. discriminate.
  - reflexivity.
  - vm_compute. discriminate.
  - reflexivity.
  - reflexivity.
Defined.

Example non_minimal_literal_in_stream :
  decompress ([x03; x00; x61] ++ xf0 :: [x00] ++ [x62] ++ [x00; x63]) =
    Ok [x61; x62; x63].
Proof. vm_compute. reflexivity. Qed.

Example non_minimal_literal_four_bytes :
  decompress [x02; xfc; x01; x00; x00; x00; x61; x62; xff] = Ok [x61; x62].
Proof. vm_compute. reflexivity. Qed.
